(** * eNMS workflow engine: a shallow embedding and its verified properties

    The development follows the Python sources

    - [eNMS/services/workflow/workflow.py]  ([Workflow.job], the graph walk),
    - [eNMS/models/base.py]                 ([AbstractBase.__lt__]),
    - [eNMS/models/automation.py]           ([Service.neighbors], [Task]),
    - [eNMS/environment.py]                 ([Environment] password handling),

    together with the two standard-library algorithms the engine relies on:
    [heapq] (the pending queue) and [base64] / UTF-8 (the fallback secret
    encoding).

    Conventions.  Python integers are [Z]; Python [str] keys and names are
    [string]; dictionaries are [gmap]; sets are [gset]; lists used as arrays
    are Rocq lists with stdpp's lookup and insert.  Exceptions are values of
    [Exn]; functions that can raise return a sum or run in the small
    state-and-exception monad [M] defined below. *)

From Stdlib Require Import QArith.
From Equations Require Import Equations.
From stdpp Require Import base gmap sets list strings pretty numbers.
Close Scope Q_scope.

(** * Data model *)

(** ** Services and edges ([eNMS/models/automation.py], [workflow.py])

    Only the columns read by [Workflow.job] are kept.  Objects loaded through
    the ORM session are unique per primary key, so object identity ([is], and
    the default [==]) is equality of [service_id]. *)

Record Service := {
  service_id : Z;             (* id *)
  name : string;              (* name, unique *)
  scoped_name : string;       (* scoped_name *)
  priority : Z;               (* priority, default 1 *)
  maximum_runs : Z;           (* maximum_runs, default 1 *)
  skip : gmap string bool;    (* skip: workflow name -> bool *)
  skip_value : string;        (* skip_value *)
}.

Global Instance Service_eq_dec : EqDecision Service.
Proof. solve_decision. Defined.

Global Instance Service_inhabited : Inhabited Service :=
  populate {| service_id := 0; name := ""; scoped_name := ""; priority := 1;
              maximum_runs := 1; skip := ∅; skip_value := "True" |}.

Record WorkflowEdge := {
  edge_id : Z;                (* id *)
  subtype : string;           (* "success" or "failure" *)
  source_id : Z;              (* source_id *)
  destination_id : Z;         (* destination_id *)
  edge_workflow : string;     (* workflow.name *)
}.

Global Instance WorkflowEdge_eq_dec : EqDecision WorkflowEdge.
Proof. solve_decision. Defined.

Record Workflow := {
  workflow_name : string;     (* self.name *)
}.

(** The relational store behind [db.fetch] and the ORM relationships. *)
Record Database := {
  db_services : list Service;
  db_edges : list WorkflowEdge;
  db_devices : list string;   (* names of the devices *)
}.

(** Object identity of two loaded services. *)
Definition service_is (a b : Service) : bool :=
  bool_decide (service_id a = service_id b).

(** * The pending queue: [heapq] over [(1 / priority, service)] tuples *)

(** ** Comparison of heap entries

    The key [1 / priority] is a Python float: the double nearest to the
    quotient.  Every double is a rational, and the model keeps the key as
    that rational, so that [==] and [<] of two keys are those of the
    floats.  [AbstractBase.__lt__] answers [True] for every pair of model
    instances. *)

Definition Entry : Type := Q * Service.

Definition AbstractBase_lt (self other : Service) : bool := true.

Definition Qlt_bool (x y : Q) : bool := negb (Qle_bool y x).

(** Tuple comparison [a < b]: the first position where the components are
    not [==] decides; equal tuples are not smaller. *)
Definition entry_lt (a b : Entry) : bool :=
  if Qeq_bool a.1 b.1 then
    if service_is a.2 b.2 then false else AbstractBase_lt a.2 b.2
  else Qlt_bool a.1 b.1.

(** ** Index arithmetic *)

Definition parentpos (pos : nat) : nat := Nat.shiftr (pos - 1) 1.

(** ** The algorithms of [heapq], generic in the item type *)

Section heapq.
Context {A : Type} (lt_ : A → A → bool).

(** The [while pos > startpos] loop of [_siftdown]; [newitem] is written
    when the loop ends. *)
Equations? siftdown_loop (heap : list A) (startpos pos : nat) (newitem : A)
  : list A by wf pos lt :=
  siftdown_loop heap startpos pos newitem with decide (startpos < pos) => {
    | right _ := <[pos := newitem]> heap;
    | left _ with heap !! parentpos pos => {
        | None := <[pos := newitem]> heap;
        | Some parent with lt_ newitem parent => {
            | true := siftdown_loop (<[pos := parent]> heap) startpos
                        (parentpos pos) newitem;
            | false := <[pos := newitem]> heap } } }.
Proof.
  unfold parentpos. rewrite Nat.shiftr_div_pow2. change (2 ^ 1) with 2.
  apply Nat.Div0.div_lt_upper_bound. lia.
Qed.

Definition siftdown (heap : list A) (startpos pos : nat) : list A :=
  match heap !! pos with
  | Some newitem => siftdown_loop heap startpos pos newitem
  | None => heap
  end.

(** [heappush]: append, then sift the new last item towards the root. *)
Definition heappush (heap : list A) (item : A) : list A :=
  siftdown (heap ++ [item]) 0 (length heap).

(** The child that [_siftup] moves up: the right one unless the left one
    is smaller. *)
Definition smaller_child (heap : list A) (pos : nat) : nat :=
  let childpos := 2 * pos + 1 in
  match heap !! childpos, heap !! (childpos + 1) with
  | Some l, Some r => if lt_ l r then childpos else childpos + 1
  | _, _ => childpos
  end.

(** The [while childpos < endpos] loop of [_siftup]: returns the heap and
    the leaf position reached. *)
Equations? siftup_loop (heap : list A) (pos : nat) : list A * nat
  by wf (length heap - pos) lt :=
  siftup_loop heap pos with decide (2 * pos + 1 < length heap) => {
    | right _ := (heap, pos);
    | left _ with heap !! smaller_child heap pos => {
        | None := (heap, pos);
        | Some child :=
            siftup_loop (<[pos := child]> heap) (smaller_child heap pos) } }.
Proof.
  rewrite length_insert.
  assert (pos < smaller_child heap pos)
    by (unfold smaller_child; repeat case_match; lia).
  lia.
Qed.

Definition siftup (heap : list A) (pos : nat) : list A :=
  match heap !! pos with
  | Some newitem =>
      let '(heap', leaf) := siftup_loop heap pos in
      siftdown (<[leaf := newitem]> heap') pos leaf
  | None => heap
  end.

(** [heappop]: [None] stands for the [IndexError] of popping an empty
    list. *)
Definition heappop (heap : list A) : option (A * list A) :=
  match list.last heap with
  | None => None
  | Some lastelt =>
      match removelast heap with
      | [] => Some (lastelt, [])
      | returnitem :: rest =>
          Some (returnitem, siftup (lastelt :: rest) 0)
      end
  end.
End heapq.

(** * The engine's environment *)

(** ** Exceptions raised inside [Workflow.job] *)

Inductive Exn :=
| ZeroDivisionError                 (* 1 / 0 *)
| KeyError (key : string)           (* summary[edge_type] on a missing key *)
| AttributeError (attr : string)    (* attribute read on None *)
| IndexError                        (* pop from an empty list *)
| InstanceNotFound (model : string) (* db.fetch without a matching row *).

Global Instance Exn_eq_dec : EqDecision Exn.
Proof. solve_decision. Defined.

(** ** Database access

    Modelled from the spec: [db.fetch] (eNMS/database.py) is not among the
    sources; the engine "fetches the service" for an id or a scoped name.
    A fetch returns the first matching row and raises when there is none. *)

Definition fetch_service_by_id (db : Database) (i : Z) : Exn + Service :=
  match List.find (λ s, bool_decide (service_id s = i)) (db_services db) with
  | Some s => inr s
  | None => inl (InstanceNotFound "service")
  end.

Definition fetch_service_by_scoped_name (db : Database) (n : string)
  : Exn + Service :=
  match List.find (λ s, bool_decide (scoped_name s = n)) (db_services db) with
  | Some s => inr s
  | None => inl (InstanceNotFound "service")
  end.

(** Devices are identified by their name throughout [job]; the model keeps
    the name as the device. *)
Definition Device : Type := string.

Definition fetch_device (db : Database) (n : string) : Exn + Device :=
  if decide (n ∈ db_devices db) then inr n else inl (InstanceNotFound "device").

(** [[db.fetch("device", name=name) for name in names]] *)
Fixpoint fetch_devices (db : Database) (names : list string)
  : Exn + list Device :=
  match names with
  | [] => inr []
  | n :: names' =>
      match fetch_device db n with
      | inl e => inl e
      | inr d =>
          match fetch_devices db names' with
          | inl e => inl e
          | inr ds => inr (d :: ds)
          end
      end
  end.

(** ** [Service.neighbors] ([eNMS/models/automation.py], lines 196-199)

    [service.destinations] are the edges whose source is the service and
    [service.sources] those whose destination it is.  The peer of a dangling
    edge is [None]. *)

Inductive Direction := source | destination.

Definition edge_end (direction : Direction) (edge : WorkflowEdge) : Z :=
  match direction with
  | source => source_id edge
  | destination => destination_id edge
  end.

Definition service_edges (db : Database) (self : Service)
    (direction : Direction) : list WorkflowEdge :=
  let own := match direction with
             | destination => source_id
             | source => destination_id
             end in
  filter (λ edge, own edge = service_id self) (db_edges db).

Definition peer (db : Database) (direction : Direction) (edge : WorkflowEdge)
  : option Service :=
  List.find (λ s, bool_decide (service_id s = edge_end direction edge))
    (db_services db).

Definition neighbors (db : Database) (self : Service) (workflow : Workflow)
    (direction : Direction) (subtype_ : string)
  : list (option Service * WorkflowEdge) :=
  (λ edge, (peer db direction edge, edge)) <$>
  filter (λ edge, subtype edge = subtype_
                  ∧ edge_workflow edge = workflow_name workflow)
         (service_edges db self direction).

(** ** The run handed to [job], the Runner and the live state

    [payload] is a dictionary shared with every Runner; [job] only passes
    the reference on, so the model keeps an opaque handle. *)

Definition Payload : Type := nat.

Record Run := {
  start_services : list Z;
  target_devices : list Device;
  run_method : string;
  payload : Payload;
  placeholder : option Service;
  parent_device : option Device;
  parent_runtime : string;
}.

(** Keyword arguments of a [Runner] call (lines 140-155). *)
Record RunnerArgs := {
  arg_service : option Service;
  arg_workflow : Workflow;
  arg_parent_runtime : string;
  arg_workflow_run_method : string;
  arg_target_devices : option (list Device);
  arg_parent_device : option Device;
}.

(** A [results] dictionary: of a Runner, or synthesized for a skipped
    service.  A summary maps "success" and "failure" to device names. *)
Record Results := {
  res_success : bool;
  res_result : option string;
  res_summary : option (gmap string (list string));
}.

Inductive StateValue := VInt (n : Z) | VStr (s : string).

Global Instance StateValue_eq_dec : EqDecision StateValue.
Proof. solve_decision. Defined.

(** What [job] does to the outside world, in order.  [SkipSynthesized] marks
    the dispatch of a service that is not handed to a Runner. *)
Inductive Event :=
| RunnerInvoked (service : Service) (kwargs : RunnerArgs)
| SkipSynthesized (service : Service)
| StateWritten (path : string) (value : StateValue) (mode : option string).

(** The parts of the system [job] calls into: the value of [run.stop] at the
    i-th evaluation of the loop body, and the results of a Runner given the
    history so far ([None] for empty results). *)
Record World := {
  run_stop : nat → bool;
  Runner : list Event → RunnerArgs → option Results;
}.

(** The value [job] returns. *)
Record JobResult := {
  jr_payload : Payload;
  jr_success : bool;
  jr_result : option string;
  jr_summary : option (gmap string (list string));
}.

(** * [Workflow.job] ([workflow.py], lines 111-191) *)

(** ** Local state of one call *)

Record JobState := {
  number_of_runs : gmap string Z;        (* defaultdict(int) *)
  targets : gmap string (gset string);   (* defaultdict(set) *)
  services : list Entry;                 (* the heap *)
  visited : gset Z;                      (* services, by identity *)
  trace : list Event;
}.

Definition initial_state : JobState :=
  {| number_of_runs := ∅; targets := ∅; services := []; visited := ∅;
     trace := [] |}.

(** ** State and exception monad *)

Inductive Res (A : Type) :=
| Ok (a : A) (st : JobState)
| Raise (e : Exn) (st : JobState).
Arguments Ok {A} a st.
Arguments Raise {A} e st.

Definition M (A : Type) : Type := JobState → Res A.

Global Instance M_ret : MRet M := λ A a st, Ok a st.
Global Instance M_bind : MBind M := λ A B k m st,
  match m st with
  | Ok a st' => k a st'
  | Raise e st' => Raise e st'
  end.
Definition raise {A} (e : Exn) : M A := λ st, Raise e st.
Definition get : M JobState := λ st, Ok st st.
Definition modify (f : JobState → JobState) : M unit := λ st, Ok tt (f st).
Definition lift {A} (x : Exn + A) : M A :=
  match x with inl e => raise e | inr a => mret a end.

Fixpoint for_each {A} (l : list A) (body : A → M unit) : M unit :=
  match l with
  | [] => mret tt
  | x :: l' => body x;; for_each l' body
  end.

(** ** Primitive updates *)

(** [targets[key]] and [number_of_runs[key]] on the default dictionaries. *)
Definition targets_get (st : JobState) (key : string) : gset string :=
  default ∅ (targets st !! key).

Definition runs_get (st : JobState) (key : string) : Z :=
  default 0%Z (number_of_runs st !! key).

(** [targets[key] |= devices] *)
Definition targets_union (key : string) (devices : gset string) : M unit :=
  modify (λ st,
    {| number_of_runs := number_of_runs st;
       targets := <[key := targets_get st key ∪ devices]> (targets st);
       services := services st; visited := visited st; trace := trace st |}).

(** [n / d] rounded to the nearest integer, a tie to the even one
    ([0 < d]). *)
Definition round_half_even (n d : Z) : Z :=
  let q := (n / d)%Z in
  let r := (n mod d)%Z in
  if (2 * r <? d)%Z then q
  else if (d <? 2 * r)%Z then (q + 1)%Z
  else if Z.even q then q else (q + 1)%Z.

(** The float [1 / p] of an [int] [p] that is not 0: true division of two
    [int]s is correctly rounded, to the nearest double and to the even
    significand on a tie.  The doubles next to [1 / |p|] are the multiples
    of [2 ^ - shift]: 53 significant bits, and steps of [2 ^ -1074] among
    the subnormal numbers and down to 0.  The result is a fraction in
    lowest terms. *)
Definition float_div (p : Z) : Q :=
  let shift := Z.min 1074 (Z.log2 (Z.abs p) + 53) in
  let significand := round_half_even (2 ^ shift) (Z.abs p) in
  Qred (Qmake (Z.sgn p * significand) (Z.to_pos (2 ^ shift))).

(** [1 / priority] *)
Definition heap_key (p : Z) : Exn + Q :=
  if decide (p = 0%Z) then inl ZeroDivisionError else inr (float_div p).

(** [heappush(services, (1 / service.priority, service))] *)
Definition push_service (service : Service) : M unit :=
  key ← lift (heap_key (priority service));
  modify (λ st,
    {| number_of_runs := number_of_runs st; targets := targets st;
       services := heappush entry_lt (services st) (key, service);
       visited := visited st; trace := trace st |}).

(** [_, service = heappop(services)] *)
Definition pop_service : M Service :=
  st ← get;
  match heappop entry_lt (services st) with
  | None => raise IndexError
  | Some ((_, service), heap') =>
      modify (λ st,
        {| number_of_runs := number_of_runs st; targets := targets st;
           services := heap'; visited := visited st; trace := trace st |});;
      mret service
  end.

(** [number_of_runs[service.name] += 1; visited.add(service)] *)
Definition count_run (service : Service) : M unit :=
  modify (λ st,
    {| number_of_runs :=
         <[name service := (runs_get st (name service) + 1)%Z]>
           (number_of_runs st);
       targets := targets st; services := services st;
       visited := visited st ∪ {[service_id service]}; trace := trace st |}).

Definition emit (ev : Event) : M unit :=
  modify (λ st,
    {| number_of_runs := number_of_runs st; targets := targets st;
       services := services st; visited := visited st;
       trace := trace st ++ [ev] |}).

(** [run.write_state(path, value, mode)] *)
Definition write_state (path : string) (value : StateValue)
    (mode : option string) : M unit :=
  emit (StateWritten path value mode).

(** [summary[edge_type]] *)
Definition summary_get (summary : gmap string (list string))
    (edge_type : string) : Exn + list string :=
  match summary !! edge_type with
  | Some l => inr l
  | None => inl (KeyError edge_type)
  end.

(** ** The body of [job] *)

Inductive Step :=
| Continue                  (* next evaluation of the loop *)
| Return (r : JobResult)    (* [return] inside the loop *)
| Exit                      (* the [while] condition is false *).

Inductive Outcome :=
| Returned (r : JobResult)
| Raised (e : Exn)
| OutOfFuel.

Section job.
Context (w : World) (db : Database) (self : Workflow) (run : Run)
        (device : option Device).

(** Line 122. *)
Definition tracking_bfs : bool :=
  bool_decide (run_method run = "per_service_with_workflow_targets").

(** The test [tracking_bfs or device]. *)
Definition tracks_targets : bool :=
  tracking_bfs || bool_decide (is_Some device).

(** Line 116. *)
Definition start_targets : list Device :=
  match device with
  | Some d => [d]
  | None => target_devices run
  end.

(** [run.start_services or [start.id]] *)
Definition seed_ids (start : Service) : list Z :=
  match start_services run with
  | [] => [service_id start]
  | ids => ids
  end.

(** Lines 117-120. *)
Definition seed (start : Service) : M unit :=
  for_each (seed_ids start)
    (λ i,
       service ← lift (fetch_service_by_id db i);
       targets_union (name service) (list_to_set start_targets);;
       push_service service).

(** Line 131. *)
Definition is_skipped (start end_ service : Service) : bool :=
  service_is service start || service_is service end_
  || default false (skip service !! workflow_name self).

(** Lines 132-138: results synthesized for a skipped service.  The
    "success" entry is the set [targets[service.name]] itself; the loops
    that read it afterwards only ever union it into itself, so a copy is
    indistinguishable. *)
Definition skipped_results (service : Service) (st : JobState) : Results :=
  {| res_success := bool_decide (skip_value service = "success");
     res_result := Some "skipped";
     res_summary :=
       if tracks_targets then
         Some {[ "success" := elements (targets_get st (name service));
                 "failure" := [] ]}
       else None |}.

(** Lines 140-155. *)
Definition runner_kwargs (service : Service)
    (devices : option (list Device)) : RunnerArgs :=
  {| arg_service :=
       if bool_decide (scoped_name service = "Placeholder")
       then placeholder run else Some service;
     arg_workflow := self;
     arg_parent_runtime := parent_runtime run;
     arg_workflow_run_method := run_method run;
     arg_target_devices := devices;
     arg_parent_device := parent_device run |}.

(** Lines 131-156: the results of the popped service. *)
Definition dispatch (start end_ service : Service) : M (option Results) :=
  st ← get;
  if is_skipped start end_ service then
    emit (SkipSynthesized service);;
    mret (Some (skipped_results service st))
  else
    devices ←
      (if tracks_targets then
         ds ← lift (fetch_devices db
                      (elements (targets_get st (name service))));
         mret (Some ds)
       else mret None);
    let kwargs := runner_kwargs service devices in
    emit (RunnerInvoked service kwargs);;
    mret (Runner w (trace st) kwargs).

(** Lines 168-179: one outgoing edge. *)
Definition follow_edge (summary : gmap string (list string))
    (edge_type : string) (hop : option Service * WorkflowEdge) : M unit :=
  let '(successor, edge) := hop in
  successor ←
    match successor with
    | Some s => mret s
    | None => raise (AttributeError
                       (if tracks_targets then "name" else "priority"))
    end;
  (if tracks_targets then
     devices ← lift (summary_get summary edge_type);
     targets_union (name successor) (list_to_set devices)
   else mret tt);;
  push_service successor;;
  if tracks_targets then
    devices ← lift (summary_get summary edge_type);
    write_state ("edges/" +:+ pretty (edge_id edge))
      (VInt (Z.of_nat (length devices))) (Some "increment")
  else
    write_state ("edges/" +:+ pretty (edge_id edge)) (VStr "DONE") None.

(** Lines 163-179: the loop over both edge types. *)
Definition follow_edges (service : Service) (status : string)
    (summary : gmap string (list string)) : M unit :=
  for_each ["success"; "failure"] (λ edge_type,
    if negb tracking_bfs && negb (bool_decide (edge_type = status))
    then mret tt
    else
      empty ←
        (if tracking_bfs then
           devices ← lift (summary_get summary edge_type);
           mret (bool_decide (devices = []))
         else mret false);
      if (empty : bool) then mret tt
      else for_each (neighbors db service self destination edge_type)
                    (follow_edge summary edge_type)).

(** Lines 159-179. *)
Definition propagate (service : Service) (results : Results) : M unit :=
  let status := if res_success results then "success" else "failure" in
  let summary := default ∅ (res_summary results) in
  (if negb tracking_bfs && negb (bool_decide (is_Some device)) then
     write_state ("progress/service/" +:+ status) (VInt 1)
       (Some "increment")
   else mret tt);;
  follow_edges service status summary.

Definition aborted : JobResult :=
  {| jr_payload := payload run; jr_success := false;
     jr_result := Some "Aborted"; jr_summary := None |}.

(** Lines 123-179: the [i]-th evaluation of the [while] loop. *)
Definition iteration (i : nat) (start end_ : Service) : M Step :=
  st ← get;
  match services st with
  | [] => mret Exit
  | _ :: _ =>
      if run_stop w i then mret (Return aborted)
      else
        service ← pop_service;
        st ← get;
        if bool_decide (maximum_runs service ≤ runs_get st (name service))%Z
        then mret Continue
        else
          count_run service;;
          results ← dispatch start end_ service;
          match results with
          | None => mret Continue
          | Some results => propagate service results;; mret Continue
          end
  end.

(** Lines 180-191.  [list(s)] of a set is [elements s]; the order Python
    iterates a set in is not specified. *)
Definition final_results (start end_ : Service) (st : JobState)
  : JobResult :=
  if tracks_targets then
    let failed :=
      elements (targets_get st (name start) ∖ targets_get st (name end_)) in
    {| jr_payload := payload run;
       jr_success := bool_decide (failed = []);
       jr_result := None;
       jr_summary :=
         Some {[ "success" := elements (targets_get st (name end_));
                 "failure" := failed ]} |}
  else
    {| jr_payload := payload run;
       jr_success := bool_decide (service_id end_ ∈ visited st);
       jr_result := None;
       jr_summary := None |}.

Fixpoint job_loop (fuel i : nat) (start end_ : Service) (st : JobState)
  : Outcome * JobState :=
  match fuel with
  | O => (OutOfFuel, st)
  | S fuel' =>
      match iteration i start end_ st with
      | Raise e st' => (Raised e, st')
      | Ok Continue st' => job_loop fuel' (S i) start end_ st'
      | Ok (Return r) st' => (Returned r, st')
      | Ok Exit st' => (Returned (final_results start end_ st'), st')
      end
  end.

(** Lines 112-121: fetch [Start] and [End], seed the heap. *)
Definition prologue : M (Service * Service) :=
  start ← lift (fetch_service_by_scoped_name db "Start");
  end_ ← lift (fetch_service_by_scoped_name db "End");
  seed start;;
  mret (start, end_).

Definition job (fuel : nat) : Outcome * JobState :=
  match prologue initial_state with
  | Raise e st => (Raised e, st)
  | Ok (start, end_) st => job_loop fuel 0 start end_ st
  end.
End job.

(** * The scheduler client: [Task] ([eNMS/models/automation.py], 453-551) *)

(** ** Python values exchanged with the scheduler *)

#[local] Unset Elimination Schemes.
Inductive Json :=
| JNull
| JBool (b : bool)
| JNum (n : Z)
| JStr (s : string)
| JList (l : list Json)
| JDict (d : list (string * Json)).
#[local] Set Elimination Schemes.

(** ** Exceptions of the [requests] calls

    Every class below derives from [Exception].  [subclass_of] is the
    inheritance relation of [requests.exceptions]: connect timeouts, proxy
    and SSL errors are [ConnectionError]s; a read timeout is not. *)

Inductive ExnClass :=
| ConnectionError
| ConnectTimeout
| ProxyError
| SSLError
| ReadTimeout
| MissingSchema
| JSONDecodeError
| AttributeError_
| OtherException.

Global Instance ExnClass_eq_dec : EqDecision ExnClass.
Proof. solve_decision. Defined.

Definition subclass_of (c parent : ExnClass) : bool :=
  bool_decide (c = parent)
  || match parent, c with
     | ConnectionError, (ConnectTimeout | ProxyError | SSLError) => true
     | _, _ => false
     end.

Record PyExn := {
  exn_class : ExnClass;
  exn_str : string;           (* str(exc) *)
}.

(** [except (c1, ..., cn)] matches an instance of a subclass of some [ci]. *)
Definition caught_by (exc : PyExn) (classes : list ExnClass) : bool :=
  existsb (subclass_of (exn_class exc)) classes.

(** The HTTP side: [get(url, timeout=...).json()] and
    [post(url, json=payload).json()] either raise or give the decoded
    body. *)
Record Http := {
  http_get : string → PyExn + Json;
  http_post : string → option Json → PyExn + Json;
}.

Record SchedulerEnv := {
  scheduler_address : option string;   (* getenv("SCHEDULER_ADDR") *)
  http : Http;
  current_user_name : PyExn + string;  (* current_user.name *)
}.

Record Task := {
  task_id : Z;
  is_active : Json;
  last_scheduled_by : option string;
  task_properties : PyExn + Json;      (* self.get_properties() *)
}.

(** [f"{env.scheduler_address}"] *)
Definition address_str (env : SchedulerEnv) : string :=
  default "None" (scheduler_address env).

(** ** [Task._catch_request_exceptions] (lines 518-528)

    The decorated function runs on the task and may update it before it
    returns or raises. *)
Definition catch_request_exceptions
    (func : Task → (PyExn + Json) * Task) (self : Task) : Json * Task :=
  match func self with
  | (inr value, self') => (value, self')
  | (inl exc, self') =>
      if caught_by exc [ConnectionError; MissingSchema; ReadTimeout]
      then (JStr "Scheduler Unreachable", self')
      else (JStr ("Error (" +:+ exn_str exc +:+ ")"), self')
  end.

(** Lines 530-535. *)
Definition next_run_time (env : SchedulerEnv) : Task → Json * Task :=
  catch_request_exceptions (λ self,
    (http_get (http env)
       (address_str env +:+ "/next_runtime/" +:+ pretty (task_id self)),
     self)).

(** Lines 537-540. *)
Definition time_before_next_run (env : SchedulerEnv) : Task → Json * Task :=
  catch_request_exceptions (λ self,
    (http_get (http env)
       (address_str env +:+ "/time_left/" +:+ pretty (task_id self)),
     self)).

(** [result.get("active", False)] *)
Definition dict_get (result : Json) (key : string) (dflt : Json)
  : PyExn + Json :=
  match result with
  | JDict d =>
      inr (default dflt (snd <$> List.find (λ kv, bool_decide (kv.1 = key)) d))
  | _ => inl {| exn_class := AttributeError_;
                exn_str := "object has no attribute 'get'" |}
  end.

(** The body of [Task.schedule] (lines 543-551), before decoration. *)
Definition schedule_body (env : SchedulerEnv) (mode : string) (self : Task)
  : (PyExn + Json) * Task :=
  let attempt : (PyExn + Json) * Task :=
    match task_properties self with
    | inl exc => (inl exc, self)
    | inr props =>
        let payload_ := JDict [("mode", JStr mode); ("task", props)] in
        match http_post (http env) (address_str env +:+ "/schedule")
                (Some payload_) with
        | inl exc => (inl exc, self)
        | inr result =>
            match current_user_name env with
            | inl exc => (inl exc, self)
            | inr user =>
                (inr result,
                 {| task_id := task_id self; is_active := is_active self;
                    last_scheduled_by := Some user;
                    task_properties := task_properties self |})
            end
        end
    end in
  match attempt with
  | (inl exc, self') =>
      if caught_by exc [ConnectionError] then
        (inr (JDict [("alert",
                JStr "Scheduler Unreachable: the task cannot be scheduled.")]),
         self')
      else (inl exc, self')
  | (inr result, self') =>
      match dict_get result "active" (JBool false) with
      | inl exc => (inl exc, self')
      | inr active =>
          (inr result,
           {| task_id := task_id self'; is_active := active;
              last_scheduled_by := last_scheduled_by self';
              task_properties := task_properties self' |})
      end
  end.

Definition schedule (env : SchedulerEnv) (mode : string)
  : Task → Json * Task :=
  catch_request_exceptions (schedule_body env mode).

(** [Task.delete] (lines 489-490) is not decorated. *)
Definition delete (env : SchedulerEnv) (self : Task) : PyExn + unit :=
  match http_post (http env)
          (address_str env +:+ "/delete_job/" +:+ pretty (task_id self))
          None with
  | inl exc => inl exc
  | inr _ => inr tt
  end.

(** * Stored secrets: [Environment] ([eNMS/environment.py], 62-72, 95-101) *)

(** ** Python values seen by the password functions

    A [str] is its sequence of code points, [bytes] its sequence of byte
    values. *)

Inductive PyValue :=
| PyNone
| PyStr (s : list Z)
| PyBytes (b : list Z).

Inductive EnvExn :=
| UnicodeEncodeError
| UnicodeDecodeError
| BinasciiError
| InvalidToken
| TypeError
| ValueError.

(** ** UTF-8 ([str.encode], [str(b, "utf-8")]) *)

Definition utf8_encode_char (c : Z) : EnvExn + list Z :=
  if (c <? 0)%Z then inl UnicodeEncodeError
  else if (c <? 0x80)%Z then inr [c]
  else if (c <? 0x800)%Z then
    inr [Z.lor 0xC0 (Z.shiftr c 6); Z.lor 0x80 (Z.land c 0x3F)]
  else if ((0xD800 <=? c) && (c <=? 0xDFFF))%Z then inl UnicodeEncodeError
  else if (c <? 0x10000)%Z then
    inr [Z.lor 0xE0 (Z.shiftr c 12);
         Z.lor 0x80 (Z.land (Z.shiftr c 6) 0x3F);
         Z.lor 0x80 (Z.land c 0x3F)]
  else if (c <=? 0x10FFFF)%Z then
    inr [Z.lor 0xF0 (Z.shiftr c 18);
         Z.lor 0x80 (Z.land (Z.shiftr c 12) 0x3F);
         Z.lor 0x80 (Z.land (Z.shiftr c 6) 0x3F);
         Z.lor 0x80 (Z.land c 0x3F)]
  else inl UnicodeEncodeError.

Fixpoint str_encode (s : list Z) : EnvExn + list Z :=
  match s with
  | [] => inr []
  | c :: s' =>
      match utf8_encode_char c, str_encode s' with
      | inr bs, inr rest => inr (bs ++ rest)
      | inl e, _ => inl e
      | _, inl e => inl e
      end
  end.

(** A continuation byte [10xxxxxx]. *)
Definition is_continuation (b : Z) : bool := (Z.land b 0xC0 =? 0x80)%Z.

Definition continuation_bits (b : Z) : Z := Z.land b 0x3F.

(** Strict decoding: overlong forms, surrogates and code points above
    U+10FFFF are refused. *)
Fixpoint bytes_decode (b : list Z) : EnvExn + list Z :=
  match b with
  | [] => inr []
  | b0 :: rest0 =>
      if (Z.land b0 0x80 =? 0)%Z then
        match bytes_decode rest0 with
        | inr s => inr (b0 :: s)
        | inl e => inl e
        end
      else if (Z.land b0 0xE0 =? 0xC0)%Z then
        match rest0 with
        | b1 :: rest1 =>
            let c := Z.lor (Z.shiftl (Z.land b0 0x1F) 6)
                           (continuation_bits b1) in
            if is_continuation b1 && (0x80 <=? c)%Z then
              match bytes_decode rest1 with
              | inr s => inr (c :: s)
              | inl e => inl e
              end
            else inl UnicodeDecodeError
        | _ => inl UnicodeDecodeError
        end
      else if (Z.land b0 0xF0 =? 0xE0)%Z then
        match rest0 with
        | b1 :: b2 :: rest2 =>
            let c := Z.lor (Z.shiftl (Z.land b0 0x0F) 12)
                       (Z.lor (Z.shiftl (continuation_bits b1) 6)
                              (continuation_bits b2)) in
            if is_continuation b1 && is_continuation b2
               && (0x800 <=? c)%Z
               && negb ((0xD800 <=? c) && (c <=? 0xDFFF))%Z then
              match bytes_decode rest2 with
              | inr s => inr (c :: s)
              | inl e => inl e
              end
            else inl UnicodeDecodeError
        | _ => inl UnicodeDecodeError
        end
      else if (Z.land b0 0xF8 =? 0xF0)%Z then
        match rest0 with
        | b1 :: b2 :: b3 :: rest3 =>
            let c := Z.lor (Z.shiftl (Z.land b0 0x07) 18)
                       (Z.lor (Z.shiftl (continuation_bits b1) 12)
                          (Z.lor (Z.shiftl (continuation_bits b2) 6)
                                 (continuation_bits b3))) in
            if is_continuation b1 && is_continuation b2
               && is_continuation b3
               && (0x10000 <=? c)%Z && (c <=? 0x10FFFF)%Z then
              match bytes_decode rest3 with
              | inr s => inr (c :: s)
              | inl e => inl e
              end
            else inl UnicodeDecodeError
        | _ => inl UnicodeDecodeError
        end
      else inl UnicodeDecodeError
  end.

(** ** Base64 ([base64.b64encode], [base64.b64decode]) *)

Definition b64_alphabet : list Z :=
  (λ a, Z.of_N (Ascii.N_of_ascii a)) <$>
  String.list_ascii_of_string
    "ABCDEFGHIJKLMNOPQRSTUVWXYZabcdefghijklmnopqrstuvwxyz0123456789+/".

Definition BASE64_PAD : Z := 61.   (* '=' *)

Definition table_b2a (i : Z) : Z := nth (Z.to_nat i) b64_alphabet 0%Z.

Definition table_a2b (ch : Z) : option Z :=
  (λ p, Z.of_nat p.1) <$> list_find (λ x, x = ch) b64_alphabet.

Fixpoint b64encode (s : list Z) : list Z :=
  match s with
  | [] => []
  | [a] =>
      [table_b2a (Z.shiftr a 2);
       table_b2a (Z.shiftl (Z.land a 3) 4);
       BASE64_PAD; BASE64_PAD]
  | [a; b] =>
      [table_b2a (Z.shiftr a 2);
       table_b2a (Z.lor (Z.shiftl (Z.land a 3) 4) (Z.shiftr b 4));
       table_b2a (Z.shiftl (Z.land b 0xF) 2);
       BASE64_PAD]
  | a :: b :: c :: rest =>
      [table_b2a (Z.shiftr a 2);
       table_b2a (Z.lor (Z.shiftl (Z.land a 3) 4) (Z.shiftr b 4));
       table_b2a (Z.lor (Z.shiftl (Z.land b 0xF) 2) (Z.shiftr c 6));
       table_b2a (Z.land c 0x3F)]
      ++ b64encode rest
  end.

(** The decoder of [binascii.a2b_base64] in its default, lenient mode:
    characters outside the alphabet are skipped, a complete pad sequence
    ends the input, and leftover characters are an error. *)
Record A2B := {
  quad_pos : nat;
  leftchar : Z;
  pads : nat;
  bin_data : list Z;
}.

Fixpoint a2b_loop (ascii_data : list Z) (st : A2B) : EnvExn + list Z :=
  match ascii_data with
  | [] =>
      if decide (quad_pos st = 0) then inr (bin_data st)
      else inl BinasciiError
  | this_ch :: rest =>
      if decide (this_ch = BASE64_PAD) then
        if decide (2 ≤ quad_pos st) then
          if decide (4 ≤ quad_pos st + S (pads st)) then inr (bin_data st)
          else a2b_loop rest
                 {| quad_pos := quad_pos st; leftchar := leftchar st;
                    pads := S (pads st); bin_data := bin_data st |}
        else a2b_loop rest st
      else
        match table_a2b this_ch with
        | None => a2b_loop rest st
        | Some v =>
            match quad_pos st with
            | 0 => a2b_loop rest
                     {| quad_pos := 1; leftchar := v; pads := 0;
                        bin_data := bin_data st |}
            | 1 => a2b_loop rest
                     {| quad_pos := 2; leftchar := Z.land v 0x0F; pads := 0;
                        bin_data :=
                          bin_data st
                          ++ [Z.lor (Z.shiftl (leftchar st) 2)
                                    (Z.shiftr v 4)] |}
            | 2 => a2b_loop rest
                     {| quad_pos := 3; leftchar := Z.land v 0x03; pads := 0;
                        bin_data :=
                          bin_data st
                          ++ [Z.lor (Z.shiftl (leftchar st) 4)
                                    (Z.shiftr v 2)] |}
            | _ => a2b_loop rest
                     {| quad_pos := 0; leftchar := 0; pads := 0;
                        bin_data :=
                          bin_data st
                          ++ [Z.lor (Z.shiftl (leftchar st) 6) v] |}
            end
        end
  end.

Definition a2b_base64 (ascii_data : list Z) : EnvExn + list Z :=
  a2b_loop ascii_data
    {| quad_pos := 0; leftchar := 0; pads := 0; bin_data := [] |}.

(** [b64encode] wants bytes; [b64decode] also takes an ASCII [str]. *)
Definition base64_b64encode (s : PyValue) : EnvExn + list Z :=
  match s with
  | PyBytes b => inr (b64encode b)
  | _ => inl TypeError
  end.

Definition base64_b64decode (s : PyValue) : EnvExn + list Z :=
  match s with
  | PyBytes b => a2b_base64 b
  | PyStr cs =>
      if forallb (λ c, (c <? 0x80)%Z) cs then a2b_base64 cs
      else inl ValueError
  | PyNone => inl TypeError
  end.

(** ** Fernet

    [cryptography.fernet] is an external library: a key gives a pair of
    functions, or is refused.  Encryption draws a timestamp and an
    initialisation vector, passed here as [entropy]. *)
Record FernetObj := {
  fernet_encrypt : list Z → list Z → list Z;   (* entropy, data *)
  fernet_decrypt : list Z → option (list Z);
}.

(** ** The environment *)

Record Environment := {
  fernet_encryption : option string;
  encrypt : list Z → PyValue → EnvExn + list Z;
  decrypt : PyValue → EnvExn + list Z;
}.

Section Environment.
Context (Fernet : string → option FernetObj).

(** Lines 95-101; the argument is [getenv("FERNET_KEY")]. *)
Definition init_encryption (FERNET_KEY : option string)
  : EnvExn + Environment :=
  match FERNET_KEY with
  | Some (String _ _ as key) =>
      match Fernet key with
      | None => inl ValueError
      | Some fernet =>
          inr {| fernet_encryption := FERNET_KEY;
                 encrypt := λ entropy data,
                   match data with
                   | PyBytes b => inr (fernet_encrypt fernet entropy b)
                   | _ => inl TypeError
                   end;
                 decrypt := λ token,
                   match token with
                   | PyBytes b =>
                       match fernet_decrypt fernet b with
                       | Some data => inr data
                       | None => inl InvalidToken
                       end
                   | PyStr cs =>
                       match str_encode cs with
                       | inr b =>
                           match fernet_decrypt fernet b with
                           | Some data => inr data
                           | None => inl InvalidToken
                           end
                       | inl _ => inl InvalidToken
                       end
                   | PyNone => inl TypeError
                   end |}
      end
  | _ =>
      inr {| fernet_encryption := FERNET_KEY;
             encrypt := λ _ data, base64_b64encode data;
             decrypt := base64_b64decode |}
  end.
End Environment.

Definition fernet_enabled (self : Environment) : bool :=
  match fernet_encryption self with
  | Some (String _ _) => true
  | _ => false
  end.

(** Lines 62-65. *)
Definition encrypt_password (self : Environment) (entropy : list Z)
    (password : PyValue) : EnvExn + list Z :=
  match password with
  | PyStr s =>
      match str_encode s with
      | inr b => encrypt self entropy (PyBytes b)
      | inl e => inl e
      end
  | _ => encrypt self entropy password
  end.

(** [not password] *)
Definition falsy (v : PyValue) : bool :=
  match v with
  | PyNone | PyStr [] | PyBytes [] => true
  | _ => false
  end.

(** Lines 67-72. *)
Definition get_password (self : Environment) (password : PyValue)
  : EnvExn + PyValue :=
  if falsy password then inr PyNone
  else
    let encoded : EnvExn + PyValue :=
      match password with
      | PyStr s =>
          if fernet_enabled self then
            match str_encode s with
            | inr b => inr (PyBytes b)
            | inl e => inl e
            end
          else inr password
      | _ => inr password
      end in
    match encoded with
    | inl e => inl e
    | inr password =>
        match decrypt self password with
        | inl e => inl e
        | inr plain =>
            match bytes_decode plain with
            | inl e => inl e
            | inr s => inr (PyStr s)
            end
        end
    end.

(** * Private properties: [AbstractBase.__setattr__]
      ([eNMS/models/base.py], lines 30-37)

    An instance is its attribute dictionary.  [vs.private_properties_set]
    (eNMS/variables.py) is a constant set of property names; it is a
    parameter here. *)

Definition Instance_ : Type := gmap string PyValue.

(** [bytes.decode("utf-8")] *)
Definition to_str (token : list Z) : EnvExn + PyValue :=
  match bytes_decode token with
  | inl e => inl e
  | inr s => inr (PyStr s)
  end.

Definition AbstractBase_setattr (private_properties_set : gset string)
    (env : Environment) (entropy : list Z)
    (self : Instance_) (property : string) (value : PyValue)
  : EnvExn + Instance_ :=
  if decide (property ∈ private_properties_set) then
    if falsy value then inr self
    else
      match encrypt_password env entropy value with
      | inl e => inl e
      | inr token =>
          match to_str token with
          | inl e => inl e
          | inr stored => inr (<[property := stored]> self)
          end
      end
  else inr (<[property := value]> self).

(** Bytes that are ASCII characters. *)
Definition is_ascii (b : Z) : Prop := (0 ≤ b < 0x80)%Z.

(** * Naming a copy: [Service.duplicate]
      ([eNMS/models/automation.py], lines 141-157)

    The loop looks for the first index whose name is free.
    [db.fetch("service", allow_none=True, name=name)] gives the row of that
    name, or [None]. *)

(** [f" ({index})" if index else ""] *)
Definition duplicate_number (index : nat) : string :=
  match index with
  | O => ""
  | S _ => " (" +:+ pretty index +:+ ")"
  end.

(** [f"{self.scoped_name}{number}"] *)
Definition duplicate_scoped_name (self : Service) (index : nat) : string :=
  scoped_name self +:+ duplicate_number index.

(** [f"[{workflow.name}] {scoped_name}" if workflow else scoped_name] *)
Definition duplicate_name (self : Service) (workflow : option Workflow)
    (index : nat) : string :=
  match workflow with
  | Some workflow =>
      "[" +:+ workflow_name workflow +:+ "] "
      +:+ duplicate_scoped_name self index
  | None => duplicate_scoped_name self index
  end.

(** [db.fetch("service", allow_none=True, name=name)] is truthy. *)
Definition name_taken (db : Database) (n : string) : bool :=
  bool_decide (n ∈ (name <$> db_services db)).

(** The [while True] loop from [index]; [None] when the fuel runs out.
    The result is the index at the [break], with the [name] and the
    [scoped_name] handed to the copy. *)
Fixpoint duplicate_search (db : Database) (self : Service)
    (workflow : option Workflow) (fuel index : nat)
  : option (nat * string * string) :=
  match fuel with
  | O => None
  | S fuel' =>
      if name_taken db (duplicate_name self workflow index)
      then duplicate_search db self workflow fuel' (S index)
      else Some (index, duplicate_name self workflow index,
                 duplicate_scoped_name self index)
  end.

(** * Pool membership: the tail of [AbstractBase.update]
      ([eNMS/models/base.py], lines 66-74)

    Instances are identified by their id.  [pool_members] is the
    relationship list [getattr(pool, f"{self.class_type}s")].
    [Pool.match_instance] (eNMS/models/inventory.py) is called once per
    pool; it is a parameter here. *)

Record Pool := {
  pool_id : Z;
  manually_defined : bool;
  pool_members : list Z;
}.

(** [list.remove(x)]: the first occurrence goes. *)
Fixpoint list_remove (x : Z) (l : list Z) : list Z :=
  match l with
  | [] => []
  | y :: l' => if decide (y = x) then l' else y :: list_remove x l'
  end.

(** One round of the loop over the pools. *)
Definition update_pool (match_instance : Pool → bool) (self : Z)
    (pool : Pool) : Pool :=
  if manually_defined pool then pool
  else
    let matched := match_instance pool in
    let appended :=
      if matched && negb (bool_decide (self ∈ pool_members pool))
      then pool_members pool ++ [self]
      else pool_members pool in
    let removed :=
      if bool_decide (self ∈ appended) && negb matched
      then list_remove self appended
      else appended in
    {| pool_id := pool_id pool; manually_defined := false;
       pool_members := removed |}.

(** Lines 66-74; [pools] is [db.fetch_all("pool", rbac=None)]. *)
Definition update_pools (update_pools_ pool_model : bool)
    (match_instance : Pool → bool) (self : Z) (pools : list Pool)
  : list Pool :=
  if negb update_pools_ || negb pool_model then pools
  else update_pool match_instance self <$> pools.

(** * Serialisation: [AbstractBase.get_properties]
      ([eNMS/models/base.py], lines 79-108, 121-128)

    An attribute is a plain Python value or one of SQLAlchemy's tracked
    collections, which [get_properties] copies into a [list] or a [dict]
    on export.  An instance is its attribute dictionary; a name it does
    not hold makes [getattr] raise [AttributeError].  The result is a
    dictionary; the order of its keys is not modelled. *)

Inductive Attribute :=
| Plain (v : Json)
| MutableList (items : list Json)
| MutableDict (items : list (string * Json)).

Definition Object_ : Type := gmap string Attribute.

(** The tables [get_properties] consults, for the type of [self]. *)
Record Schema := {
  (* list(vs.model_properties[self.type]) *)
  schema_properties : list string;
  (* vs.private_properties_set *)
  schema_private : gset string;
  (* db.dont_serialize.get(self.type, []) *)
  schema_dont_serialize : list string;
  (* db.dont_migrate.get(getattr(self, "export_type", self.type), {}) *)
  schema_no_migrate : list string;
  (* getattr(self, "model_properties", {}) *)
  schema_class_properties : list string;
}.

(** The options of a call. *)
Record Options := {
  export : bool;
  exclude : option (list string);
  include : option (list string);
  private_properties : bool;
}.

(** [get_properties()] *)
Definition default_options : Options :=
  {| export := false; exclude := None; include := None;
     private_properties := false |}.

(** Truth value of an optional list: [None] and [[]] are false. *)
Definition truthy (l : option (list string)) : bool :=
  match l with
  | Some (_ :: _) => true
  | _ => false
  end.

(** Lines 100-106: the copies made on export. *)
Definition export_value (value : Attribute) : Attribute :=
  let value :=
    match value with
    | MutableList items => Plain (JList items)
    | _ => value
    end in
  match value with
  | MutableDict items => Plain (JDict items)
  | _ => value
  end.

Definition is_None (value : Attribute) : bool :=
  match value with
  | Plain JNull => true
  | _ => false
  end.

(** The body of the loop, lines 86-107: [None] stands for [continue],
    [Some value] for the assignment [result[property] = value]. *)
Definition get_property (schema : Schema) (self : Object_) (opt : Options)
    (property : string) : option Attribute :=
  if negb (private_properties opt)
     && bool_decide (property ∈ schema_private schema) then None
  else if bool_decide (property ∈ schema_dont_serialize schema) then None
  else if export opt
          && bool_decide (property ∈ schema_class_properties schema)
  then None
  else if truthy (include opt)
          && negb (bool_decide (property ∈ default [] (include opt)))
          || truthy (exclude opt)
             && bool_decide (property ∈ default [] (exclude opt))
  then None
  else if export opt && bool_decide (property ∈ schema_no_migrate schema)
  then None
  else
    match self !! property with
    | None => None                       (* except AttributeError *)
    | Some value =>
        if export opt then
          let value := export_value value in
          if is_None value then None else Some value
        else Some value
    end.

Definition get_properties (schema : Schema) (self : Object_) (opt : Options)
  : gmap string Attribute :=
  foldl (λ result property,
           match get_property schema self opt property with
           | Some value => <[property := value]> result
           | None => result
           end)
        ∅ (schema_properties schema).

(** Lines 122-127 of [AbstractBase.duplicate]: the keyword arguments handed
    to [db.factory(self.type, ...)], [{**properties, **kwargs}]. *)
Definition duplicate_kwargs (schema : Schema) (self : Object_)
    (kwargs : gmap string Attribute) : gmap string Attribute :=
  let properties :=
    filter (λ kv, kv.1 ∉ ["id"; "name"])
           (get_properties schema self default_options) in
  kwargs ∪ properties.

(** * Serialisation with relationships: [AbstractBase.to_dict]
      ([eNMS/models/base.py], lines 130-163)

    A related object is an instance with the tables of its own type.  A
    relationship holds a list of objects or, when it is not a list, one
    object or [None]; [relations] pairs the names of
    [vs.relationships[self.type]] with the values [getattr] finds under
    them.  [None] stands for the [AttributeError] of an object without a
    [name]. *)

Record Instance := {
  instance_schema : Schema;
  instance_attributes : Object_;
}.

Inductive Relation :=
| ToMany (objs : list Instance)
| ToOne (obj : option Instance).

(** What stands for a related object: its name, or its properties. *)
Inductive Item :=
| ItemName (name : Attribute)
| ItemProperties (properties : gmap string Attribute).

Inductive Serialized :=
| Scalar (value : Attribute)
| One (item : Item)
| Many (items : list Item).

(** [obj.name if export or relation_names_only
     else obj.get_properties(exclude=exclude)] *)
Definition serialize_related (names_only : bool)
    (exclude_ : option (list string)) (obj : Instance) : option Item :=
  if names_only then ItemName <$> instance_attributes obj !! "name"
  else
    Some (ItemProperties
            (get_properties (instance_schema obj) (instance_attributes obj)
               {| export := false; exclude := exclude_; include := None;
                  private_properties := false |})).

(** Lines 143-162: one relationship. *)
Definition to_dict_relation (schema : Schema) (opt : Options)
    (relation_names_only : bool)
    (properties : gmap string Serialized) (property : string)
    (value : Relation) : option (gmap string Serialized) :=
  if truthy (include opt)
     && negb (bool_decide (property ∈ default [] (include opt)))
     || truthy (exclude opt)
        && bool_decide (property ∈ default [] (exclude opt))
  then Some properties
  else if export opt && bool_decide (property ∈ schema_no_migrate schema)
  then Some properties
  else
    let names_only := export opt || relation_names_only in
    match value with
    | ToMany objs =>
        match mapM (serialize_related names_only (exclude opt)) objs with
        | Some items => Some (<[property := Many items]> properties)
        | None => None
        end
    | ToOne None => Some properties
    | ToOne (Some obj) =>
        match serialize_related names_only (exclude opt) obj with
        | Some item => Some (<[property := One item]> properties)
        | None => None
        end
    end.

(** The options [to_dict] passes on to [get_properties]: [include] is not
    among them. *)
Definition to_dict_options (opt : Options) : Options :=
  {| export := export opt; exclude := exclude opt; include := None;
     private_properties := private_properties opt |}.

Definition to_dict (schema : Schema) (self : Object_)
    (relations : list (string * Relation)) (opt : Options)
    (relation_names_only : bool) : option (gmap string Serialized) :=
  foldl (λ acc relation,
           match acc with
           | Some properties =>
               to_dict_relation schema opt relation_names_only properties
                 relation.1 relation.2
           | None => None
           end)
        (Some (Scalar <$> get_properties schema self (to_dict_options opt)))
        relations.

(** The objects of a relationship. *)
Definition related (value : Relation) : list Instance :=
  match value with
  | ToMany objs => objs
  | ToOne (Some obj) => [obj]
  | ToOne None => []
  end.

Definition is_scalar (value : Serialized) : bool :=
  match value with
  | Scalar _ => true
  | _ => false
  end.

(** * The state of a run: [Run.get_state]
      ([eNMS/models/automation.py], lines 394-412)

    The state is a tree of dictionaries, a [Json] value whose dictionaries
    keep their keys in insertion order.  With the Redis queue the tree is
    rebuilt from the flat keys [<runtime>/state/<k1>/.../<kn>]. *)

Inductive StateExn :=
| State_AttributeError          (* [setdefault] of a value that is no dict *)
| State_TypeError               (* item assignment to a [str]; [zip] of None *)
| State_ValueError.             (* nothing to unpack *)

(** [d[key]], when there is one. *)
Definition item_get (d : list (string * Json)) (key : string)
  : option Json :=
  snd <$> List.find (λ kv, bool_decide (kv.1 = key)) d.

(** [d[key] = value]: an existing key keeps its place. *)
Fixpoint item_set (d : list (string * Json)) (key : string) (value : Json)
  : list (string * Json) :=
  match d with
  | [] => [(key, value)]
  | kv :: d' =>
      if decide (kv.1 = key) then (kv.1, value) :: d'
      else kv :: item_set d' key value
  end.

(** [str.split(sep)] for a separator of one character. *)
Fixpoint str_split (sep : Ascii.ascii) (s : string) : list string :=
  match s with
  | EmptyString => [EmptyString]
  | String c s' =>
      if decide (c = sep) then EmptyString :: str_split sep s'
      else match str_split sep s' with
           | [] => [String c EmptyString]
           | word :: words => String c word :: words
           end
  end.

(** The character [/]. *)
Definition slash : Ascii.ascii := Ascii.ascii_of_nat 47.

(** [log.split("/")[2:]] *)
Definition state_path (log : string) : list string :=
  drop 2 (str_split slash log).

(** The unpacking into [path], all but the last component, and
    [last_key]. *)
Definition unpack_last (components : list string)
  : StateExn + list string * string :=
  match list.last components with
  | None => inl State_ValueError
  | Some last_key => inr (removelast components, last_key)
  end.

(** Lines 405-406: a Redis value is a [str], or [None] for a key that has
    gone. *)
Definition state_value (value : option string) : Json :=
  match value with
  | None => JNull
  | Some s =>
      if bool_decide (s ∈ ["False"; "True"])
      then JBool (bool_decide (s = "True"))
      else JStr s
  end.

(** Lines 402-407 for one key: the walk down [path] by [setdefault], then
    the assignment of [value] under [last_key].  The dictionaries on the way
    are shared with [state]; the result is what [inner_store] has become. *)
Fixpoint store_at (path : list string) (last_key : string) (value : Json)
    (inner_store : Json) : StateExn + Json :=
  match path with
  | [] =>
      match inner_store with
      | JDict d => inr (JDict (item_set d last_key value))
      | _ => inl State_TypeError
      end
  | key :: path' =>
      match inner_store with
      | JDict d =>
          let inner := default (JDict []) (item_get d key) in
          match store_at path' last_key value inner with
          | inr inner' => inr (JDict (item_set d key inner'))
          | inl e => inl e
          end
      | _ => inl State_AttributeError
      end
  end.

(** The loop of lines 400-407. *)
Fixpoint assemble (data : list (string * option string)) (state : Json)
  : StateExn + Json :=
  match data with
  | [] => inr state
  | (log, value) :: data' =>
      match unpack_last (state_path log) with
      | inl e => inl e
      | inr (path, last_key) =>
          match store_at path last_key (state_value value) state with
          | inl e => inl e
          | inr state' => assemble data' state'
          end
      end
  end.

(** What [env.redis] answers; [None] when the queue is unreachable. *)
Record RedisQueue := {
  redis_keys : string → option (list string);
  redis_mget : list string → option (list (option string));
}.

(** [if self.state]: [None] and the empty dictionary are false. *)
Definition state_truthy (state : Json) : bool :=
  match state with
  | JDict (_ :: _) => true
  | _ => false
  end.

(** [run_states] is [vs.run_states[self.runtime]] (eNMS/variables.py),
    as it evaluates. *)
Definition get_state (self_state : Json) (self_runtime : string)
    (redis_queue : option RedisQueue) (run_states : StateExn + Json)
  : StateExn + Json :=
  if state_truthy self_state then inr self_state
  else
    match redis_queue with
    | Some redis =>
        match redis_keys redis (self_runtime +:+ "/state/*") with
        | None | Some [] => inr (JDict [])
        | Some keys =>
            match redis_mget redis keys with
            | None => inl State_TypeError
            | Some values => assemble (zip keys values) (JDict [])
            end
        end
    | None => run_states
    end.

(** [state[k1]...[kn]], when every step is a key of a dictionary. *)
Fixpoint get_path (store : Json) (path : list string) : option Json :=
  match path with
  | [] => Some store
  | key :: path' =>
      match store with
      | JDict d =>
          match item_get d key with
          | Some inner => get_path inner path'
          | None => None
          end
      | _ => None
      end
  end.

Definition is_dict (value : Json) : bool :=
  match value with
  | JDict _ => true
  | _ => false
  end.

(** * Workflows within workflows: [Service.update_originals] and
      [Workflow.deep_services]
      ([eNMS/models/automation.py], lines 135-139;
       [eNMS/services/workflow/workflow.py], lines 99-105)

    [Service.workflows] and [Workflow.services] are the two sides of one
    association table, [db.service_workflow_table]: a row [(s, w)] says
    that the service [s] belongs to the workflow [w].  Rows are ids.  Both
    functions are recursive; [depth] bounds the nesting of the calls, and
    [None] is the [RecursionError] of a call nested deeper. *)

Record Containment := {
  service_workflow_table : list (Z * Z);
  type_of : Z → string;                  (* service.type *)
}.

(** [service.workflows] *)
Definition workflows_of (c : Containment) (service : Z) : list Z :=
  snd <$> filter (λ row, row.1 = service) (service_workflow_table c).

(** [workflow.services] *)
Definition services_of (c : Containment) (workflow : Z) : list Z :=
  fst <$> filter (λ row, row.2 = workflow) (service_workflow_table c).

(** [rec] of [update_originals]; [self.originals] is [list(rec(self))]. *)
Fixpoint rec (c : Containment) (depth : nat) (service : Z)
  : option (gset Z) :=
  match depth with
  | O => None
  | S depth' =>
      match mapM (rec c depth') (workflows_of c service) with
      | Some above => Some ({[service]} ∪ ⋃ above)
      | None => None
      end
  end.

Fixpoint deep_services (c : Containment) (depth : nat) (self : Z)
  : option (list Z) :=
  match depth with
  | O => None
  | S depth' =>
      match mapM (λ service,
                    if decide (type_of c service = "workflow")
                    then deep_services c depth' service
                    else Some [service])
                 (services_of c self) with
      | Some services => Some (self :: concat services)
      | None => None
      end
  end.

(** [s] is a service of the workflow [w]. *)
Definition belongs_to (c : Containment) (s w : Z) : Prop :=
  (s, w) ∈ service_workflow_table c.

(** * The log queue: [Environment.log_queue]
      ([eNMS/environment.py], lines 144-165)

    With [REDIS_ADDR] set the lines of a service go to the Redis list
    [<runtime>/<service>/logs], otherwise to [vs.run_logs].

    Modelled from the spec: the Redis server and [vs.run_logs]
    (eNMS/variables.py) are not among the sources.  [LPUSH] puts a value
    at the head of a list and answers the new length, [LRANGE key 0 -1]
    answers the whole list, head first, and the empty list for a key that
    does not exist.  [vs.run_logs] maps a runtime and a service id to the
    list of its lines, created empty on first use; the two levels of the
    mapping are one map on pairs here.  [service] is the id of the
    service.  [mode] is [add] or the name of a dictionary method that takes
    a key and a default. *)

Inductive LogMode := Add | Get | Pop | Setdefault.

Inductive LogReturn :=
| LogNone
| LogLength (n : Z)
| LogLines (lines : list string).

Inductive LogExn :=
| Log_AttributeError            (* [None.append] *)
| Log_TypeError.                (* [None[start_line:]] *)

Record Queues := {
  redis_lists : gmap string (list string);
  run_logs : gmap (string * Z) (option (list string));
}.

(** [l[start_line:]] *)
Definition slice_from (start_line : Z) (l : list string) : list string :=
  if (start_line <? 0)%Z
  then drop (length l - Z.to_nat (- start_line)) l
  else drop (Z.to_nat start_line) l.

(** [f"{runtime}/{service}/logs"] *)
Definition logs_key (runtime : string) (service : Z) : string :=
  runtime +:+ "/" +:+ pretty service +:+ "/logs".

(** [redis_queue] says whether [self.redis_queue] is set, [up] whether
    the server answers the one request of this call; when it does not,
    [self.redis] logs the error and returns [None]. *)
Definition log_queue (redis_queue up : bool) (q : Queues)
    (runtime : string) (service : Z) (log : string) (mode : LogMode)
    (start_line : Z) : (LogExn + LogReturn) * Queues :=
  if redis_queue then
    let key := logs_key runtime service in
    let run_logs' := <[(runtime, service) := None]> (run_logs q) in
    let stored := default [] (redis_lists q !! key) in
    match mode with
    | Add =>
        if up then
          (inr (LogLength (Z.of_nat (S (length stored)))),
           {| redis_lists := <[key := log :: stored]> (redis_lists q);
              run_logs := run_logs' |})
        else (inr LogNone, {| redis_lists := redis_lists q;
                              run_logs := run_logs' |})
    | _ =>
        let q' := {| redis_lists := redis_lists q; run_logs := run_logs' |} in
        if up then
          match stored with
          | [] => (inr (LogLines []), q')
          | _ :: _ => (inr (LogLines (slice_from start_line (reverse stored))),
                       q')
          end
        else (inr LogNone, q')
    end
  else
    let entry := run_logs q !! (runtime, service) in
    match mode with
    | Add =>
        match default (Some []) entry with
        | Some lines =>
            (inr LogNone,
             {| redis_lists := redis_lists q;
                run_logs := <[(runtime, service) := Some (lines ++ [log])]>
                              (run_logs q) |})
        | None => (inl Log_AttributeError, q)
        end
    | _ =>
        let q' :=
          match mode with
          | Pop => {| redis_lists := redis_lists q;
                      run_logs := base.delete (runtime, service) (run_logs q) |}
          | Setdefault =>
              {| redis_lists := redis_lists q;
                 run_logs := <[(runtime, service) := default (Some []) entry]>
                               (run_logs q) |}
          | _ => q
          end in
        match default (Some []) entry with
        | Some full_log => (inr (LogLines (slice_from start_line full_log)), q')
        | None => (inl Log_TypeError, q')
        end
    end.

(** The calls [log_queue(runtime, service, log)] for the lines of [logs],
    in order, on a server that answers. *)
Definition add_logs (redis_queue : bool) (q : Queues) (runtime : string)
    (service : Z) (logs : list string) : Queues :=
  foldl (λ q log, (log_queue redis_queue true q runtime service log Add 0).2)
        q logs.

(** * Vocabulary of the statements *)

(** ** Heaps

    [edge_ok le h j]: the item at [j] is not below its parent; [heap_ok]:
    this holds everywhere. *)

Definition edge_ok {A} (le : A → A → Prop) (h : list A) (j : nat) : Prop :=
  ∀ x y, h !! parentpos j = Some x → h !! j = Some y → le x y.

Definition heap_ok {A} (le : A → A → Prop) (h : list A) : Prop :=
  ∀ j, 0 < j → edge_ok le h j.

(** Entries are ordered by their key. *)
Definition key_le (a b : Entry) : Prop := (a.1 <= b.1)%Q.

Definition pending_ok (heap : list Entry) : Prop := heap_ok key_le heap.

(** ** Hoare triples for the monad

    [hoare P m Q R]: from a state in [P], [m] either returns [a] in a state
    in [Q a] or raises [e] in a state in [R e]. *)

Definition hoare {A} (P : JobState → Prop) (m : M A)
    (Q : A → JobState → Prop) (R : Exn → JobState → Prop) : Prop :=
  ∀ st, P st →
    match m st with
    | Ok a st' => Q a st'
    | Raise e st' => R e st'
    end.

(** An invariant holds after the computation, however it ends. *)
Definition inv {A} (I : JobState → Prop) (m : M A) : Prop :=
  hoare I m (λ _, I) (λ _, I).

(** ** Dispatches *)

Definition is_dispatch_of (s : Service) (ev : Event) : bool :=
  match ev with
  | RunnerInvoked s' _ | SkipSynthesized s' => bool_decide (s' = s)
  | StateWritten _ _ _ => false
  end.

(** How often [s] was dispatched: a Runner invoked, or a skip result
    synthesized. *)
Definition dispatch_count (s : Service) (tr : list Event) : nat :=
  length (filter (λ ev, is_dispatch_of s ev = true) tr).

(** The names of the dispatched services, in order. *)
Definition dispatch_order (tr : list Event) : list string :=
  omap (λ ev, match ev with
              | RunnerInvoked s _ | SkipSynthesized s => Some (name s)
              | StateWritten _ _ _ => None
              end) tr.

(** ** The invariant of the loop *)

(** Dispatches of [s] are covered by [number_of_runs] and capped. *)
Definition runs_inv (st : JobState) : Prop :=
  ∀ s, (Z.of_nat (dispatch_count s (trace st)) ≤ runs_get st (name s))%Z
       ∧ (Z.of_nat (dispatch_count s (trace st))
          ≤ Z.max 0 (maximum_runs s))%Z.

(** The pending list is a heap whose keys are [1 / priority]. *)
Definition heap_inv (st : JobState) : Prop :=
  pending_ok (services st)
  ∧ ∀ k s, (k, s) ∈ services st → heap_key (priority s) = inr k.

(** Runners only ever ran for services that are not skipped. *)
Definition runner_inv (self : Workflow) (start end_ : Service)
    (st : JobState) : Prop :=
  ∀ s kwargs, RunnerInvoked s kwargs ∈ trace st →
              is_skipped self start end_ s = false.

Definition job_inv (self : Workflow) (start end_ : Service)
    (st : JobState) : Prop :=
  runs_inv st ∧ heap_inv st ∧ runner_inv self start end_ st.

(** After [count_run service], one more dispatch of [service] fits. *)
Definition credit (self : Workflow) (start end_ service : Service)
    (st : JobState) : Prop :=
  job_inv self start end_ st
  ∧ (Z.of_nat (S (dispatch_count service (trace st)))
     ≤ runs_get st (name service))%Z
  ∧ (Z.of_nat (S (dispatch_count service (trace st)))
     ≤ maximum_runs service)%Z.

(** The state with another heap, and the state after one more event. *)
Definition with_services (st : JobState) (heap : list Entry) : JobState :=
  {| number_of_runs := number_of_runs st; targets := targets st;
     services := heap; visited := visited st; trace := trace st |}.

Definition with_event (st : JobState) (ev : Event) : JobState :=
  {| number_of_runs := number_of_runs st; targets := targets st;
     services := services st; visited := visited st;
     trace := trace st ++ [ev] |}.

(** The states of the loop: after the prologue, and after each evaluation
    of the loop body that asks for another one. *)
Inductive reachable (w : World) (db : Database) (self : Workflow) (run : Run)
    (device : option Device) (start end_ : Service) : nat → JobState → Prop :=
| reachable_seeded st :
    prologue db run device initial_state = Ok (start, end_) st →
    reachable w db self run device start end_ 0 st
| reachable_step i st st' :
    reachable w db self run device start end_ i st →
    iteration w db self run device i start end_ st = Ok Continue st' →
    reachable w db self run device start end_ (S i) st'.

(** ** Termination of the loop *)

(** How many more dispatches the counter of [s] allows. *)
Definition allowance (st : JobState) (s : Service) : nat :=
  Z.to_nat (maximum_runs s - runs_get st (name s)).

Definition budget (db : Database) (st : JobState) : nat :=
  sum_list (allowance st <$> db_services db).

(** A bound on the evaluations of the loop still to come: each pops one
    entry, and only a dispatch, which uses up one unit of the budget,
    pushes entries: at most one per edge and edge type. *)
Definition fuel_left (db : Database) (st : JobState) : nat :=
  length (services st) + S (2 * length (db_edges db)) * budget db st.

(** Every pending service is a row of the database. *)
Definition heap_in_db (db : Database) (st : JobState) : Prop :=
  ∀ entry, entry ∈ services st → entry.2 ∈ db_services db.

(** The counters are [R], at most [n] entries are pending, all from the
    database. *)
Definition bounded (db : Database) (R : gmap string Z) (n : nat)
    (st : JobState) : Prop :=
  number_of_runs st = R ∧ length (services st) ≤ n ∧ heap_in_db db st.

(** ** Propagation, in the words of the specification *)






(** ** Bytes, strings and the scheduler *)

Definition is_byte (b : Z) : Prop := (0 ≤ b < 256)%Z.

(** A code point that [str.encode] accepts: a Unicode scalar value. *)
Definition is_scalar_value (c : Z) : Prop :=
  (0 ≤ c ≤ 0x10FFFF)%Z ∧ ¬ (0xD800 ≤ c ≤ 0xDFFF)%Z.

(** The decoder state at the start and after each complete group. *)
Definition fresh (out : list Z) : A2B :=
  {| quad_pos := 0; leftchar := 0; pads := 0; bin_data := out |}.

Definition unreachable_alert : Json :=
  JDict [("alert",
          JStr "Scheduler Unreachable: the task cannot be scheduled.")].

(** ** Well-formed runs *)

(** The summary of a [results] dictionary: [results.get("summary", {})]. *)
Definition summary_of (results : Results) : gmap string (list string) :=
  default ∅ (res_summary results).

(** What [job] needs of its surroundings in order not to raise: the rows
    it fetches exist, no priority is 0, no edge of the workflow dangles,
    and, in the modes that track targets, the devices exist and every Runner
    answers with a summary holding both keys. *)
Record well_formed (w : World) (db : Database) (self : Workflow) (run : Run)
    (device : option Device) : Prop := {
  wf_start : ∃ start, fetch_service_by_scoped_name db "Start" = inr start;
  wf_end : ∃ end_, fetch_service_by_scoped_name db "End" = inr end_;
  wf_seeds :
    ∀ i, i ∈ start_services run → ∃ s, fetch_service_by_id db i = inr s;
  wf_priority : ∀ s, s ∈ db_services db → priority s ≠ 0%Z;
  wf_edges :
    ∀ edge, edge ∈ db_edges db →
            edge_workflow edge = workflow_name self →
            is_Some (peer db destination edge);
  wf_targets :
    tracks_targets run device = true →
    ∀ d, d ∈ start_targets run device → d ∈ db_devices db;
  wf_runner :
    tracks_targets run device = true →
    ∀ history kwargs results,
      Runner w history kwargs = Some results →
      is_Some (summary_of results !! "success")
      ∧ is_Some (summary_of results !! "failure")
      ∧ ∀ key devices d,
          summary_of results !! key = Some devices → d ∈ devices →
          d ∈ db_devices db;
}.

(** The invariant that keeps [job] from raising. *)
Definition safe_inv (db : Database) (run : Run) (device : option Device)
    (st : JobState) : Prop :=
  heap_in_db db st
  ∧ (tracks_targets run device = true →
     ∀ n d, d ∈ targets_get st n → d ∈ db_devices db).

(** Results that [propagate] handles without raising. *)
Definition safe_results (db : Database) (run : Run)
    (device : option Device) (results : Results) : Prop :=
  tracks_targets run device = true →
  is_Some (summary_of results !! "success")
  ∧ is_Some (summary_of results !! "failure")
  ∧ ∀ key devices d,
      summary_of results !! key = Some devices → d ∈ devices →
      d ∈ db_devices db.

(** The event is the dispatch of a service with this id. *)
Definition dispatches_id (i : Z) (ev : Event) : Prop :=
  match ev with
  | RunnerInvoked s _ | SkipSynthesized s => service_id s = i
  | StateWritten _ _ _ => False
  end.

(** [visited] holds the services dispatched so far. *)
Definition visited_inv (st : JobState) : Prop :=
  ∀ i, i ∈ visited st ↔ ∃ ev, ev ∈ trace st ∧ dispatches_id i ev.

(** Between [visited.add(service)] and the dispatch of [service]. *)
Definition visited_pending (service : Service) (st : JobState) : Prop :=
  ∀ i, i ∈ visited st
       ↔ i = service_id service ∨ ∃ ev, ev ∈ trace st ∧ dispatches_id i ev.

(** A Runner that reports, in its summary, only devices it was given. *)
Definition reports_own_targets (w : World) : Prop :=
  ∀ history kwargs results key devices d,
    Runner w history kwargs = Some results →
    summary_of results !! key = Some devices → d ∈ devices →
    ∃ given, arg_target_devices kwargs = Some given ∧ d ∈ given.

(** Every target set holds devices of [D] only, and [targets[key]] holds
    all of them. *)
Definition targets_within (D : gset string) (st : JobState) : Prop :=
  ∀ n d, d ∈ targets_get st n → d ∈ D.

Definition targets_cover (D : gset string) (key : string)
    (st : JobState) : Prop :=
  ∀ d, d ∈ D → d ∈ targets_get st key.

Definition closure_inv (D : gset string) (key : string)
    (st : JobState) : Prop :=
  targets_within D st ∧ targets_cover D key st.

(** ** The services a run can reach *)

(** [b] is at the end of an edge of the workflow that leaves [a], of one of
    the two subtypes [job] follows. *)
Definition follows (db : Database) (self : Workflow) (a b : Service)
  : Prop :=
  ∃ edge, edge ∈ db_edges db
          ∧ (subtype edge = "success" ∨ subtype edge = "failure")
          ∧ edge_workflow edge = workflow_name self
          ∧ source_id edge = service_id a
          ∧ peer db destination edge = Some b.

(** [s] is connected to a service the run starts from. *)
Definition connected (db : Database) (self : Workflow) (run : Run)
    (start s : Service) : Prop :=
  ∃ i s0, i ∈ seed_ids run start
          ∧ fetch_service_by_id db i = inr s0
          ∧ rtc (follows db self) s0 s.

(** The pending and the dispatched services are connected. *)
Definition connected_inv (db : Database) (self : Workflow) (run : Run)
    (start : Service) (st : JobState) : Prop :=
  (∀ entry, entry ∈ services st → connected db self run start entry.2)
  ∧ ∀ ev s, ev ∈ trace st → is_dispatch_of s ev = true →
            connected db self run start s.

(** ** The edges [job] follows *)

(** [status] of line 159. *)
Definition status_of (results : Results) : string :=
  if res_success results then "success" else "failure".

(** [propagate] follows the edges of this type: in tracking mode when
    [summary[edge_type]] is not empty, otherwise when it is the status. *)
Definition followed (run : Run) (results : Results) (edge_type : string)
  : Prop :=
  (edge_type = "success" ∨ edge_type = "failure")
  ∧ if tracking_bfs run
    then ∃ d ds, summary_of results !! edge_type = Some (d :: ds)
    else edge_type = status_of results.

(** No pending and no dispatched service has priority 0. *)
Definition nonzero_inv (st : JobState) : Prop :=
  (∀ entry, entry ∈ services st → priority entry.2 ≠ 0%Z)
  ∧ ∀ ev s, ev ∈ trace st → is_dispatch_of s ev = true → priority s ≠ 0%Z.

(** ** Propagation without targets, in the words of the specification *)




(** ** The order of dispatch *)


(** [b] has been dispatched [c] times and, if [P], [entry] is pending. *)
Definition waiting (entry : Entry) (b : Service) (c : nat) (P : Prop)
    (st : JobState) : Prop :=
  dispatch_count b (trace st) = c ∧ (P → entry ∈ services st).

(** * Scenarios used to exercise the statements *)

Module Scenario.
Definition make_service (i : Z) (n : string) (p m : Z) : Service :=
  {| service_id := i; name := n; scoped_name := n; priority := p;
     maximum_runs := m; skip := ∅; skip_value := "success" |}.

Definition make_edge (i : Z) (t : string) (s d : Z) : WorkflowEdge :=
  {| edge_id := i; subtype := t; source_id := s; destination_id := d;
     edge_workflow := "w" |}.

Definition Start : Service := make_service 1 "Start" 1 1.
Definition End_ : Service := make_service 2 "End" 1 1.
Definition A : Service := make_service 3 "A" 1 2.
Definition B : Service := make_service 4 "B" 1 1.

Definition w : Workflow := {| workflow_name := "w" |}.

(** [Start -> A -> B -> End] on success, [A -> End] on failure, and a
    loop [A -> A] on success. *)
Definition db : Database :=
  {| db_services := [Start; End_; A; B];
     db_edges := [make_edge 10 "success" 1 3; make_edge 11 "success" 3 4;
                  make_edge 12 "success" 4 2; make_edge 13 "failure" 3 2;
                  make_edge 14 "success" 3 3];
     db_devices := ["d1"; "d2"] |}.

Definition run_with (method : string) (ids : list Z) : Run :=
  {| start_services := ids; target_devices := ["d1"; "d2"];
     run_method := method; payload := 0; placeholder := None;
     parent_device := None; parent_runtime := "runtime" |}.

Definition tracking : Run :=
  run_with "per_service_with_workflow_targets" [].
Definition service_targets : Run :=
  run_with "per_service_with_service_targets" [].

Definition split_results : Results :=
  {| res_success := true; res_result := None;
     res_summary := Some {[ "success" := ["d1"]; "failure" := ["d2"] ]} |}.

(** Every Runner succeeds on [d1] and fails on [d2]; nobody stops the
    run. *)
Definition world : World :=
  {| run_stop := λ _, false; Runner := λ _ _, Some split_results |}.

(** A run that is stopped from the start. *)
Definition stopped : World :=
  {| run_stop := λ _, true; Runner := λ _ _, Some split_results |}.

(** Runners that return results without a summary. *)
Definition bare : World :=
  {| run_stop := λ _, false;
     Runner := λ _ _, Some {| res_success := true; res_result := None;
                              res_summary := None |} |}.

Definition entry (s : Service) : Entry := (float_div (priority s), s).

(** [A] is pending twice and has used up its two runs. *)
Definition exhausted : JobState :=
  {| number_of_runs := {[ "A" := 2%Z ]}; targets := ∅;
     services := [entry A; entry A]; visited := {[ 3%Z ]}; trace := [] |}.

Definition pending (l : list Service) : JobState :=
  {| number_of_runs := ∅; targets := {[ "A" := {[ "d1" ]} ]};
     services := entry <$> l; visited := ∅; trace := [] |}.
End Scenario.

Module ZeroPriority.
Definition Start : Service := Scenario.make_service 1 "Start" 0 1.
Definition db : Database :=
  {| db_services := [Start; Scenario.End_]; db_edges := [];
     db_devices := ["d1"; "d2"] |}.
End ZeroPriority.

Module Restart.
(** A run restarted from [End]: [start_services] does not hold
    [Start]. *)
Definition run : Run :=
  Scenario.run_with "per_service_with_workflow_targets" [2%Z].
End Restart.

Module Secrets.
Local Open Scope Z_scope.

(** A stand-in for Fernet: a token is the version byte [0x80], the
    entropy length, the entropy and the data. *)
Definition toy : FernetObj :=
  {| fernet_encrypt := λ entropy data,
       0x80 :: Z.of_nat (length entropy) :: entropy ++ data;
     fernet_decrypt := λ token,
       match token with
       | 0x80 :: n :: rest => Some (drop (Z.to_nat n) rest)
       | _ => None
       end |}.

Definition Fernet (key : string) : option FernetObj :=
  if decide (String.length key = 44%nat) then Some toy else None.

Definition key : string := "MDEyMzQ1Njc4OWFiY2RlZjAxMjM0NTY3ODlhYmNkZWY=".

(** "pä€" followed by U+1F600. *)
Definition password : list Z := [112; 228; 0x20AC; 0x1F600].

(** The lone surrogate U+D800. *)
Definition surrogate : list Z := [0xD800].

Definition with_key : Environment :=
  match init_encryption Fernet (Some key) with
  | inr env => env
  | inl _ => {| fernet_encryption := None;
                encrypt := λ _ _, inl TypeError;
                decrypt := λ _, inl TypeError |}
  end.
End Secrets.

Module Outage.
Definition timeout : PyExn :=
  {| exn_class := ConnectTimeout; exn_str := "connect timeout=0.01" |}.
Definition malformed : PyExn :=
  {| exn_class := JSONDecodeError;
     exn_str := "Expecting value: line 1 column 1 (char 0)" |}.

Definition failing (exc : PyExn) : SchedulerEnv :=
  {| scheduler_address := Some "http://scheduler";
     http := {| http_get := λ _, inl exc; http_post := λ _ _, inl exc |};
     current_user_name := inr "admin" |}.

Definition task : Task :=
  {| task_id := 7; is_active := JBool true; last_scheduled_by := None;
     task_properties := inr (JDict [("name", JStr "backup")]) |}.
End Outage.

Module Faithful.
(** Every Runner succeeds on each device it was given. *)
Definition world : World :=
{| run_stop := λ _, false;
   Runner := λ _ kwargs,
     Some {| res_success := true; res_result := None;
             res_summary :=
               Some {[ "success" := default [] (arg_target_devices kwargs);
                       "failure" := [] ]} |} |}.
End Faithful.

Module Vault.
(** A stand-in for Fernet whose tokens are text: the version byte [0x80]
  followed by the data, in base64. *)
Definition plain : FernetObj :=
{| fernet_encrypt := λ _ data, b64encode (128%Z :: data);
   fernet_decrypt := λ token,
     match a2b_base64 token with
     | inr (128%Z :: data) => Some data
     | _ => None
     end |}.

Definition Plain (key : string) : option FernetObj :=
if decide (String.length key = 44%nat) then Some plain else None.

Definition with_key : Environment :=
match init_encryption Plain (Some Secrets.key) with
| inr env => env
| inl _ => {| fernet_encryption := None;
              encrypt := λ _ _, inl TypeError;
              decrypt := λ _, inl TypeError |}
end.
End Vault.

Module Pools.
Definition routers : Pool :=
{| pool_id := 1; manually_defined := false; pool_members := [4; 9]%Z |}.
Definition switches : Pool :=
{| pool_id := 2; manually_defined := false; pool_members := [5]%Z |}.
Definition favourites : Pool :=
{| pool_id := 3; manually_defined := true; pool_members := [9]%Z |}.

(** The instance 9 now matches the switches only. *)
Definition match_instance (pool : Pool) : bool :=
bool_decide (pool_id pool = 2%Z).
End Pools.

(** A queue holding the state of the run [rt]. *)
Module Cache.
Definition keys : list string :=
  ["rt/state/1/progress/device/total"; "rt/state/1/success";
   "rt/state/2/result"].

Definition values : list (option string) := [Some "3"; Some "True"; None].

Definition redis : RedisQueue :=
  {| redis_keys := λ _, Some keys; redis_mget := λ _, Some values |}.

(** A key that is the beginning of another. *)
Definition clash : RedisQueue :=
  {| redis_keys := λ _, Some ["rt/state/1"; "rt/state/1/success"];
     redis_mget := λ _, Some [Some "3"; Some "True"] |}.

(** The same keys, the longer one first. *)
Definition shadowed : RedisQueue :=
  {| redis_keys := λ _, Some ["rt/state/1/success"; "rt/state/1"];
     redis_mget := λ _, Some [Some "True"; Some "3"] |}.
End Cache.

(** Two services in the workflow 10, which lies with a third service in
    the workflow 20. *)
Module Nested.
Definition c : Containment :=
  {| service_workflow_table :=
       [(1, 10); (2, 10); (10, 20); (3, 20)]%Z;
     type_of := λ i, if decide (i = 10 ∨ i = 20)%Z then "workflow"
                     else "netmiko_commands" |}.

Definition rank (i : Z) : nat :=
  if decide (i = 20)%Z then 2 else if decide (i = 10)%Z then 1 else 0.
End Nested.

(** A device with a password, in one pool and without a gateway. *)
Module Inventory.
Definition schema : Schema :=
  {| schema_properties := ["id"; "name"; "vendor"; "password"];
     schema_private := {["password"]};
     schema_dont_serialize := [];
     schema_no_migrate := [];
     schema_class_properties := [] |}.

Definition device : Object_ :=
  <["id" := Plain (JNum 7)]>
    (<["name" := Plain (JStr "r1")]>
       (<["vendor" := Plain (JStr "Cisco")]>
          (<["password" := Plain (JStr "gAAAA")]> ∅))).

Definition pool : Instance :=
  {| instance_schema :=
       {| schema_properties := ["id"; "name"];
          schema_private := ∅;
          schema_dont_serialize := [];
          schema_no_migrate := [];
          schema_class_properties := [] |};
     instance_attributes :=
       <["id" := Plain (JNum 1)]> (<["name" := Plain (JStr "all")]> ∅) |}.

Definition relations : list (string * Relation) :=
  [("pools", ToMany [pool]); ("gateway", ToOne None)].

(** [to_dict(include=["pools"], relation_names_only=True)] *)
Definition only_pools : Options :=
  {| export := false; exclude := None; include := Some ["pools"];
     private_properties := false |}.
End Inventory.

(** [A] leads to a service of priority 0. *)
Module ZeroSuccessor.
Definition Z0 : Service := Scenario.make_service 5 "Z" 0 1.
Definition db : Database :=
  {| db_services := [Scenario.Start; Scenario.End_; Scenario.A; Z0];
     db_edges := [Scenario.make_edge 10 "success" 1 3;
                  Scenario.make_edge 20 "success" 3 5];
     db_devices := ["d1"; "d2"] |}.
End ZeroSuccessor.

(** Runners whose summary lacks the "failure" key. *)
Module HalfSummary.
Definition world : World :=
  {| run_stop := λ _, false;
     Runner := λ _ _,
       Some {| res_success := true; res_result := None;
               res_summary := Some {[ "success" := ["d1"] ]} |} |}.
End HalfSummary.

(** A run that starts from [Low], of priority 1, and [High], of priority
    2, in this order; and two services whose priorities, beyond [2 ** 52],
    have the same float key. *)
Module Priorities.
Definition Low : Service := Scenario.make_service 6 "Low" 1 1.
Definition High : Service := Scenario.make_service 7 "High" 2 1.

Definition db : Database :=
  {| db_services := [Scenario.Start; Scenario.End_; Low; High];
     db_edges := []; db_devices := ["d1"; "d2"] |}.

Definition run : Run :=
  Scenario.run_with "per_service_with_workflow_targets" [6; 7]%Z.


End Priorities.

(** * Verification *)

(** ** Index arithmetic *)

Lemma parentpos_lt pos : 0 < pos → parentpos pos < pos.
Proof.
  intros. unfold parentpos. rewrite Nat.shiftr_div_pow2.
  change (2 ^ 1) with 2. apply Nat.Div0.div_lt_upper_bound. lia.
Qed.

Lemma parentpos_child j p :
  0 < j → parentpos j = p ↔ j = 2 * p + 1 ∨ j = 2 * p + 2.
Proof.
  intros. unfold parentpos. rewrite Nat.shiftr_div_pow2.
  change (2 ^ 1) with 2.
  pose proof (Nat.div_mod_eq (j - 1) 2).
  pose proof (Nat.mod_upper_bound (j - 1) 2). lia.
Qed.

Lemma smaller_child_gt {A} (lt_ : A → A → bool) heap pos :
  pos < smaller_child lt_ heap pos.
Proof. unfold smaller_child. repeat case_match; lia. Qed.

(** ** The heap discipline of [heapq]

    The comparison [lt_] need not be an order.  It is enough that it agrees
    with some total preorder [le]: [lt_ x y] implies [le x y], and its
    failure implies [le y x].  Then pushes and pops keep every parent below
    its children with respect to [le], and a pop returns a least item. *)

Section heap_theory.
Context {A : Type} (lt_ : A → A → bool) (le : A → A → Prop).
Hypothesis le_refl : ∀ x, le x x.
Hypothesis le_trans : ∀ x y z, le x y → le y z → le x z.
Hypothesis lt_le : ∀ x y, lt_ x y = true → le x y.
Hypothesis nlt_le : ∀ x y, lt_ x y = false → le y x.

Lemma siftdown_loop_eq h s pos new :
  siftdown_loop lt_ h s pos new =
  if decide (s < pos) then
    match h !! parentpos pos with
    | Some parent =>
        if lt_ new parent
        then siftdown_loop lt_ (<[pos := parent]> h) s (parentpos pos) new
        else <[pos := new]> h
    | None => <[pos := new]> h
    end
  else <[pos := new]> h.
Proof.
  simp siftdown_loop.
  destruct (decide (s < pos)); simpl; [|done].
  destruct (h !! parentpos pos) as [parent|]; simpl; [|done].
  by destruct (lt_ new parent).
Qed.

Lemma siftup_loop_eq h pos :
  siftup_loop lt_ h pos =
  if decide (2 * pos + 1 < length h) then
    match h !! smaller_child lt_ h pos with
    | Some child =>
        siftup_loop lt_ (<[pos := child]> h) (smaller_child lt_ h pos)
    | None => (h, pos)
    end
  else (h, pos).
Proof.
  simp siftup_loop.
  destruct (decide (2 * pos + 1 < length h)); simpl; [|done].
  by destruct (h !! smaller_child lt_ h pos).
Qed.

Lemma swap_Permutation (h : list A) i j x y :
  i ≠ j → i < length h → h !! j = Some y →
  <[j := x]> (<[i := y]> h) ≡ₚ <[i := x]> h.
Proof.
  intros Hij Hi Hj.
  apply Permutation_inj. split; [by rewrite !length_insert|].
  exists (λ k, if decide (k = i) then j else if decide (k = j) then i else k).
  split.
  - intros a b. repeat case_decide; lia.
  - intros k. pose proof (lookup_lt_Some _ _ _ Hj).
    repeat case_decide; subst.
    + rewrite list_lookup_insert_ne by done.
      rewrite list_lookup_insert_eq by done.
      by rewrite list_lookup_insert_ne.
    + rewrite list_lookup_insert_eq by (by rewrite length_insert).
      by rewrite list_lookup_insert_eq.
    + by rewrite !list_lookup_insert_ne.
Qed.

Lemma siftdown_loop_length h s pos new :
  length (siftdown_loop lt_ h s pos new) = length h.
Proof.
  revert h. induction (lt_wf pos) as [pos _ IH]. intros h.
  rewrite siftdown_loop_eq.
  repeat case_match; rewrite ?length_insert; try done.
  rewrite IH, ?length_insert; [done|]. apply parentpos_lt. lia.
Qed.

Lemma siftdown_loop_Permutation h s pos new :
  pos < length h →
  siftdown_loop lt_ h s pos new ≡ₚ <[pos := new]> h.
Proof.
  revert h. induction (lt_wf pos) as [pos _ IH]. intros h Hpos.
  rewrite siftdown_loop_eq.
  repeat case_match; try done.
  pose proof (parentpos_lt pos ltac:(lia)).
  rewrite IH by (rewrite ?length_insert; lia).
  apply swap_Permutation; [lia|done|done].
Qed.

Ltac look :=
  repeat first
    [ rewrite list_lookup_insert_eq by (rewrite ?length_insert; lia)
    | rewrite list_lookup_insert_ne by lia ].
Ltac look_in H :=
  repeat first
    [ rewrite list_lookup_insert_eq in H by (rewrite ?length_insert; lia)
    | rewrite list_lookup_insert_ne in H by lia ].

Lemma siftdown_loop_ok h pos new :
  pos < length h →
  (∀ j, 0 < j → j ≠ pos → edge_ok le (<[pos := new]> h) j) →
  (∀ j x y, 0 < pos → parentpos j = pos → 0 < j →
     h !! parentpos pos = Some x → h !! j = Some y → le x y) →
  heap_ok le (siftdown_loop lt_ h 0 pos new).
Proof.
  revert h. induction (lt_wf pos) as [pos _ IH].
  intros h Hpos Hedges Hgp.
  rewrite siftdown_loop_eq.
  destruct (decide (0 < pos)) as [Hpos0|Hpos0]; last first.
  { intros j Hj. apply Hedges; lia. }
  pose proof (parentpos_lt pos Hpos0) as Hpp.
  destruct (h !! parentpos pos) as [parent|] eqn:Hparent; last first.
  { apply lookup_ge_None in Hparent. lia. }
  destruct (lt_ new parent) eqn:Hlt; last first.
  { intros j Hj x y Hx Hy.
    destruct (decide (j = pos)) as [->|Hjpos]; [|by eapply Hedges].
    look_in Hx. look_in Hy. simplify_eq. by apply nlt_le. }
  apply IH; [done|rewrite length_insert; lia|..].
  - intros j Hj Hne x y Hx Hy.
    pose proof (parentpos_lt j Hj).
    destruct (decide (j = pos)) as [->|Hjpos].
    { look_in Hx. look_in Hy. simplify_eq. by apply lt_le. }
    destruct (decide (parentpos j = parentpos pos)) as [Hsib|Hnsib].
    { rewrite Hsib in Hx. look_in Hx. look_in Hy. simplify_eq.
      eapply le_trans; [by apply lt_le|].
      apply (Hedges j Hj Hjpos); [rewrite Hsib|]; by look. }
    destruct (decide (parentpos j = pos)) as [Hch|Hnch].
    { rewrite Hch in Hx. look_in Hx. look_in Hy. simplify_eq.
      eapply (Hgp j); eauto. }
    look_in Hx. look_in Hy.
    apply (Hedges j Hj Hjpos); by look.
  - intros j x y Hpp0 Hj Hj0 Hx Hy.
    pose proof (parentpos_lt _ Hpp0).
    look_in Hx.
    assert (le x parent) as Hxp.
    { apply (Hedges (parentpos pos)); [lia|lia| |]; by look. }
    destruct (decide (j = pos)) as [->|Hjpos].
    { look_in Hy. by simplify_eq. }
    look_in Hy. eapply le_trans; [done|].
    apply (Hedges j Hj0 Hjpos); [rewrite Hj|]; by look.
Qed.

Lemma heap_ok_root h x :
  heap_ok le h → h !! 0 = Some x → ∀ j y, h !! j = Some y → le x y.
Proof.
  intros Hok Hx j. induction (lt_wf j) as [j _ IH]. intros y Hy.
  destruct (decide (j = 0)) as [->|Hj]; [by simplify_eq|].
  pose proof (parentpos_lt j ltac:(lia)) as Hpp.
  destruct (h !! parentpos j) as [z|] eqn:Hz.
  - eapply le_trans; [by apply (IH (parentpos j))|].
    apply (Hok j); [lia|done|done].
  - apply lookup_ge_None in Hz. apply lookup_lt_Some in Hy. lia.
Qed.

Lemma heappush_ok h x : heap_ok le h → heap_ok le (heappush lt_ h x).
Proof.
  intros Hok. unfold heappush, siftdown.
  rewrite lookup_app_r, Nat.sub_diag by done. simpl.
  apply siftdown_loop_ok.
  - rewrite length_app. simpl. lia.
  - intros j Hj Hne y z Hy Hz.
    rewrite list_insert_id in Hy, Hz
      by (by rewrite lookup_app_r, Nat.sub_diag).
    pose proof (parentpos_lt j Hj).
    apply lookup_lt_Some in Hz as Hlen.
    rewrite length_app in Hlen. simpl in Hlen.
    rewrite lookup_app_l in Hy, Hz by lia.
    by apply (Hok j).
  - intros j y z _ Hj Hj0 _ Hz.
    pose proof (parentpos_lt j Hj0).
    apply lookup_lt_Some in Hz. rewrite length_app in Hz. simpl in Hz. lia.
Qed.

Lemma heappush_Permutation h x : heappush lt_ h x ≡ₚ x :: h.
Proof.
  unfold heappush, siftdown.
  rewrite lookup_app_r, Nat.sub_diag by done. simpl.
  rewrite siftdown_loop_Permutation by (rewrite length_app; simpl; lia).
  rewrite list_insert_id by (by rewrite lookup_app_r, Nat.sub_diag).
  by rewrite Permutation_app_comm.
Qed.

Lemma smaller_child_spec h pos :
  2 * pos + 1 < length h →
  let c := smaller_child lt_ h pos in
  (c = 2 * pos + 1 ∨ c = 2 * pos + 2) ∧ c < length h ∧
  ∀ j y z, 0 < j → parentpos j = pos →
     h !! j = Some y → h !! c = Some z → le z y.
Proof.
  intros Hlen. unfold smaller_child.
  destruct (lookup_lt_is_Some_2 h (2 * pos + 1) Hlen) as [l Hl].
  rewrite Hl.
  destruct (h !! (2 * pos + 1 + 1)) as [r|] eqn:Hr.
  - apply lookup_lt_Some in Hr as Hrlen.
    destruct (lt_ l r) eqn:Hlt; (split; [lia|split; [lia|]]);
      intros j y z Hj Hpar Hy Hz; apply parentpos_child in Hpar as [->| ->];
      try done; replace (2 * pos + 2) with (2 * pos + 1 + 1) in * by lia;
      simplify_eq; auto.
  - split; [lia|split; [lia|]].
    intros j y z Hj Hpar Hy Hz. apply parentpos_child in Hpar as [->| ->];
      try done; [by simplify_eq|].
    replace (2 * pos + 2) with (2 * pos + 1 + 1) in * by lia. congruence.
Qed.

Lemma siftup_loop_spec h pos :
  pos < length h →
  (∀ j, 0 < j → parentpos j ≠ pos ∨ 0 < pos → edge_ok le h j) →
  ∃ h' leaf,
    siftup_loop lt_ h pos = (h', leaf) ∧
    length h' = length h ∧ leaf < length h ∧ length h ≤ 2 * leaf + 1 ∧
    (∀ j, 0 < j → parentpos j ≠ leaf ∨ 0 < leaf → edge_ok le h' j) ∧
    (∀ x, <[leaf := x]> h' ≡ₚ <[pos := x]> h).
Proof.
  remember (length h - pos) as n eqn:Hn.
  revert h pos Hn. induction (lt_wf n) as [n _ IH].
  intros h pos -> Hpos Hedges.
  rewrite siftup_loop_eq.
  destruct (decide (2 * pos + 1 < length h)) as [Hlen|Hlen]; last first.
  { exists h, pos. repeat split; auto. lia. }
  destruct (smaller_child_spec h pos Hlen) as (Hc & Hclen & Hmin).
  set (c := smaller_child lt_ h pos) in *.
  destruct (lookup_lt_is_Some_2 h c Hclen) as [child Hchild].
  rewrite Hchild.
  assert (parentpos c = pos) as Hcpar by (apply parentpos_child; lia).
  edestruct (IH (length (<[pos := child]> h) - c))
    as (h' & leaf & Heq & Hlen' & Hleaf & Hleaf' & Hedges' & Hperm);
    [rewrite length_insert; lia|done|rewrite length_insert; lia|..].
  - intros j Hj _ x y Hx Hy.
    pose proof (parentpos_lt j Hj).
    destruct (decide (j = pos)) as [->|Hjpos].
    { look_in Hx. look_in Hy. simplify_eq.
      destruct (lookup_lt_is_Some_2 h pos Hpos) as [z Hz].
      eapply le_trans; [apply (Hedges pos Hj); [lia|done|done]|].
      apply (Hedges c); [lia|lia|by rewrite Hcpar|done]. }
    destruct (decide (parentpos j = pos)) as [Hch|Hnch].
    { rewrite Hch in Hx. look_in Hx. look_in Hy. simplify_eq.
      by apply (Hmin j). }
    look_in Hx. look_in Hy. apply (Hedges j); auto.
  - exists h', leaf. rewrite length_insert in *.
    repeat split; auto.
    intros x. rewrite Hperm. apply swap_Permutation; [lia|done|done].
Qed.

Lemma heappop_spec h x h' :
  heap_ok le h → heappop lt_ h = Some (x, h') →
  heap_ok le h' ∧ h ≡ₚ x :: h' ∧ ∀ y, y ∈ h → le x y.
Proof.
  intros Hok Hpop.
  assert (∀ y, y ∈ h → h !! 0 = Some x → le x y) as Hmin.
  { intros y Hy Hx. apply list_elem_of_lookup in Hy as [j Hj].
    by eapply heap_ok_root. }
  revert Hpop. unfold heappop.
  destruct (list.last h) as [lastelt|] eqn:Hlast; [|done].
  apply last_Some in Hlast as [init ->].
  rewrite removelast_last.
  destruct init as [|returnitem rest]; intros ?; simplify_eq.
  { split; [by intros j Hj y z Hy|]. split; [done|]. auto. }
  unfold siftup. simpl.
  edestruct (siftup_loop_spec (lastelt :: rest) 0)
    as (h2 & leaf & -> & Hlen & Hleaf & Hleaf' & Hedges & Hperm);
    [simpl; lia|..].
  { intros j Hj [Hpar|?] y z Hy Hz; [|lia].
    pose proof (parentpos_lt j Hj).
    apply lookup_lt_Some in Hz as Hjlen. simpl in Hjlen.
    apply (Hok j Hj).
    - destruct (parentpos j) as [|p]; [done|]. simpl in *.
      by rewrite lookup_app_l by lia.
    - destruct j as [|j]; [lia|]. simpl in *.
      by rewrite lookup_app_l by lia. }
  simpl in *. unfold siftdown.
  rewrite list_lookup_insert_eq by lia.
  split; [|split; [|auto]].
  - apply siftdown_loop_ok.
    + rewrite length_insert. lia.
    + intros j Hj Hne y z Hy Hz. rewrite list_insert_insert_eq in Hy, Hz.
      apply lookup_lt_Some in Hz as Hjlen. rewrite length_insert in Hjlen.
      pose proof (parentpos_lt j Hj).
      assert (parentpos j ≠ leaf).
      { intros Hpar. apply parentpos_child in Hpar; lia. }
      look_in Hy. look_in Hz. apply (Hedges j); auto.
    + intros j y z _ Hpar Hj _ Hz.
      apply lookup_lt_Some in Hz. rewrite length_insert in Hz.
      apply parentpos_child in Hpar; lia.
  - rewrite siftdown_loop_Permutation by (rewrite length_insert; lia).
    rewrite list_insert_insert_eq, Hperm. simpl.
    rewrite <-Permutation_cons_append. done.
Qed.
End heap_theory.

(** ** Entries of the pending queue *)

Lemma key_le_refl a : key_le a a.
Proof. apply Qle_refl. Qed.

Lemma key_le_trans a b c : key_le a b → key_le b c → key_le a c.
Proof. apply Qle_trans. Qed.

Lemma entry_lt_key_le a b : entry_lt a b = true → key_le a b.
Proof.
  unfold entry_lt, key_le, Qlt_bool.
  destruct (Qeq_bool a.1 b.1) eqn:Heq.
  - intros _. apply Qeq_bool_iff in Heq. rewrite Heq. apply Qle_refl.
  - intros Hlt. apply negb_true_iff in Hlt.
    destruct (Qlt_le_dec a.1 b.1) as [?|Hle]; [by apply Qlt_le_weak|].
    apply Qle_bool_iff in Hle. congruence.
Qed.

Lemma entry_nlt_key_le a b : entry_lt a b = false → key_le b a.
Proof.
  unfold entry_lt, key_le, Qlt_bool.
  destruct (Qeq_bool a.1 b.1) eqn:Heq.
  - intros _. apply Qeq_bool_iff in Heq. rewrite Heq. apply Qle_refl.
  - intros Hlt. apply negb_false_iff in Hlt. by apply Qle_bool_iff.
Qed.

(** ** Float keys

    [round_half_even n d] is within one half of [n / d]. *)





(** The doubles of the model are those of Python: [1 / 3] and [1 / 10] are
    the familiar ones, powers of two are exact, [1 / 2 ** 1075] is [0.0].
    Beyond [2 ** 52] neighbouring priorities share their key. *)
Example float_div_values :
  float_div 1 = (1 # 1)%Q
  ∧ float_div 2 = (1 # 2)%Q
  ∧ float_div 3 = (6004799503160661 # 18014398509481984)%Q
  ∧ float_div 10 = (3602879701896397 # 36028797018963968)%Q
  ∧ float_div (-4) = (-1 # 4)%Q
  ∧ float_div (2 ^ 1075) = (0 # 1)%Q
  ∧ float_div (2 ^ 53 - 1) = float_div (2 ^ 53 - 2)
  ∧ float_div (2 ^ 60 + 1) = float_div (2 ^ 60).
Proof. repeat split; by vm_compute. Qed.

(** ** Rules for the triples *)

Section hoare.
Context {A B : Type}.
Implicit Types (P : JobState → Prop) (R : Exn → JobState → Prop).

Lemma hoare_ret P (Q : A → JobState → Prop) R a :
  (∀ st, P st → Q a st) → hoare P (mret a) Q R.
Proof. intros H st HP. by apply H. Qed.

Lemma hoare_bind P (Q' : A → JobState → Prop) (Q : B → JobState → Prop) R
    (m : M A) (k : A → M B) :
  hoare P m Q' R → (∀ a, hoare (Q' a) (k a) Q R) → hoare P (m ≫= k) Q R.
Proof.
  intros Hm Hk st HP. specialize (Hm st HP).
  unfold mbind, M_bind. destruct (m st); [by apply Hk|done].
Qed.

Lemma hoare_raise P (Q : A → JobState → Prop) R e :
  (∀ st, P st → R e st) → hoare P (raise e) Q R.
Proof. intros H st HP. by apply H. Qed.

Lemma hoare_lift P (Q : A → JobState → Prop) R (x : Exn + A) :
  (∀ a st, x = inr a → P st → Q a st) →
  (∀ e st, x = inl e → P st → R e st) →
  hoare P (lift x) Q R.
Proof. intros HQ HR st HP. destruct x; simpl; auto. Qed.

Lemma hoare_conseq P P' (Q Q' : A → JobState → Prop) R R' (m : M A) :
  hoare P' m Q' R' →
  (∀ st, P st → P' st) → (∀ a st, Q' a st → Q a st) →
  (∀ e st, R' e st → R e st) → hoare P m Q R.
Proof.
  intros Hm HP HQ HR st Hst. specialize (Hm st (HP st Hst)).
  destruct (m st); auto.
Qed.
End hoare.

Lemma hoare_get P R : hoare P get (λ a st, a = st ∧ P st) R.
Proof. by intros st HP. Qed.

Lemma hoare_get_frame P R : hoare P get (λ _, P) R.
Proof. by intros st HP. Qed.

Lemma hoare_modify P (Q : unit → JobState → Prop) R f :
  (∀ st, P st → Q tt (f st)) → hoare P (modify f) Q R.
Proof. intros H st HP. by apply H. Qed.

Lemma hoare_for_each {A} (I : JobState → Prop) R (l : list A)
    (body : A → M unit) :
  (∀ x, x ∈ l → hoare I (body x) (λ _, I) R) →
  hoare I (for_each l body) (λ _, I) R.
Proof.
  induction l as [|x l IH]; intros Hbody; simpl; [by apply hoare_ret|].
  eapply hoare_bind; [apply Hbody; left|].
  intros ?. apply IH. intros y Hy. apply Hbody. by right.
Qed.

Lemma inv_ret {A} I (a : A) : inv I (mret a).
Proof. by apply hoare_ret. Qed.

Lemma inv_raise {A} I e : inv I (raise (A := A) e).
Proof. by apply hoare_raise. Qed.

Lemma inv_lift {A} I (x : Exn + A) : inv I (lift x).
Proof. by apply hoare_lift. Qed.

Lemma inv_bind {A B} I (m : M A) (k : A → M B) :
  inv I m → (∀ a, inv I (k a)) → inv I (m ≫= k).
Proof. intros. by eapply hoare_bind. Qed.

Lemma inv_for_each {A} I (l : list A) (body : A → M unit) :
  (∀ x, x ∈ l → inv I (body x)) → inv I (for_each l body).
Proof. apply hoare_for_each. Qed.

(** ** Counting dispatches *)

Lemma dispatch_count_app s tr tr' :
  dispatch_count s (tr ++ tr') = dispatch_count s tr + dispatch_count s tr'.
Proof. unfold dispatch_count. by rewrite list.filter_app, length_app. Qed.

Lemma dispatch_count_snoc s tr ev :
  dispatch_count s (tr ++ [ev]) =
  if is_dispatch_of s ev then S (dispatch_count s tr) else dispatch_count s tr.
Proof.
  rewrite dispatch_count_app. unfold dispatch_count at 2.
  destruct (is_dispatch_of s ev) eqn:Hs.
  - rewrite filter_cons_True by done. simpl. lia.
  - rewrite filter_cons_False by (by rewrite Hs). simpl. lia.
Qed.

(** ** The invariant of the loop *)

Section invariant.
Context (w : World) (db : Database) (self : Workflow) (run : Run)
        (device : option Device) (start end_ : Service).

Lemma job_inv_initial : job_inv self start end_ initial_state.
Proof.
  split; [|split].
  - intros s. unfold runs_get, dispatch_count. simpl.
    rewrite lookup_empty. simpl. lia.
  - split; [by intros j Hj x y Hx|]. intros k s Hin. by inversion Hin.
  - intros s kwargs Hin. by inversion Hin.
Qed.

Lemma inv_targets_union key devices :
  inv (job_inv self start end_) (targets_union key devices).
Proof. apply hoare_modify. by intros st (? & ? & ?). Qed.

Lemma inv_push_service service :
  inv (job_inv self start end_) (push_service service).
Proof.
  intros st (Hruns & [Hheap Hkeys] & Hrunner).
  unfold push_service, mbind, M_bind, lift.
  destruct (heap_key (priority service)) as [e|key] eqn:Hkey; simpl; [done|].
  split; [done|]. split; [|done]. split; simpl.
  - apply heappush_ok;
      eauto using key_le_trans, entry_lt_key_le, entry_nlt_key_le.
  - intros k s Hin.
    rewrite (heappush_Permutation entry_lt) in Hin.
    apply elem_of_cons in Hin as [?|?]; [|by apply Hkeys].
    by simplify_eq.
Qed.

Lemma inv_pop_service : inv (job_inv self start end_) pop_service.
Proof.
  intros st (Hruns & [Hheap Hkeys] & Hrunner).
  unfold pop_service, mbind, M_bind, get.
  destruct (heappop entry_lt (services st)) as [[[k s] heap']|] eqn:Hpop;
    simpl; [|done].
  destruct (heappop_spec entry_lt key_le key_le_refl key_le_trans
              entry_lt_key_le entry_nlt_key_le _ _ _ Hheap Hpop)
    as (Hheap' & Hperm & _).
  split; [done|]. split; [|done]. split; simpl; [done|].
  intros k' s' Hin. apply Hkeys. rewrite Hperm. by right.
Qed.

Lemma inv_write_state path value mode :
  inv (job_inv self start end_) (write_state path value mode).
Proof.
  apply hoare_modify. intros st (Hruns & Hheap & Hrunner).
  split; [|split; [done|]].
  - intros s. unfold runs_get. simpl. rewrite dispatch_count_snoc.
    simpl. apply Hruns.
  - intros s kwargs Hin. simpl in Hin.
    apply elem_of_app in Hin as [?|Hin]; [by eapply Hrunner|].
    apply list_elem_of_singleton in Hin. done.
Qed.

Lemma inv_follow_edge summary edge_type hop :
  inv (job_inv self start end_) (follow_edge run device summary edge_type hop).
Proof.
  unfold follow_edge. destruct hop as [successor edge].
  apply inv_bind; [destruct successor; [apply inv_ret|apply inv_raise]|].
  intros s. apply inv_bind.
  { case_match; [|apply inv_ret].
    apply inv_bind; [apply inv_lift|]. intros ?. apply inv_targets_union. }
  intros _. apply inv_bind; [apply inv_push_service|]. intros _.
  case_match; [|apply inv_write_state].
  apply inv_bind; [apply inv_lift|]. intros ?. apply inv_write_state.
Qed.

Lemma inv_follow_edges service status summary :
  inv (job_inv self start end_)
    (follow_edges db self run device service status summary).
Proof.
  unfold follow_edges. apply inv_for_each. intros edge_type _.
  case_match; [apply inv_ret|].
  apply inv_bind.
  { case_match; [|apply inv_ret].
    apply inv_bind; [apply inv_lift|]. intros ?. apply inv_ret. }
  intros [|]; [apply inv_ret|].
  apply inv_for_each. intros hop _. apply inv_follow_edge.
Qed.

Lemma inv_propagate service results :
  inv (job_inv self start end_) (propagate db self run device service results).
Proof.
  unfold propagate. apply inv_bind.
  { case_match; [apply inv_write_state|apply inv_ret]. }
  intros _. apply inv_follow_edges.
Qed.

Lemma inv_seed : inv (job_inv self start end_) (seed db run device start).
Proof.
  unfold seed. apply inv_for_each. intros i _.
  apply inv_bind; [apply inv_lift|]. intros service.
  apply inv_bind; [apply inv_targets_union|]. intros _.
  apply inv_push_service.
Qed.

Lemma hoare_count_run service :
  hoare (λ st, job_inv self start end_ st
               ∧ ¬ (maximum_runs service ≤ runs_get st (name service))%Z)
    (count_run service) (λ _, credit self start end_ service)
    (λ _, job_inv self start end_).
Proof.
  apply hoare_modify.
  intros st [(Hruns & Hheap & Hrunner) Hcap].
  assert (∀ s, runs_get st (name s) ≤
            runs_get
              {| number_of_runs :=
                   <[name service := (runs_get st (name service) + 1)%Z]>
                     (number_of_runs st);
                 targets := targets st; services := services st;
                 visited := visited st ∪ {[service_id service]};
                 trace := trace st |} (name s))%Z as Hmono.
  { intros s. unfold runs_get at 2. simpl.
    destruct (decide (name service = name s)) as [Heq|Hne].
    - rewrite Heq, lookup_insert_eq. simpl. lia.
    - rewrite lookup_insert_ne by done. unfold runs_get. lia. }
  split; [split; [|done]|].
  - intros s. simpl. destruct (Hruns s). specialize (Hmono s). lia.
  - simpl. unfold runs_get at 1. simpl. rewrite lookup_insert_eq. simpl.
    destruct (Hruns service). lia.
Qed.

Lemma emit_dispatch service ev :
  is_dispatch_of service ev = true →
  (∀ s, is_dispatch_of s ev = true → s = service) →
  (∀ s kwargs, ev = RunnerInvoked s kwargs →
               is_skipped self start end_ s = false) →
  hoare (credit self start end_ service) (emit ev)
      (λ _, job_inv self start end_) (λ _, job_inv self start end_).
Proof.
  intros Hev Honly Hrun. apply hoare_modify.
  intros st ((Hruns & Hheap & Hrunner) & Hcredit & Hcap).
  split; [|split; [done|]].
  - intros s. unfold runs_get. simpl. rewrite dispatch_count_snoc.
    destruct (is_dispatch_of s ev) eqn:Hs; [|apply Hruns].
    apply Honly in Hs. subst s. unfold runs_get in Hcredit. lia.
  - intros s kwargs Hin. simpl in Hin.
    apply elem_of_app in Hin as [?|Hin]; [by eapply Hrunner|].
    apply list_elem_of_singleton in Hin. by eapply Hrun.
Qed.

Lemma hoare_dispatch service :
  hoare (credit self start end_ service)
    (dispatch w db self run device start end_ service)
    (λ _, job_inv self start end_) (λ _, job_inv self start end_).
Proof.
  assert (∀ ev,
    is_dispatch_of service ev = true →
    (∀ s, is_dispatch_of s ev = true → s = service) →
    (∀ s kwargs, ev = RunnerInvoked s kwargs →
                 is_skipped self start end_ s = false) →
    ∀ results : option Results,
      hoare (credit self start end_ service) (emit ev;; mret results)
        (λ _, job_inv self start end_) (λ _, job_inv self start end_)) as Hemit.
  { intros ev H1 H2 H3 results.
    eapply hoare_bind; [by apply emit_dispatch|].
    intros ?. by apply hoare_ret. }
  unfold dispatch.
  eapply hoare_bind with (Q' := λ _, credit self start end_ service).
  { apply hoare_get_frame. }
  intros st0.
  destruct (is_skipped self start end_ service) eqn:Hskip.
  - apply Hemit; simpl.
    + by apply bool_decide_eq_true_2.
    + intros s Hs. by apply bool_decide_eq_true_1 in Hs.
    + done.
  - eapply hoare_bind with (Q' := λ _, credit self start end_ service).
    + case_match; [|by apply hoare_ret].
      eapply hoare_bind with (Q' := λ _, credit self start end_ service).
      * apply hoare_lift; [done|by intros ?? _ [? _]].
      * intros ds. by apply hoare_ret.
    + intros devices. apply Hemit; simpl.
      * by apply bool_decide_eq_true_2.
      * intros s Hs. by apply bool_decide_eq_true_1 in Hs.
      * by intros s kwargs [= <- _].
Qed.

Lemma inv_iteration i :
  inv (job_inv self start end_) (iteration w db self run device i start end_).
Proof.
  unfold iteration.
  apply inv_bind; [apply hoare_get_frame|]. intros st0.
  destruct (services st0); [apply inv_ret|].
  destruct (run_stop w i); [apply inv_ret|].
  apply inv_bind; [apply inv_pop_service|]. intros service.
  eapply hoare_bind; [apply hoare_get|]. intros st1. simpl.
  case_bool_decide as Hcap; [by apply hoare_ret; intros ? [_ ?]|].
  eapply hoare_bind with (Q' := λ _, credit self start end_ service).
  { eapply hoare_conseq; [apply (hoare_count_run service)|..]; try done.
    by intros st [-> ?]. }
  intros ?. eapply hoare_bind; [apply hoare_dispatch|].
  intros [results|]; [|apply inv_ret].
  apply inv_bind; [apply inv_propagate|]. intros _. apply inv_ret.
Qed.

Lemma job_loop_inv fuel i st :
  job_inv self start end_ st →
  job_inv self start end_
    (job_loop w db self run device fuel i start end_ st).2.
Proof.
  revert i st. induction fuel as [|fuel IH]; intros i st Hinv; [done|].
  simpl. pose proof (inv_iteration i st Hinv) as Hstep.
  destruct (iteration w db self run device i start end_ st)
    as [[| |] st'|e st']; simpl; auto.
Qed.
End invariant.

Lemma job_inv_fetched w db self run device fuel start end_ :
  fetch_service_by_scoped_name db "Start" = inr start →
  fetch_service_by_scoped_name db "End" = inr end_ →
  job_inv self start end_ (job w db self run device fuel).2.
Proof.
  intros Hstart Hend.
  unfold job, prologue, mbind, M_bind, lift. rewrite Hstart, Hend. simpl.
  pose proof (inv_seed db self run device start end_ initial_state
                (job_inv_initial self start end_)) as Hseed.
  destruct (seed db run device start initial_state) as [[] st|e st]; simpl;
    [|done].
  by apply job_loop_inv.
Qed.

Lemma job_runs_inv w db self run device fuel :
  runs_inv (job w db self run device fuel).2.
Proof.
  destruct (fetch_service_by_scoped_name db "Start") as [e|start] eqn:Hstart;
    [|destruct (fetch_service_by_scoped_name db "End")
        as [e|end_] eqn:Hend].
  - unfold job, prologue, mbind, M_bind, lift. rewrite Hstart. simpl.
    apply (job_inv_initial self inhabitant inhabitant).
  - unfold job, prologue, mbind, M_bind, lift. rewrite Hstart, Hend. simpl.
    apply (job_inv_initial self inhabitant inhabitant).
  - by apply (job_inv_fetched w db self run device fuel start end_).
Qed.

(** ** Results of the loop *)

Lemma hoare_trivial {A} (m : M A) :
  hoare (λ _, True) m (λ _ _, True) (λ _ _, True).
Proof. intros st _. by destruct (m st). Qed.

Lemma iteration_return w db self run device i start end_ st r st' :
  iteration w db self run device i start end_ st = Ok (Return r) st' →
  r = aborted run.
Proof.
  assert (hoare (λ _, True) (iteration w db self run device i start end_)
            (λ step _, ∀ r, step = Return r → r = aborted run)
            (λ _ _, True)) as Hit.
  { unfold iteration.
    eapply hoare_bind; [apply hoare_trivial|]. intros st0.
    destruct (services st0); [by apply hoare_ret|].
    destruct (run_stop w i); [apply hoare_ret; congruence|].
    eapply hoare_bind; [apply hoare_trivial|]. intros service.
    eapply hoare_bind; [apply hoare_trivial|]. intros st1.
    case_bool_decide; [by apply hoare_ret|].
    eapply hoare_bind; [apply hoare_trivial|]. intros ?.
    eapply hoare_bind; [apply hoare_trivial|]. intros [results|].
    - eapply hoare_bind; [apply hoare_trivial|]. intros ?.
      by apply hoare_ret.
    - by apply hoare_ret. }
  intros Heq. specialize (Hit st I). rewrite Heq in Hit. by apply Hit.
Qed.

Lemma job_loop_returned w db self run device fuel i start end_ st r st' :
  job_loop w db self run device fuel i start end_ st = (Returned r, st') →
  r = aborted run ∨ r = final_results run device start end_ st'.
Proof.
  revert i st. induction fuel as [|fuel IH]; intros i st; [done|].
  simpl.
  destruct (iteration w db self run device i start end_ st)
    as [[| |] st1|e st1] eqn:Hit; intros Heq.
  - by eapply IH.
  - left. apply iteration_return in Hit. congruence.
  - right. congruence.
  - done.
Qed.

Lemma job_returned w db self run device fuel r st :
  job w db self run device fuel = (Returned r, st) →
  ∃ start end_,
    fetch_service_by_scoped_name db "Start" = inr start
    ∧ fetch_service_by_scoped_name db "End" = inr end_
    ∧ (r = aborted run ∨ r = final_results run device start end_ st).
Proof.
  unfold job, prologue, mbind, M_bind, lift.
  destruct (fetch_service_by_scoped_name db "Start") as [e|start]; [done|].
  destruct (fetch_service_by_scoped_name db "End") as [e|end_]; [done|].
  simpl.
  destruct (seed db run device start initial_state) as [[] st0|e st0];
    [|done].
  simpl. intros Hloop. exists start, end_.
  eauto using job_loop_returned.
Qed.

Lemma pop_service_eq st k service heap' :
  heappop entry_lt (services st) = Some ((k, service), heap') →
  pop_service st = Ok service (with_services st heap').
Proof. intros Hpop. unfold pop_service, mbind, M_bind, get. by rewrite Hpop. Qed.

Lemma heappop_nonempty {A} (lt_ : A → A → bool) heap x :
  heappop lt_ heap = Some x → heap ≠ [].
Proof. by intros Hpop ->. Qed.

(** The part of an evaluation of the loop up to the popped service. *)
Lemma iteration_pop w db self run device i start end_ st k service heap' :
  run_stop w i = false →
  heappop entry_lt (services st) = Some ((k, service), heap') →
  iteration w db self run device i start end_ st =
  (if bool_decide (maximum_runs service ≤ runs_get st (name service))%Z
   then mret Continue
   else
     count_run service;;
     results ← dispatch w db self run device start end_ service;
     match results with
     | None => mret Continue
     | Some results =>
         propagate db self run device service results;; mret Continue
     end) (with_services st heap').
Proof.
  intros Hstop Hpop. unfold iteration at 1.
  unfold mbind at 1, M_bind at 1, get at 1.
  destruct (services st) eqn:Hheap; [by apply heappop_nonempty in Hpop|].
  rewrite Hstop.
  unfold mbind at 1, M_bind at 1.
  rewrite <-Hheap in Hpop. rewrite (pop_service_eq _ _ _ _ Hpop).
  reflexivity.
Qed.

(** * Properties of [Workflow.job] *)

(** C7.  At the top of an evaluation of the loop, when [run.stop] is true
    (and the heap is not empty, so that the loop body is entered), [job]
    returns [{payload: run.payload, success: False, result: "Aborted"}]
    at once: the state, and with it the trace of dispatches and state
    writes, is left as it was. *)
Theorem stop_aborts w db self run device fuel i start end_ st :
  services st ≠ [] →
  run_stop w i = true →
  iteration w db self run device i start end_ st = Ok (Return (aborted run)) st
  ∧ job_loop w db self run device (S fuel) i start end_ st
    = (Returned {| jr_payload := payload run; jr_success := false;
                   jr_result := Some "Aborted"; jr_summary := None |}, st).
Proof.
  intros Hheap Hstop.
  assert (iteration w db self run device i start end_ st
          = Ok (Return (aborted run)) st) as Hit.
  { unfold iteration, mbind, M_bind, get.
    destruct (services st); [done|]. by rewrite Hstop. }
  split; [done|]. simpl. by rewrite Hit.
Qed.

Lemma stop_aborts_witness :
  job_loop Scenario.stopped Scenario.db Scenario.w Scenario.tracking None
    1 0 Scenario.Start Scenario.End_ (Scenario.pending [Scenario.A])
  = (Returned {| jr_payload := 0; jr_success := false;
                 jr_result := Some "Aborted"; jr_summary := None |},
     Scenario.pending [Scenario.A]).
Proof.
  apply (stop_aborts Scenario.stopped Scenario.db Scenario.w
           Scenario.tracking None 0 0 Scenario.Start Scenario.End_
           (Scenario.pending [Scenario.A])).
  - discriminate.
  - reflexivity.
Defined.

(** C2.  In every execution of [job], whatever the fuel and however it
    ends, each service [s] is dispatched (a Runner invoked or a skip result
    synthesized) at most [s.maximum_runs] times (never, when the cap is not
    positive); and a popped service whose counter has reached the cap is
    dropped without a dispatch: the evaluation of the loop ends with only
    the popped entry removed, other entries of the same service staying
    pending. *)
Theorem run_count_cap w db self run device s :
  (∀ fuel,
     (Z.of_nat (dispatch_count s (trace (job w db self run device fuel).2))
      ≤ Z.max 0 (maximum_runs s))%Z)
  ∧ (∀ i start end_ st k heap',
       run_stop w i = false →
       heappop entry_lt (services st) = Some ((k, s), heap') →
       (maximum_runs s ≤ runs_get st (name s))%Z →
       iteration w db self run device i start end_ st
       = Ok Continue (with_services st heap')).
Proof.
  split.
  - intros fuel. apply job_runs_inv.
  - intros i start end_ st k heap' Hstop Hpop Hcap.
    rewrite (iteration_pop _ _ _ _ _ _ _ _ _ _ _ _ Hstop Hpop).
    by rewrite bool_decide_eq_true_2.
Qed.

Lemma run_count_cap_witness :
  iteration Scenario.world Scenario.db Scenario.w Scenario.tracking None 0
    Scenario.Start Scenario.End_ Scenario.exhausted
  = Ok Continue
      (with_services Scenario.exhausted [Scenario.entry Scenario.A]).
Proof.
  apply (proj2 (run_count_cap Scenario.world Scenario.db Scenario.w
                  Scenario.tracking None Scenario.A)
           0 Scenario.Start Scenario.End_ Scenario.exhausted
           (float_div 1) [Scenario.entry Scenario.A]).
  - reflexivity.
  - reflexivity.
  - vm_compute. discriminate.
Defined.

(** On a whole run: the looping service [A] of the scenario, with
    [maximum_runs = 2], is dispatched exactly twice. *)
Example loop_dispatched_twice :
  let '(outcome, st) :=
    job Scenario.world Scenario.db Scenario.w Scenario.tracking None 20 in
  (∃ r, outcome = Returned r) ∧ dispatch_count Scenario.A (trace st) = 2.
Proof. vm_compute. split; [eauto|done]. Qed.

(** C4 (amended).  A dispatched service that is [Start], [End] or skipped in
    the workflow is not handed to a Runner, whatever the Runner would do:
    the only event is the synthesized skip, and no trace of [job] ever
    holds a Runner invocation for such a service.  The results are
    [{result: "skipped", success: skip_value == "success"}] and, when
    [run_method] is [per_service_with_workflow_targets] or a device is
    given, the summary [{success: targets[s.name], failure: []}]; in every
    other mode there is no summary. *)
Theorem skipped_service_results w db self run device start end_ :
  (∀ service st,
     is_skipped self start end_ service = true →
     dispatch w db self run device start end_ service st
     = Ok (Some {| res_success := bool_decide (skip_value service = "success");
                   res_result := Some "skipped";
                   res_summary :=
                     if bool_decide (run_method run
                                     = "per_service_with_workflow_targets")
                        || bool_decide (is_Some device)
                     then Some {[ "success" :=
                                    elements (targets_get st (name service));
                                  "failure" := [] ]}
                     else None |})
          (with_event st (SkipSynthesized service)))
  ∧ (∀ fuel service kwargs,
       fetch_service_by_scoped_name db "Start" = inr start →
       fetch_service_by_scoped_name db "End" = inr end_ →
       RunnerInvoked service kwargs
         ∈ trace (job w db self run device fuel).2 →
       is_skipped self start end_ service = false).
Proof.
  split.
  - intros service st Hskip.
    unfold dispatch, mbind, M_bind, get. by rewrite Hskip.
  - intros fuel service kwargs Hstart Hend Hin.
    pose proof (job_inv_fetched w db self run device fuel _ _ Hstart Hend)
      as (_ & _ & Hrunner).
    by eapply Hrunner.
Qed.

Lemma skipped_service_results_witness :
  dispatch Scenario.world Scenario.db Scenario.w Scenario.tracking None
    Scenario.Start Scenario.End_ Scenario.Start
    (Scenario.pending [Scenario.A])
  = Ok (Some {| res_success := true; res_result := Some "skipped";
                res_summary := Some {[ "success" := []; "failure" := [] ]} |})
       (with_event (Scenario.pending [Scenario.A])
          (SkipSynthesized Scenario.Start)).
Proof.
  apply (proj1 (skipped_service_results Scenario.world Scenario.db
                  Scenario.w Scenario.tracking None
                  Scenario.Start Scenario.End_)
           Scenario.Start (Scenario.pending [Scenario.A])).
  reflexivity.
Defined.

(** C4 as stated fails in the mode [per_service_with_service_targets]
    without a device: the skip result of [Start] carries no summary. *)
Lemma skipped_summary_counterexample :
  run_method Scenario.service_targets = "per_service_with_service_targets"
  ∧ is_skipped Scenario.w Scenario.Start Scenario.End_ Scenario.Start = true
  ∧ dispatch Scenario.world Scenario.db Scenario.w Scenario.service_targets
      None Scenario.Start Scenario.End_ Scenario.Start
      (Scenario.pending [Scenario.A])
    = Ok (Some {| res_success := true; res_result := Some "skipped";
                  res_summary := None |})
         (with_event (Scenario.pending [Scenario.A])
            (SkipSynthesized Scenario.Start)).
Proof. by vm_compute. Qed.

(** ** Missing summaries *)

Lemma follow_edges_missing_success db self run device service status st
    (summary : gmap string (list string)) :
  tracking_bfs run = true →
  summary !! "success" = None →
  follow_edges db self run device service status summary st
  = Raise (KeyError "success") st.
Proof.
  intros Htrack Hnone.
  unfold follow_edges. simpl. unfold mbind, M_bind, lift, summary_get.
  by rewrite Htrack, Hnone.
Qed.

Lemma propagate_missing_summary db self run device service results st :
  tracking_bfs run = true →
  res_summary results = None →
  propagate db self run device service results st
  = Raise (KeyError "success") st.
Proof.
  intros Htrack Hnone. unfold propagate. rewrite Hnone. simpl.
  unfold mbind at 1, M_bind at 1. rewrite Htrack. simpl.
  by apply follow_edges_missing_success.
Qed.

Lemma hoare_follow_edge_no_key_error run device summary edge_type hop :
  is_Some (summary !! edge_type) →
  hoare (λ _, True) (follow_edge run device summary edge_type hop)
    (λ _ _, True) (λ e _, ∀ k, e ≠ KeyError k).
Proof.
  intros [devices Hdev]. unfold follow_edge, summary_get. rewrite Hdev.
  destruct hop as [successor edge].
  eapply hoare_bind with (Q' := λ _ _, True).
  { destruct successor; [by apply hoare_ret|by apply hoare_raise]. }
  intros s. eapply hoare_bind with (Q' := λ _ _, True).
  { destruct (tracks_targets run device); [|by apply hoare_ret].
    eapply hoare_bind with (Q' := λ _ _, True); [by apply hoare_ret|].
    intros ?. by apply hoare_modify. }
  intros ?. eapply hoare_bind with (Q' := λ _ _, True).
  { unfold push_service.
    eapply hoare_bind with (Q' := λ _ _, True).
    - apply hoare_lift; [done|]. intros e st He _ k ->.
      unfold heap_key in He. by case_decide.
    - intros ?. by apply hoare_modify. }
  intros ?. destruct (tracks_targets run device); [|by apply hoare_modify].
  eapply hoare_bind with (Q' := λ _ _, True); [by apply hoare_ret|].
  intros ?. by apply hoare_modify.
Qed.

Lemma hoare_propagate_no_key_error db self run device service results
    (summary : gmap string (list string)) :
  res_summary results = Some summary →
  is_Some (summary !! "success") →
  is_Some (summary !! "failure") →
  hoare (λ _, True) (propagate db self run device service results)
    (λ _ _, True) (λ e _, ∀ k, e ≠ KeyError k).
Proof.
  intros Hsum Hsuccess Hfailure. unfold propagate. rewrite Hsum. simpl.
  generalize (if res_success results then "success" else "failure").
  intros status.
  eapply hoare_bind with (Q' := λ _ _, True).
  { destruct (negb (tracking_bfs run) && negb (bool_decide (is_Some device)));
      [by apply hoare_modify|by apply hoare_ret]. }
  intros ?. unfold follow_edges.
  apply (hoare_for_each (λ _, True)). intros edge_type Hin.
  assert (is_Some (summary !! edge_type)) as [devices Hdev].
  { apply elem_of_cons in Hin as [->|Hin]; [done|].
    apply list_elem_of_singleton in Hin as ->. done. }
  destruct (negb (tracking_bfs run)
            && negb (bool_decide (edge_type = status)));
    [by apply hoare_ret|].
  eapply hoare_bind with (Q' := λ _ _, True).
  { destruct (tracking_bfs run); [|by apply hoare_ret].
    unfold summary_get. rewrite Hdev.
    eapply hoare_bind with (Q' := λ _ _, True); [by apply hoare_ret|].
    intros ?. by apply hoare_ret. }
  intros [|]; [by apply hoare_ret|].
  apply (hoare_for_each (λ _, True)). intros hop _.
  apply hoare_follow_edge_no_key_error. by rewrite Hdev.
Qed.

(** C3 (amended).  A run of [job] that returns by exhausting the heap, in
    tracking mode or with a device, returns the summary
    [{success: targets[End.name],
      failure: targets[Start.name] \ targets[End.name]}], and its [success]
    is true exactly when [targets[Start.name]] is included in
    [targets[End.name]]; when moreover [targets[End.name]] is included in
    [targets[Start.name]], [success] is true exactly when the two sets are
    equal.  The inclusion of [targets[End.name]] in [targets[Start.name]]
    itself is not guaranteed. *)
Theorem final_summary w db self run device fuel r st :
  job w db self run device fuel = (Returned r, st) →
  tracks_targets run device = true →
  jr_result r = None →
  ∃ start end_,
    fetch_service_by_scoped_name db "Start" = inr start
    ∧ fetch_service_by_scoped_name db "End" = inr end_
    ∧ let at_start := targets_get st (name start) in
      let at_end := targets_get st (name end_) in
      jr_summary r
      = Some {[ "success" := elements at_end;
                "failure" := elements (at_start ∖ at_end) ]}
      ∧ (jr_success r = true ↔ at_start ⊆ at_end)
      ∧ (at_end ⊆ at_start → (jr_success r = true ↔ at_end = at_start)).
Proof.
  intros Hjob Htracks Hresult.
  destruct (job_returned _ _ _ _ _ _ _ _ Hjob)
    as (start & end_ & Hstart & Hend & [->| ->]); [done|].
  exists start, end_. split; [done|]. split; [done|].
  unfold final_results. rewrite Htracks. simpl.
  assert (bool_decide
            (elements (targets_get st (name start)
                       ∖ targets_get st (name end_)) = []) = true
          ↔ targets_get st (name start) ⊆ targets_get st (name end_))
    as Hiff.
  { rewrite bool_decide_eq_true, elements_empty_iff.
    split; intros H x; specialize (H x); set_unfold; [|tauto].
    destruct (decide (x ∈ targets_get st (name end_))); tauto. }
  split; [done|]. split; [done|].
  intros Hsub. rewrite Hiff. split; [|by intros ->].
  intros Hsub'. apply set_eq. intros x. split; [apply Hsub|apply Hsub'].
Qed.

Lemma final_summary_witness :
  ∃ start end_,
    fetch_service_by_scoped_name Scenario.db "Start" = inr start
    ∧ fetch_service_by_scoped_name Scenario.db "End" = inr end_
    ∧ let st := (job Scenario.world Scenario.db Scenario.w Restart.run
                   None 5).2 in
      let r := final_results Restart.run None Scenario.Start Scenario.End_
                 st in
      let at_start := targets_get st (name start) in
      let at_end := targets_get st (name end_) in
      jr_summary r
      = Some {[ "success" := elements at_end;
                "failure" := elements (at_start ∖ at_end) ]}
      ∧ (jr_success r = true ↔ at_start ⊆ at_end)
      ∧ (at_end ⊆ at_start → (jr_success r = true ↔ at_end = at_start)).
Proof.
  apply (final_summary Scenario.world Scenario.db Scenario.w Restart.run
           None 5); reflexivity.
Defined.

(** C3 as stated fails for a run seeded at [End] only:
    [targets[Start.name]] stays empty while [targets[End.name]] holds both
    devices, and [success] is true although the two sets differ. *)
Lemma target_closure_counterexample :
  let result :=
    job Scenario.world Scenario.db Scenario.w Restart.run None 5 in
  ∃ r,
    result.1 = Returned r
    ∧ jr_result r = None
    ∧ jr_success r = true
    ∧ ¬ targets_get result.2 "End" ⊆ targets_get result.2 "Start"
    ∧ targets_get result.2 "End" ≠ targets_get result.2 "Start".
Proof.
  intros result.
  assert ("d1" ∈ targets_get result.2 "End") as Hin.
  { apply elem_of_elements. vm_compute. apply list_elem_of_In. simpl. auto. }
  assert ("d1" ∉ targets_get result.2 "Start") as Hnotin.
  { rewrite <-elem_of_elements. vm_compute. by intros ?%elem_of_nil. }
  eexists. split; [vm_compute; reflexivity|].
  split; [reflexivity|]. split; [reflexivity|].
  split.
  - intros Hsub. apply Hnotin, Hsub, Hin.
  - intros Heq. apply Hnotin. rewrite <-Heq. exact Hin.
Qed.

(** ** Propagation along edges in tracking mode *)




Section propagation.
Context (db : Database) (self : Workflow) (run : Run)
        (device : option Device).
Hypothesis tracking : tracking_bfs run = true.




End propagation.

(** ** The order of dispatch *)

Lemma reachable_inv w db self run device start end_ i st :
  reachable w db self run device start end_ i st →
  job_inv self start end_ st.
Proof.
  induction 1 as [st Hpro|i st st' _ IH Hit].
  - revert Hpro. unfold prologue, mbind, M_bind, lift.
    destruct (fetch_service_by_scoped_name db "Start") as [?|start'];
      [done|].
    destruct (fetch_service_by_scoped_name db "End") as [?|end']; [done|].
    simpl.
    destruct (seed db run device start' initial_state) as [[] st0|e st0]
      eqn:Hseed; [|done].
    simpl. intros [= -> -> ->].
    pose proof (inv_seed db self run device start end_ initial_state
                  (job_inv_initial self start end_)) as Hinv.
    by rewrite Hseed in Hinv.
  - pose proof (inv_iteration w db self run device start end_ i st IH)
      as Hstep.
    by rewrite Hit in Hstep.
Qed.

(** ** Termination *)

Lemma sum_list_fmap_lt {A} (f g : A → nat) l x :
  (∀ y, y ∈ l → f y ≤ g y) → x ∈ l → f x < g x →
  sum_list (f <$> l) < sum_list (g <$> l).
Proof.
  intros Hle Hx Hlt.
  assert (∀ l', (∀ y, y ∈ l' → f y ≤ g y) →
                sum_list (f <$> l') ≤ sum_list (g <$> l')) as Hmono.
  { induction l' as [|y l' IH]; intros Hl'; csimpl; [done|].
    pose proof (Hl' y ltac:(left)).
    pose proof (IH (λ z Hz, Hl' z ltac:(by right))). lia. }
  induction l as [|y l IH]; [by inversion Hx|].
  csimpl. apply elem_of_cons in Hx as [<-|Hx].
  - pose proof (Hmono l (λ z Hz, Hle z ltac:(by right))). lia.
  - pose proof (Hle y ltac:(left)).
    pose proof (IH (λ z Hz, Hle z ltac:(by right)) Hx). lia.
Qed.

Lemma budget_ext db st st' :
  number_of_runs st = number_of_runs st' → budget db st = budget db st'.
Proof.
  intros Heq. unfold budget. f_equal. apply list_fmap_ext.
  intros _ s _. unfold allowance, runs_get. by rewrite Heq.
Qed.

Lemma fetch_service_by_id_in db i s :
  fetch_service_by_id db i = inr s → s ∈ db_services db.
Proof.
  unfold fetch_service_by_id.
  destruct (List.find _ _) as [s'|] eqn:Hfind; [|done].
  intros [= <-]. apply find_some in Hfind as [Hin _].
  by apply list_elem_of_In.
Qed.

Lemma peer_in db direction edge s :
  peer db direction edge = Some s → s ∈ db_services db.
Proof.
  unfold peer. intros Hfind. apply find_some in Hfind as [Hin _].
  by apply list_elem_of_In.
Qed.

Lemma neighbors_in db service self direction subtype_ hop s :
  hop ∈ neighbors db service self direction subtype_ →
  hop.1 = Some s → s ∈ db_services db.
Proof.
  unfold neighbors. intros (edge & -> & _)%list_elem_of_fmap. simpl.
  apply peer_in.
Qed.

Lemma neighbors_length db service self direction subtype_ :
  length (neighbors db service self direction subtype_)
  ≤ length (db_edges db).
Proof.
  unfold neighbors, service_edges. rewrite length_fmap.
  etrans; [apply length_filter|]. apply length_filter.
Qed.

Section termination.
Context (w : World) (db : Database) (self : Workflow) (run : Run)
      (device : option Device).
Implicit Types (R : gmap string Z) (n : nat).

Lemma bounded_mono R n m st : bounded db R n st → n ≤ m → bounded db R m st.
Proof. intros (? & ? & ?) ?. split; [done|]. split; [lia|done]. Qed.

Lemma bounded_lift {A} R n (x : Exn + A) :
hoare (bounded db R n) (lift x) (λ _, bounded db R n) (λ _ _, True).
Proof. by apply hoare_lift. Qed.

Lemma bounded_targets_union R n key devices :
hoare (bounded db R n) (targets_union key devices)
  (λ _, bounded db R n) (λ _ _, True).
Proof. apply hoare_modify. by intros st (? & ? & ?). Qed.

Lemma bounded_emit R n ev :
hoare (bounded db R n) (emit ev) (λ _, bounded db R n) (λ _ _, True).
Proof. apply hoare_modify. by intros st (? & ? & ?). Qed.

Lemma bounded_push_service R n service :
service ∈ db_services db →
hoare (bounded db R n) (push_service service)
  (λ _, bounded db R (S n)) (λ _ _, True).
Proof.
intros Hin. unfold push_service.
eapply hoare_bind; [apply bounded_lift|]. intros key.
apply hoare_modify. intros st (HR & Hlen & Hdb).
split; [done|]. split; simpl.
- rewrite (Permutation_length (heappush_Permutation entry_lt _ _)).
  simpl. lia.
- intros entry Hentry. simpl in Hentry.
  rewrite (heappush_Permutation entry_lt) in Hentry.
  apply elem_of_cons in Hentry as [->|?]; [done|by apply Hdb].
Qed.

Lemma bounded_follow_edge R n summary edge_type hop :
(∀ s, hop.1 = Some s → s ∈ db_services db) →
hoare (bounded db R n) (follow_edge run device summary edge_type hop)
  (λ _, bounded db R (S n)) (λ _ _, True).
Proof.
intros Hin. unfold follow_edge. destruct hop as [successor edge].
eapply hoare_bind with
  (Q' := λ s st, s ∈ db_services db ∧ bounded db R n st).
{ destruct successor as [s|]; [|by apply hoare_raise].
  apply hoare_ret. intros st Hst. split; [by apply Hin|done]. }
intros s. eapply hoare_bind with
  (Q' := λ _ st, s ∈ db_services db ∧ bounded db R n st).
{ case_match.
  - eapply hoare_bind with
      (Q' := λ _ st, s ∈ db_services db ∧ bounded db R n st).
    + by apply hoare_lift.
    + intros devices. apply hoare_modify.
      by intros st (? & ? & ? & ?).
  - by apply hoare_ret. }
intros ?. eapply hoare_bind with (Q' := λ _, bounded db R (S n)).
{ intros st [Hs Hst]. by apply (bounded_push_service R n s Hs st). }
intros ?. case_match; [|apply bounded_emit].
eapply hoare_bind; [apply bounded_lift|]. intros devices.
apply bounded_emit.
Qed.

Lemma bounded_for_each_hops R summary edge_type l :
(∀ hop s, hop ∈ l → hop.1 = Some s → s ∈ db_services db) →
∀ n,
  hoare (bounded db R n)
    (for_each l (follow_edge run device summary edge_type))
    (λ _, bounded db R (n + length l)) (λ _ _, True).
Proof.
induction l as [|hop l IH]; intros Hin n; simpl.
- apply hoare_ret. intros st Hst. by rewrite Nat.add_0_r.
- eapply hoare_bind.
  + apply bounded_follow_edge. intros s. apply Hin. left.
  + intros ?. replace (n + S (length l)) with (S n + length l) by lia.
    apply IH. intros hop' s Hhop. apply Hin. by right.
Qed.

Lemma bounded_follow_edges R n service status summary :
hoare (bounded db R n)
  (follow_edges db self run device service status summary)
  (λ _, bounded db R (n + 2 * length (db_edges db))) (λ _ _, True).
Proof.
assert (∀ edge_type m,
  hoare (bounded db R m)
    (if negb (tracking_bfs run)
        && negb (bool_decide (edge_type = status))
     then mret tt
     else
       empty ←
         (if tracking_bfs run then
            devices ← lift (summary_get summary edge_type);
            mret (bool_decide (devices = []))
          else mret false);
       if (empty : bool) then mret tt
       else for_each (neighbors db service self destination edge_type)
              (follow_edge run device summary edge_type))
    (λ _, bounded db R (m + length (db_edges db))) (λ _ _, True))
  as Hstep.
{ intros edge_type m.
  assert (∀ st, bounded db R m st →
                bounded db R (m + length (db_edges db)) st) as Hweak.
  { intros st Hst. eapply bounded_mono; [done|lia]. }
  case_match; [by apply hoare_ret|].
  eapply hoare_bind with (Q' := λ _, bounded db R m).
  { case_match; [|by apply hoare_ret].
    eapply hoare_bind; [apply bounded_lift|]. intros ?.
    by apply hoare_ret. }
  intros [|]; [by apply hoare_ret|].
  eapply hoare_conseq;
    [apply (bounded_for_each_hops R summary edge_type _
              (neighbors_in db service self destination edge_type) m)
    |done| |done].
  intros ? st Hst. eapply bounded_mono; [exact Hst|].
  pose proof (neighbors_length db service self destination edge_type).
  lia. }
unfold follow_edges. cbn [for_each].
eapply hoare_bind; [apply Hstep|]. intros ?.
eapply hoare_bind; [apply Hstep|]. intros ?.
apply hoare_ret. intros st Hst. eapply bounded_mono; [done|lia].
Qed.

Lemma bounded_propagate R n service results :
hoare (bounded db R n) (propagate db self run device service results)
  (λ _, bounded db R (n + 2 * length (db_edges db))) (λ _ _, True).
Proof.
unfold propagate. eapply hoare_bind with (Q' := λ _, bounded db R n).
{ case_match; [apply bounded_emit|by apply hoare_ret]. }
intros ?. apply bounded_follow_edges.
Qed.

Lemma bounded_dispatch R n start end_ service :
hoare (bounded db R n)
  (dispatch w db self run device start end_ service)
  (λ _, bounded db R n) (λ _ _, True).
Proof.
unfold dispatch.
eapply hoare_bind; [apply hoare_get_frame|]. intros st0.
case_match.
- eapply hoare_bind; [apply bounded_emit|]. intros ?. by apply hoare_ret.
- eapply hoare_bind with (Q' := λ _, bounded db R n).
  + case_match; [|by apply hoare_ret].
    eapply hoare_bind; [apply bounded_lift|]. intros ?.
    by apply hoare_ret.
  + intros devices.
    eapply hoare_bind; [apply bounded_emit|]. intros ?.
    by apply hoare_ret.
Qed.

Lemma heap_in_db_seed start :
hoare (heap_in_db db) (seed db run device start)
  (λ _, heap_in_db db) (λ _ _, True).
Proof.
assert (∀ st, heap_in_db db st
              ↔ bounded db (number_of_runs st) (length (services st)) st)
  as Hbounded.
{ intros st. split; [by intros ?|by intros (_ & _ & ?)]. }
unfold seed. apply hoare_for_each. intros i _ st Hst.
unfold mbind at 1, M_bind at 1, lift.
destruct (fetch_service_by_id db i) as [e|service] eqn:Hfetch; [done|].
simpl. apply fetch_service_by_id_in in Hfetch.
assert (hoare (bounded db (number_of_runs st) (length (services st)))
          (targets_union (name service)
             (list_to_set (start_targets run device));;
           push_service service)
          (λ _, bounded db (number_of_runs st) (S (length (services st))))
          (λ _ _, True)) as Hbody.
{ eapply hoare_bind; [apply bounded_targets_union|]. intros ?.
  by apply bounded_push_service. }
specialize (Hbody st (proj1 (Hbounded st) Hst)).
destruct ((targets_union _ _;; push_service service) st) as [[] st'|e st'].
- by destruct Hbody as (_ & _ & ?).
- done.
Qed.
End termination.

Lemma heappop_is_Some {A} (lt_ : A → A → bool) heap :
  heap ≠ [] → is_Some (heappop lt_ heap).
Proof.
  intros Hne. unfold heappop.
  destruct (list.last heap) eqn:Hlast; [|by apply last_None in Hlast].
  destruct (removelast heap); eauto.
Qed.

Section termination_loop.
Context (w : World) (db : Database) (self : Workflow) (run : Run)
      (device : option Device) (start end_ : Service).

Lemma budget_count_run service st :
service ∈ db_services db →
(runs_get st (name service) < maximum_runs service)%Z →
∃ st', count_run service st = Ok tt st'
       ∧ services st' = services st
       ∧ budget db st' < budget db st.
Proof.
intros Hin Hcap. eexists. split; [reflexivity|]. split; [done|].
unfold budget. apply sum_list_fmap_lt with service; [|done|].
- intros s _. unfold allowance, runs_get. simpl.
  destruct (decide (name service = name s)) as [Heq|Hne].
  + rewrite Heq, lookup_insert_eq. simpl. lia.
  + rewrite lookup_insert_ne by done. lia.
- unfold allowance, runs_get in *. simpl.
  rewrite lookup_insert_eq. simpl. lia.
Qed.

(** An evaluation of the loop that asks for another one has used up
  fuel. *)
Lemma iteration_decreases i st st' :
job_inv self start end_ st → heap_in_db db st →
iteration w db self run device i start end_ st = Ok Continue st' →
heap_in_db db st' ∧ fuel_left db st' < fuel_left db st.
Proof.
intros (_ & [Hheap _] & _) Hdb Hit.
destruct (run_stop w i) eqn:Hstop.
{ revert Hit. unfold iteration, mbind, M_bind, get.
  destruct (services st); [done|]. by rewrite Hstop. }
destruct (heappop_is_Some entry_lt (services st))
  as [[[k service] heap'] Hpop].
{ intros Hs. revert Hit. unfold iteration, mbind, M_bind, get.
  by rewrite Hs. }
rewrite (iteration_pop _ _ _ _ _ _ _ _ _ _ _ _ Hstop Hpop) in Hit.
destruct (heappop_spec entry_lt key_le key_le_refl key_le_trans
            entry_lt_key_le entry_nlt_key_le _ _ _ Hheap Hpop)
  as (_ & Hperm & _).
pose proof (Permutation_length Hperm) as Hlen. simpl in Hlen.
assert (service ∈ db_services db) as Hs.
{ apply (Hdb (k, service)). rewrite Hperm. left. }
assert (heap_in_db db (with_services st heap')) as Hdb'.
{ intros entry Hentry. apply Hdb. rewrite Hperm. by right. }
case_bool_decide as Hcap.
- injection Hit as <-. split; [done|].
  unfold fuel_left. rewrite (budget_ext db _ st) by done. simpl. lia.
- destruct (budget_count_run service (with_services st heap') Hs)
    as (st2 & Hcount & Hserv & Hbudget).
  { unfold runs_get in *. simpl. lia. }
  unfold mbind at 1, M_bind at 1 in Hit. rewrite Hcount in Hit.
  assert (hoare (bounded db (number_of_runs st2) (length heap'))
            (results ← dispatch w db self run device start end_ service;
             match results with
             | None => mret Continue
             | Some results =>
                 propagate db self run device service results;;
                 mret Continue
             end)
            (λ _, bounded db (number_of_runs st2)
                    (length heap' + 2 * length (db_edges db)))
            (λ _ _, True)) as Hrest.
  { eapply hoare_bind; [apply bounded_dispatch|]. intros [results|].
    - eapply hoare_bind; [apply bounded_propagate|]. intros ?.
      by apply hoare_ret.
    - apply hoare_ret. intros st0 Hst0.
      eapply bounded_mono; [exact Hst0|lia]. }
  specialize (Hrest st2). rewrite Hit in Hrest.
  destruct Hrest as (Hruns & Hlen' & Hdb'').
  { split; [done|]. split; [by rewrite Hserv|].
    intros entry. rewrite Hserv. apply Hdb'. }
  split; [done|]. unfold fuel_left.
  rewrite (budget_ext db st' st2) by done.
  rewrite (budget_ext db (with_services st heap') st) in Hbudget by done.
  nia.
Qed.

(** With more fuel than [fuel_left], the loop ends: by a return or by an
  exception. *)
Lemma job_loop_terminates fuel i st :
job_inv self start end_ st → heap_in_db db st →
fuel_left db st < fuel →
(job_loop w db self run device fuel i start end_ st).1 ≠ OutOfFuel.
Proof.
revert i st.
induction fuel as [|fuel IH]; intros i st Hinv Hdb Hfuel; [lia|].
simpl.
pose proof (inv_iteration w db self run device start end_ i st Hinv)
  as Hinv'.
destruct (iteration w db self run device i start end_ st)
  as [[| |] st'|e st'] eqn:Hit; simpl; try done.
destruct (iteration_decreases i st st' Hinv Hdb Hit) as [Hdb' Hlt].
apply IH; [done..|lia].
Qed.

(** Fuel beyond what a run needs changes nothing. *)
Lemma job_loop_fuel_mono fuel fuel' i st :
(job_loop w db self run device fuel i start end_ st).1 ≠ OutOfFuel →
fuel ≤ fuel' →
job_loop w db self run device fuel' i start end_ st
= job_loop w db self run device fuel i start end_ st.
Proof.
revert fuel' i st.
induction fuel as [|fuel IH]; intros fuel' i st Hout Hle; [done|].
destruct fuel' as [|fuel']; [lia|]. simpl in *.
destruct (iteration w db self run device i start end_ st)
  as [[| |] st'|e st']; try done.
apply IH; [done|lia].
Qed.
End termination_loop.

Lemma job_fuel_mono w db self run device fuel fuel' :
  (job w db self run device fuel).1 ≠ OutOfFuel →
  fuel ≤ fuel' →
  job w db self run device fuel' = job w db self run device fuel.
Proof.
  unfold job.
  destruct (prologue db run device initial_state) as [[start end_] st|e st];
    [|done].
  apply job_loop_fuel_mono.
Qed.

(** X1.  [job] terminates: whatever the database, the run and the answers
    of the Runners, some amount of fuel lets [job] end with a return or an
    exception (never out of fuel), and more fuel gives the same outcome and
    the same final state.  The [while] loop of [job] therefore runs finitely
    often: at most [maximum_runs] dispatches per service, each pushing at
    most one entry per edge and edge type. *)
Theorem job_terminates w db self run device :
  ∃ fuel, ∀ fuel', fuel ≤ fuel' →
    (job w db self run device fuel').1 ≠ OutOfFuel
    ∧ job w db self run device fuel' = job w db self run device fuel.
Proof.
  unfold job.
  destruct (prologue db run device initial_state)
    as [[start end_] st|e st] eqn:Hpro; [|by exists 0].
  exists (S (fuel_left db st)). intros fuel' Hle.
  assert (job_inv self start end_ st) as Hinv.
  { eapply (reachable_inv w db self run device start end_ 0).
    by apply reachable_seeded. }
  assert (heap_in_db db st) as Hdb.
  { revert Hpro. unfold prologue, mbind, M_bind, lift.
    destruct (fetch_service_by_scoped_name db "Start") as [?|start'];
      [done|].
    destruct (fetch_service_by_scoped_name db "End") as [?|end']; [done|].
    simpl.
    pose proof (heap_in_db_seed db run device start' initial_state) as Hseed.
    destruct (seed db run device start' initial_state) as [[] st0|e st0];
      [|done].
    simpl. intros [= _ _ <-]. apply Hseed. by intros entry Hin%elem_of_nil. }
  pose proof (job_loop_terminates w db self run device start end_
                (S (fuel_left db st)) 0 st Hinv Hdb ltac:(lia)) as Hterm.
  by rewrite (job_loop_fuel_mono w db self run device start end_
                _ _ _ _ Hterm Hle).
Qed.

(** On the scenario: twenty evaluations are more than enough. *)
Example job_terminates_scenario :
  ∃ r st,
    ∀ fuel, 20 ≤ fuel →
      job Scenario.world Scenario.db Scenario.w Scenario.tracking None fuel
      = (Returned r, st).
Proof.
  eexists _, _. intros fuel Hle.
  rewrite (job_fuel_mono Scenario.world Scenario.db Scenario.w
             Scenario.tracking None 20 fuel); [|by vm_compute|done].
  vm_compute. reflexivity.
Qed.

(** ** Runs that do not raise *)

Lemma heappop_Permutation {A} (lt_ : A → A → bool) h x h' :
  heappop lt_ h = Some (x, h') → h ≡ₚ x :: h'.
Proof.
  intros Hpop.
  assert (heap_ok (λ _ _ : A, True) h) as Hok by done.
  by destruct (heappop_spec lt_ (λ _ _, True) (λ _, I) (λ _ _ _ _ _, I)
                 (λ _ _ _, I) (λ _ _ _, I) h x h' Hok Hpop) as (_ & ? & _).
Qed.

Lemma fetch_devices_ok db names :
  (∀ n, n ∈ names → n ∈ db_devices db) → fetch_devices db names = inr names.
Proof.
  induction names as [|n names IH]; intros Hin; simpl; [done|].
  unfold fetch_device. rewrite decide_True by (apply Hin; left).
  rewrite IH; [done|]. intros n' ?. apply Hin. by right.
Qed.

Lemma fetch_service_by_id_member db s :
  s ∈ db_services db → ∃ s', fetch_service_by_id db (service_id s) = inr s'.
Proof.
  intros Hin. unfold fetch_service_by_id.
  destruct (List.find _ _) as [s'|] eqn:Hfind; [by eauto|].
  apply list_elem_of_In in Hin.
  pose proof (find_none _ _ Hfind s Hin) as Hs. simpl in Hs.
  by rewrite bool_decide_eq_true_2 in Hs.
Qed.

Lemma fetch_service_by_scoped_name_in db n s :
  fetch_service_by_scoped_name db n = inr s → s ∈ db_services db.
Proof.
  unfold fetch_service_by_scoped_name.
  destruct (List.find _ _) as [s'|] eqn:Hfind; [|done].
  intros [= <-]. apply find_some in Hfind as [Hin _].
  by apply list_elem_of_In.
Qed.

Lemma tracking_bfs_tracks_targets run device :
  tracking_bfs run = true → tracks_targets run device = true.
Proof. unfold tracks_targets. by intros ->. Qed.

Lemma hoare_assume {A} (φ : Prop) P (m : M A) Q R :
  (φ → hoare P m Q R) → hoare (λ st, φ ∧ P st) m Q R.
Proof. intros Hm st [Hφ HP]. by apply Hm. Qed.

(** After [st0 ← get], what held of the state holds of [st0]. *)
Lemma hoare_assume_state {A} (P : JobState → Prop) st0 (m : M A) Q R :
  (P st0 → hoare P m Q R) → hoare (λ st, st0 = st ∧ P st) m Q R.
Proof. intros Hm st [-> HP]. by apply Hm. Qed.

Section safety.
Context (w : World) (db : Database) (self : Workflow) (run : Run)
      (device : option Device).
Hypothesis Hwf : well_formed w db self run device.

Local Notation "'safe'" := (safe_inv db run device).
Local Notation "'never'" := (λ (_ : Exn) (_ : JobState), False).

Lemma safe_targets_union key (devices : gset string) :
(tracks_targets run device = true →
 ∀ d, d ∈ devices → d ∈ db_devices db) →
hoare safe (targets_union key devices) (λ _, safe) never.
Proof.
intros Hdev. apply hoare_modify. intros st [Hdb Htargets].
split; [done|]. intros Htracks n d. unfold targets_get. simpl.
destruct (decide (n = key)) as [->|Hne].
- rewrite lookup_insert_eq. simpl.
  intros [?|?]%elem_of_union; [by eapply Htargets|by apply Hdev].
- rewrite lookup_insert_ne by done. by apply Htargets.
Qed.

Lemma safe_emit ev : hoare safe (emit ev) (λ _, safe) never.
Proof. apply hoare_modify. by intros st [? ?]. Qed.

Lemma safe_push_service service :
service ∈ db_services db →
hoare safe (push_service service) (λ _, safe) never.
Proof using Hwf.
intros Hin. unfold push_service, heap_key.
rewrite decide_False by by apply (wf_priority _ _ _ _ _ Hwf).
eapply hoare_bind with (Q' := λ _, safe); [by apply hoare_lift|].
intros key.
apply hoare_modify. intros st [Hdb Htargets]. split; [|done].
intros entry Hentry. simpl in Hentry.
rewrite (heappush_Permutation entry_lt) in Hentry.
apply elem_of_cons in Hentry as [->|?]; [done|by apply Hdb].
Qed.

Lemma safe_follow_edge summary edge_type hop :
(tracks_targets run device = true →
 ∃ devices, summary !! edge_type = Some devices
            ∧ ∀ d, d ∈ devices → d ∈ db_devices db) →
(∃ s, hop.1 = Some s ∧ s ∈ db_services db) →
hoare safe (follow_edge run device summary edge_type hop)
  (λ _, safe) never.
Proof using Hwf.
intros Hsummary (s & Hs & Hin). destruct hop as [successor edge].
simpl in Hs. subst successor. unfold follow_edge.
eapply hoare_bind with (Q' := λ s' st, s' = s ∧ safe st).
{ apply hoare_ret. auto. }
intros s'. apply hoare_assume. intros ->.
destruct (tracks_targets run device) eqn:Htracks.
- destruct (Hsummary eq_refl) as (devices & Hdevices & Hdb).
  unfold summary_get. rewrite Hdevices.
  eapply hoare_bind with (Q' := λ _, safe).
  { eapply hoare_bind with (Q' := λ devs st, devs = devices ∧ safe st).
    - apply hoare_lift; [|done]. by intros a st [= <-] ?.
    - intros devs. apply hoare_assume. intros ->.
      apply safe_targets_union. intros _ d Hd.
      apply Hdb. by apply elem_of_list_to_set in Hd. }
  intros ?.
  eapply hoare_bind with (Q' := λ _, safe); [by apply safe_push_service|].
  intros ?.
  eapply hoare_bind with (Q' := λ _, safe); [by apply hoare_lift|].
  intros ?. apply safe_emit.
- eapply hoare_bind with (Q' := λ _, safe); [by apply hoare_ret|].
  intros ?.
  eapply hoare_bind with (Q' := λ _, safe); [by apply safe_push_service|].
  intros ?. apply safe_emit.
Qed.

Lemma safe_follow_edges service status summary :
(tracks_targets run device = true →
 ∀ edge_type, edge_type = "success" ∨ edge_type = "failure" →
   ∃ devices, summary !! edge_type = Some devices
              ∧ ∀ d, d ∈ devices → d ∈ db_devices db) →
hoare safe (follow_edges db self run device service status summary)
  (λ _, safe) never.
Proof using Hwf.
intros Hsummary. unfold follow_edges.
apply hoare_for_each. intros edge_type Htype.
assert (edge_type = "success" ∨ edge_type = "failure") as Hkey.
{ apply elem_of_cons in Htype as [?|Htype]; [by left|].
  apply list_elem_of_singleton in Htype. by right. }
case_match; [by apply hoare_ret|].
eapply hoare_bind with (Q' := λ _, safe).
{ destruct (tracking_bfs run) eqn:Htracking; [|by apply hoare_ret].
  destruct (Hsummary (tracking_bfs_tracks_targets _ _ Htracking)
              edge_type Hkey) as (devices & Hdevices & _).
  unfold summary_get. rewrite Hdevices.
  eapply hoare_bind with (Q' := λ _, safe); [by apply hoare_lift|].
  intros ?. by apply hoare_ret. }
intros [|]; [by apply hoare_ret|].
apply hoare_for_each. intros hop Hhop.
apply safe_follow_edge; [by auto|].
unfold neighbors in Hhop.
apply list_elem_of_fmap in Hhop as (edge & -> & Hedge).
apply list_elem_of_filter in Hedge as [[_ Hworkflow] Hedge].
apply list_elem_of_filter in Hedge as [_ Hedge].
destruct (wf_edges _ _ _ _ _ Hwf edge Hedge Hworkflow) as [s Hs].
exists s. split; [done|]. by eapply peer_in.
Qed.

Lemma safe_propagate service results :
safe_results db run device results →
hoare safe (propagate db self run device service results)
  (λ _, safe) never.
Proof using Hwf.
intros Hresults. unfold propagate.
eapply hoare_bind with (Q' := λ _, safe).
{ case_match; [apply safe_emit|by apply hoare_ret]. }
intros ?. apply safe_follow_edges.
intros Htracks edge_type Hkey.
destruct (Hresults Htracks) as ([ls Hls] & [lf Hlf] & Hdb).
unfold summary_of in *.
destruct Hkey as [-> | ->]; eauto.
Qed.

Lemma safe_skipped_results service st :
safe st → safe_results db run device (skipped_results run device service st).
Proof.
intros [_ Htargets] Htracks. unfold summary_of, skipped_results.
rewrite Htracks. simpl.
split; [by eexists|]. split; [by eexists|].
intros key devices d Hkey Hd.
destruct (decide (key = "success")) as [->|Hsuccess].
- rewrite lookup_insert_eq in Hkey. simplify_eq.
  apply elem_of_elements in Hd. by eapply Htargets.
- rewrite lookup_insert_ne in Hkey by done.
  apply lookup_singleton_Some in Hkey as [_ <-].
  by apply elem_of_nil in Hd.
Qed.

Lemma safe_dispatch start end_ service :
hoare safe (dispatch w db self run device start end_ service)
  (λ results st,
     safe st ∧ ∀ r, results = Some r → safe_results db run device r)
  never.
Proof using Hwf.
unfold dispatch.
eapply hoare_bind; [apply hoare_get|]. intros st0.
apply hoare_assume_state. intros Hst0.
case_match.
- eapply hoare_bind with (Q' := λ _, safe); [apply safe_emit|].
  intros ?. apply hoare_ret. intros st Hst. split; [done|].
  intros r [= <-]. by apply safe_skipped_results.
- eapply hoare_bind with (Q' := λ _, safe).
  { destruct (tracks_targets run device) eqn:Htracks;
      [|by apply hoare_ret].
    rewrite fetch_devices_ok.
    - eapply hoare_bind with (Q' := λ _, safe); [by apply hoare_lift|].
      intros ?. by apply hoare_ret.
    - intros n Hn. apply elem_of_elements in Hn.
      destruct Hst0 as [_ Htargets]. by eapply Htargets. }
  intros devices.
  eapply hoare_bind with (Q' := λ _, safe); [apply safe_emit|].
  intros ?. apply hoare_ret. intros st Hst. split; [done|].
  intros r Hr Htracks. by eapply (wf_runner _ _ _ _ _ Hwf).
Qed.

Lemma safe_pop_service st0 :
services st0 ≠ [] →
hoare (λ st, st = st0 ∧ safe st) pop_service
  (λ service st, service ∈ db_services db ∧ safe st) never.
Proof.
intros Hne st [-> [Hdb Htargets]].
destruct (heappop_is_Some entry_lt (services st0) Hne)
  as [[[k service] heap'] Hpop].
rewrite (pop_service_eq _ _ _ _ Hpop).
apply heappop_Permutation in Hpop.
split; [|split; [|done]].
- apply (Hdb (k, service)). rewrite Hpop. left.
- intros entry Hentry. apply Hdb. rewrite Hpop. by right.
Qed.

Lemma safe_iteration i start end_ :
hoare safe (iteration w db self run device i start end_)
  (λ _, safe) never.
Proof using Hwf.
unfold iteration.
eapply hoare_bind; [apply hoare_get|]. intros st0.
destruct (services st0) eqn:Hheap.
{ apply hoare_ret. by intros st [_ ?]. }
destruct (run_stop w i).
{ apply hoare_ret. by intros st [_ ?]. }
eapply hoare_bind.
{ eapply hoare_conseq; [apply (safe_pop_service st0)|..]; try done.
  - by rewrite Hheap.
  - by intros st [<- ?]. }
intros service. apply hoare_assume. intros Hservice.
eapply hoare_bind with (Q' := λ _, safe); [apply hoare_get_frame|].
intros st1.
case_bool_decide; [by apply hoare_ret|].
eapply hoare_bind with (Q' := λ _, safe).
{ apply hoare_modify. by intros st [? ?]. }
intros ?. eapply hoare_bind; [apply safe_dispatch|].
intros [results|]; [|apply hoare_ret; by intros st [? _]].
eapply hoare_bind with (Q' := λ _, safe).
- intros st [Hst Hresults]. by apply safe_propagate; [apply Hresults|].
- intros ?. by apply hoare_ret.
Qed.

Lemma safe_seed start :
start ∈ db_services db →
hoare safe (seed db run device start) (λ _, safe) never.
Proof using Hwf.
intros Hstart. unfold seed. apply hoare_for_each. intros i Hi.
assert (∃ s, fetch_service_by_id db i = inr s) as [s Hs].
{ unfold seed_ids in Hi. destruct (start_services run) eqn:Hids.
  - apply list_elem_of_singleton in Hi as ->.
    by apply fetch_service_by_id_member.
  - apply (wf_seeds _ _ _ _ _ Hwf). by rewrite Hids. }
rewrite Hs.
eapply hoare_bind with (Q' := λ s' st, s' = s ∧ safe st).
{ apply hoare_lift; [|done]. by intros a st [= <-] ?. }
intros s'. apply hoare_assume. intros ->.
apply fetch_service_by_id_in in Hs.
eapply hoare_bind with (Q' := λ _, safe).
{ apply safe_targets_union. intros Htracks d Hd.
  apply elem_of_list_to_set in Hd.
  by apply (wf_targets _ _ _ _ _ Hwf). }
intros ?. by apply safe_push_service.
Qed.

Lemma job_loop_safe fuel i start end_ st e :
safe st →
(job_loop w db self run device fuel i start end_ st).1 ≠ Raised e.
Proof using Hwf.
revert i st. induction fuel as [|fuel IH]; intros i st Hst; [done|].
simpl. pose proof (safe_iteration i start end_ st Hst) as Hit.
destruct (iteration w db self run device i start end_ st)
  as [[| |] st'|e' st']; simpl; try done.
by apply IH.
Qed.

Lemma job_safe fuel e : (job w db self run device fuel).1 ≠ Raised e.
Proof using Hwf.
unfold job, prologue.
destruct (wf_start _ _ _ _ _ Hwf) as [start Hstart].
destruct (wf_end _ _ _ _ _ Hwf) as [end_ Hend].
unfold mbind at 1 2, M_bind at 1 2, lift. rewrite Hstart, Hend. simpl.
assert (safe initial_state) as Hinit.
{ split; [by intros entry Hentry%elem_of_nil|].
  intros _ n d. unfold targets_get. simpl. rewrite lookup_empty. simpl.
  by intros ?%elem_of_empty. }
pose proof (safe_seed start (fetch_service_by_scoped_name_in _ _ _ Hstart)
              initial_state Hinit) as Hseed.
unfold mbind, M_bind.
destruct (seed db run device start initial_state) as [[] st|e' st];
  [|done].
simpl. by apply job_loop_safe.
Qed.
End safety.

(** Some amount of fuel lets [job] end. *)
Lemma job_ends w db self run device :
  ∃ fuel, (job w db self run device fuel).1 ≠ OutOfFuel.
Proof.
  unfold job.
  destruct (prologue db run device initial_state)
    as [[start end_] st|e st] eqn:Hpro; [|by exists 0].
  exists (S (fuel_left db st)).
  apply job_loop_terminates; [..|lia].
  - eapply (reachable_inv w db self run device start end_ 0).
    by apply reachable_seeded.
  - revert Hpro. unfold prologue, mbind, M_bind, lift.
    destruct (fetch_service_by_scoped_name db "Start") as [?|start'];
      [done|].
    destruct (fetch_service_by_scoped_name db "End") as [?|end']; [done|].
    simpl.
    pose proof (heap_in_db_seed db run device start' initial_state) as Hseed.
    destruct (seed db run device start' initial_state) as [[] st0|e st0];
      [|done].
    simpl. intros [= _ _ <-]. apply Hseed. by intros entry Hin%elem_of_nil.
Qed.

(** X2.  A well-formed run does not raise.  When [Start] and [End] exist,
    the start services exist, no service has priority 0, no edge of the
    workflow dangles and, in the modes that track targets, the start
    targets exist and every Runner result carries a summary with both keys
    naming existing devices, then [job] ends by returning a result: with
    enough fuel the outcome is a return, the same for any more fuel. *)
Theorem job_returns w db self run device :
  well_formed w db self run device →
  ∃ fuel r, ∀ fuel', fuel ≤ fuel' →
    (job w db self run device fuel').1 = Returned r.
Proof.
  intros Hwf.
  destruct (job_ends w db self run device) as [fuel Hfuel].
  pose proof (job_safe w db self run device Hwf fuel) as Hsafe.
  destruct ((job w db self run device fuel).1) as [r|e|] eqn:Hout;
    [|by destruct (Hsafe e)|done].
  exists fuel, r. intros fuel' Hle.
  rewrite (job_fuel_mono w db self run device fuel fuel'); [done| |done].
  by rewrite Hout.
Qed.

Lemma job_returns_witness :
  ∃ fuel r, ∀ fuel', fuel ≤ fuel' →
    (job Scenario.world Scenario.db Scenario.w Scenario.tracking None
       fuel').1 = Returned r.
Proof.
  apply (job_returns Scenario.world Scenario.db Scenario.w
           Scenario.tracking None).
  split.
  - by eexists.
  - by eexists.
  - intros i Hi. by apply elem_of_nil in Hi.
  - intros s Hs. simpl in Hs.
    repeat (apply elem_of_cons in Hs as [->|Hs]; [done|]).
    by apply elem_of_nil in Hs.
  - intros edge Hedge _. simpl in Hedge.
    repeat (apply elem_of_cons in Hedge as [->|Hedge]; [by eexists|]).
    by apply elem_of_nil in Hedge.
  - intros _ d Hd. exact Hd.
  - intros _ history kwargs results [= <-].
    split; [by eexists|]. split; [by eexists|].
    intros key devices d Hkey Hd. unfold summary_of in Hkey. simpl in Hkey.
    destruct (decide (key = "success")) as [->|Hsuccess].
    + rewrite lookup_insert_eq in Hkey. simplify_eq.
      apply list_elem_of_singleton in Hd as ->. simpl. left.
    + rewrite lookup_insert_ne in Hkey by done.
      apply lookup_singleton_Some in Hkey as [_ <-].
      apply list_elem_of_singleton in Hd as ->. simpl. right. left.
Defined.

(** ** Visited services *)

Lemma visited_inv_write st path value mode :
  visited_inv st → visited_inv (with_event st (StateWritten path value mode)).
Proof.
  intros Hinv i. rewrite (Hinv i). simpl. split.
  - intros (ev & Hev & Hi). exists ev. split; [|done].
    apply elem_of_app. by left.
  - intros (ev & Hev & Hi). exists ev. split; [|done].
    apply elem_of_app in Hev as [?|Hev]; [done|].
    apply list_elem_of_singleton in Hev as ->. done.
Qed.

Lemma visited_inv_dispatch service st ev :
  dispatches_id (service_id service) ev →
  visited_pending service st → visited_inv (with_event st ev).
Proof.
  intros Hev Hpending i. rewrite (Hpending i). simpl. split.
  - intros [->|(ev' & Hev' & Hi)].
    + exists ev. split; [|done]. apply elem_of_app. right. by left.
    + exists ev'. split; [|done]. apply elem_of_app. by left.
  - intros (ev' & Hev' & Hi).
    apply elem_of_app in Hev' as [?|Hev']; [by eauto|].
    apply list_elem_of_singleton in Hev' as ->. left.
    destruct ev; simpl in *; [congruence..|done].
Qed.

Section visited.
Context (w : World) (db : Database) (self : Workflow) (run : Run)
      (device : option Device).

Lemma visited_targets_union key devices :
inv visited_inv (targets_union key devices).
Proof. by apply hoare_modify. Qed.

Lemma visited_push_service service : inv visited_inv (push_service service).
Proof.
unfold push_service. apply inv_bind; [apply inv_lift|]. intros key.
by apply hoare_modify.
Qed.

Lemma visited_write_state path value mode :
inv visited_inv (write_state path value mode).
Proof. apply hoare_modify. intros st. apply visited_inv_write. Qed.

Lemma visited_follow_edge summary edge_type hop :
inv visited_inv (follow_edge run device summary edge_type hop).
Proof.
unfold follow_edge. destruct hop as [successor edge].
apply inv_bind; [destruct successor; [apply inv_ret|apply inv_raise]|].
intros s. apply inv_bind.
{ case_match; [|apply inv_ret].
  apply inv_bind; [apply inv_lift|]. intros ?.
  apply visited_targets_union. }
intros _. apply inv_bind; [apply visited_push_service|]. intros _.
case_match; [|apply visited_write_state].
apply inv_bind; [apply inv_lift|]. intros ?. apply visited_write_state.
Qed.

Lemma visited_follow_edges service status summary :
inv visited_inv (follow_edges db self run device service status summary).
Proof.
unfold follow_edges. apply inv_for_each. intros edge_type _.
case_match; [apply inv_ret|].
apply inv_bind.
{ case_match; [|apply inv_ret].
  apply inv_bind; [apply inv_lift|]. intros ?. apply inv_ret. }
intros [|]; [apply inv_ret|].
apply inv_for_each. intros hop _. apply visited_follow_edge.
Qed.

Lemma visited_propagate service results :
inv visited_inv (propagate db self run device service results).
Proof.
unfold propagate. apply inv_bind.
{ case_match; [apply visited_write_state|apply inv_ret]. }
intros _. apply visited_follow_edges.
Qed.

Lemma visited_dispatch start end_ service :
hoare (visited_pending service)
  (dispatch w db self run device start end_ service)
  (λ _, visited_inv) (λ _ _, True).
Proof.
unfold dispatch.
eapply hoare_bind; [apply hoare_get_frame|]. intros st0.
case_match.
- eapply hoare_bind with (Q' := λ _, visited_inv).
  + apply hoare_modify. intros st. by apply visited_inv_dispatch.
  + intros ?. by apply hoare_ret.
- eapply hoare_bind with (Q' := λ _, visited_pending service).
  + case_match; [|by apply hoare_ret].
    eapply hoare_bind with (Q' := λ _, visited_pending service);
      [by apply hoare_lift|].
    intros ?. by apply hoare_ret.
  + intros devices.
    eapply hoare_bind with (Q' := λ _, visited_inv).
    * apply hoare_modify. intros st. by apply visited_inv_dispatch.
    * intros ?. by apply hoare_ret.
Qed.

Lemma visited_iteration i start end_ :
hoare visited_inv (iteration w db self run device i start end_)
  (λ _, visited_inv) (λ _ _, True).
Proof.
unfold iteration.
eapply hoare_bind; [apply hoare_get_frame|]. intros st0.
destruct (services st0); [by apply hoare_ret|].
destruct (run_stop w i); [by apply hoare_ret|].
eapply hoare_bind with (Q' := λ _, visited_inv).
{ unfold pop_service.
  eapply hoare_bind; [apply hoare_get_frame|]. intros st1.
  destruct (heappop entry_lt (services st1)) as [[[k s] heap']|];
    [|by apply hoare_raise].
  eapply hoare_bind with (Q' := λ _, visited_inv);
    [by apply hoare_modify|].
  intros ?. by apply hoare_ret. }
intros service.
eapply hoare_bind; [apply hoare_get_frame|]. intros st1.
case_bool_decide; [by apply hoare_ret|].
eapply hoare_bind with (Q' := λ _, visited_pending service).
{ apply hoare_modify. intros st Hst i'. simpl.
  rewrite elem_of_union, elem_of_singleton, (Hst i'). tauto. }
intros ?. eapply hoare_bind; [apply visited_dispatch|].
intros [results|]; [|by apply hoare_ret].
eapply hoare_bind with (Q' := λ _, visited_inv).
- eapply hoare_conseq; [apply visited_propagate|..]; done.
- intros ?. by apply hoare_ret.
Qed.

Lemma visited_job_loop fuel i start end_ st r st' :
visited_inv st →
job_loop w db self run device fuel i start end_ st = (Returned r, st') →
visited_inv st'.
Proof.
revert i st. induction fuel as [|fuel IH]; intros i st Hst; [done|].
simpl. pose proof (visited_iteration i start end_ st Hst) as Hit.
destruct (iteration w db self run device i start end_ st)
  as [[| |] st1|e st1]; intros Heq; simplify_eq; eauto.
Qed.

Lemma visited_job fuel r st :
job w db self run device fuel = (Returned r, st) → visited_inv st.
Proof.
unfold job, prologue, mbind, M_bind, lift.
destruct (fetch_service_by_scoped_name db "Start") as [e|start]; [done|].
destruct (fetch_service_by_scoped_name db "End") as [e|end_]; [done|].
simpl.
assert (inv visited_inv (seed db run device start)) as Hseed.
{ unfold seed. apply inv_for_each. intros i _.
  apply inv_bind; [apply inv_lift|]. intros service.
  apply inv_bind; [apply visited_targets_union|]. intros _.
  apply visited_push_service. }
specialize (Hseed initial_state).
destruct (seed db run device start initial_state) as [[] st0|e st0];
  [|done].
simpl. apply visited_job_loop. apply Hseed.
intros i. simpl. split; [by intros ?%elem_of_empty|].
by intros (ev & ?%elem_of_nil & _).
Qed.
End visited.

Lemma pair_eq {A B} (p : A * B) a : p.1 = a → p = (a, p.2).
Proof. destruct p. simpl. congruence. Qed.

(** X3.  In the modes that do not track targets, a run of [job] that
    returns after exhausting the heap carries no summary, and its
    [success] is true exactly when [End] was dispatched; [End] is never
    handed to a Runner, so this dispatch is a synthesized skip. *)
Theorem untracked_success w db self run device fuel r st :
  tracks_targets run device = false →
  job w db self run device fuel = (Returned r, st) →
  jr_result r = None →
  ∃ end_,
    fetch_service_by_scoped_name db "End" = inr end_
    ∧ jr_summary r = None
    ∧ (jr_success r = true
       ↔ ∃ s, service_id s = service_id end_
              ∧ SkipSynthesized s ∈ trace st).
Proof.
  intros Htracks Hjob Hresult.
  pose proof (visited_job _ _ _ _ _ _ _ _ Hjob) as Hvisited.
  destruct (job_returned _ _ _ _ _ _ _ _ Hjob)
    as (start & end_ & Hstart & Hend & [->| ->]); [done|].
  pose proof (job_inv_fetched w db self run device fuel _ _ Hstart Hend)
    as (_ & _ & Hrunner).
  rewrite Hjob in Hrunner. simpl in Hrunner.
  exists end_. split; [done|].
  unfold final_results. rewrite Htracks. simpl. split; [done|].
  rewrite bool_decide_eq_true, (Hvisited (service_id end_)). split.
  - intros ([s kwargs|s|] & Hev & Hid); simpl in Hid; [|by eauto|done].
    apply Hrunner in Hev. unfold is_skipped, service_is in Hev.
    rewrite (bool_decide_eq_true_2 (service_id s = service_id end_)) in Hev
      by done.
    by rewrite orb_true_r in Hev.
  - intros (s & Hid & Hev). by exists (SkipSynthesized s).
Qed.

Lemma untracked_success_witness :
  ∃ end_,
    fetch_service_by_scoped_name Scenario.db "End" = inr end_
    ∧ jr_summary
        (final_results Scenario.service_targets None Scenario.Start
           Scenario.End_
           (job Scenario.world Scenario.db Scenario.w
              Scenario.service_targets None 20).2) = None
    ∧ (jr_success
         (final_results Scenario.service_targets None Scenario.Start
            Scenario.End_
            (job Scenario.world Scenario.db Scenario.w
               Scenario.service_targets None 20).2) = true
       ↔ ∃ s, service_id s = service_id end_
              ∧ SkipSynthesized s
                ∈ trace (job Scenario.world Scenario.db Scenario.w
                           Scenario.service_targets None 20).2).
Proof.
  apply (untracked_success Scenario.world Scenario.db Scenario.w
           Scenario.service_targets None 20
           (final_results Scenario.service_targets None Scenario.Start
              Scenario.End_
              (job Scenario.world Scenario.db Scenario.w
                 Scenario.service_targets None 20).2)
           (job Scenario.world Scenario.db Scenario.w
              Scenario.service_targets None 20).2).
  - reflexivity.
  - apply pair_eq. vm_compute. reflexivity.
  - vm_compute. reflexivity.
Defined.

(** ** Target closure *)

Lemma fetch_devices_inr db names devices :
  fetch_devices db names = inr devices → devices = names.
Proof.
  revert devices. induction names as [|n names IH]; intros devices; simpl.
  - by intros [= <-].
  - unfold fetch_device. case_decide; [|done].
    destruct (fetch_devices db names) as [e|ds]; [done|].
    intros [= <-]. by rewrite (IH ds).
Qed.

(** With ids as a key, fetching by the id of a row gives that row. *)
Lemma fetch_service_by_id_key db s :
  NoDup (service_id <$> db_services db) →
  s ∈ db_services db →
  fetch_service_by_id db (service_id s) = inr s.
Proof.
  unfold fetch_service_by_id.
  induction (db_services db) as [|s' l IH]; intros Hnodup Hin;
    [by apply elem_of_nil in Hin|].
  rewrite fmap_cons in Hnodup. apply list.NoDup_cons in Hnodup as [Hfresh Hnodup].
  simpl. case_bool_decide as Hid.
  - apply elem_of_cons in Hin as [->|Hin]; [done|].
    destruct Hfresh. rewrite Hid. apply list_elem_of_fmap. by exists s.
  - apply elem_of_cons in Hin as [->|Hin]; [done|]. by apply IH.
Qed.

Section closure.
Context (w : World) (db : Database) (self : Workflow) (run : Run)
      (device : option Device) (D : gset string) (key : string).
Hypothesis Htracks : tracks_targets run device = true.
Hypothesis Hrunner : reports_own_targets w.

Local Notation "'closed'" := (closure_inv D key).
Local Notation "'any'" := (λ (_ : Exn) (_ : JobState), True).

Lemma closure_targets_union n (devices : gset string) :
(∀ d, d ∈ devices → d ∈ D) →
hoare closed (targets_union n devices) (λ _, closed) any.
Proof.
intros Hdev. apply hoare_modify. intros st [Hwithin Hcover]. split.
- intros n' d. unfold targets_get. simpl.
  destruct (decide (n' = n)) as [->|Hne].
  + rewrite lookup_insert_eq. simpl.
    intros [?|?]%elem_of_union; [by eapply Hwithin|by apply Hdev].
  + rewrite lookup_insert_ne by done. by apply Hwithin.
- intros d Hd. unfold targets_get. simpl.
  destruct (decide (key = n)) as [->|Hne].
  + rewrite lookup_insert_eq. simpl. apply elem_of_union. left.
    by apply Hcover.
  + rewrite lookup_insert_ne by done. by apply Hcover.
Qed.

Lemma closure_emit ev : hoare closed (emit ev) (λ _, closed) any.
Proof. by apply hoare_modify. Qed.

Lemma closure_push_service service :
hoare closed (push_service service) (λ _, closed) any.
Proof.
unfold push_service.
eapply hoare_bind with (Q' := λ _, closed); [by apply hoare_lift|].
intros ?. by apply hoare_modify.
Qed.

Lemma closure_follow_edge summary edge_type hop :
(∀ devices d, summary !! edge_type = Some devices → d ∈ devices → d ∈ D) →
hoare closed (follow_edge run device summary edge_type hop)
  (λ _, closed) any.
Proof using Htracks.
intros Hsummary. unfold follow_edge. destruct hop as [successor edge].
rewrite Htracks.
eapply hoare_bind with (Q' := λ _, closed).
{ destruct successor; [by apply hoare_ret|by apply hoare_raise]. }
intros s.
eapply hoare_bind with (Q' := λ _, closed).
{ unfold summary_get.
  destruct (summary !! edge_type) as [devices|] eqn:Hdevices.
  - eapply hoare_bind with (Q' := λ devs st, devs = devices ∧ closed st).
    + apply hoare_lift; [|done]. by intros a st [= <-] ?.
    + intros devs. apply hoare_assume. intros ->.
      apply closure_targets_union. intros d Hd.
      apply elem_of_list_to_set in Hd. by eapply Hsummary.
  - eapply hoare_bind with (Q' := λ _ _, False);
      [by apply hoare_lift|by intros ? ? []]. }
intros ?.
eapply hoare_bind with (Q' := λ _, closed); [apply closure_push_service|].
intros ?.
eapply hoare_bind with (Q' := λ _, closed); [by apply hoare_lift|].
intros ?. apply closure_emit.
Qed.

Lemma closure_follow_edges service status summary :
(∀ edge_type devices d,
   summary !! edge_type = Some devices → d ∈ devices → d ∈ D) →
hoare closed (follow_edges db self run device service status summary)
  (λ _, closed) any.
Proof using Htracks.
intros Hsummary. unfold follow_edges.
apply hoare_for_each. intros edge_type _.
case_match; [by apply hoare_ret|].
eapply hoare_bind with (Q' := λ _, closed).
{ case_match; [|by apply hoare_ret].
  eapply hoare_bind with (Q' := λ _, closed); [by apply hoare_lift|].
  intros ?. by apply hoare_ret. }
intros [|]; [by apply hoare_ret|].
apply hoare_for_each. intros hop _.
apply closure_follow_edge. apply Hsummary.
Qed.

Lemma closure_propagate service results :
(∀ edge_type devices d,
   summary_of results !! edge_type = Some devices → d ∈ devices → d ∈ D) →
hoare closed (propagate db self run device service results)
  (λ _, closed) any.
Proof using Htracks.
intros Hsummary. unfold propagate.
eapply hoare_bind with (Q' := λ _, closed).
{ case_match; [apply closure_emit|by apply hoare_ret]. }
intros ?. by apply closure_follow_edges.
Qed.

Lemma closure_dispatch start end_ service :
hoare closed (dispatch w db self run device start end_ service)
  (λ results st,
     closed st
     ∧ ∀ r, results = Some r →
         ∀ edge_type devices d,
           summary_of r !! edge_type = Some devices → d ∈ devices →
           d ∈ D)
  any.
Proof using Htracks Hrunner.
unfold dispatch.
eapply hoare_bind; [apply hoare_get|]. intros st0.
apply hoare_assume_state. intros [Hwithin _].
case_match.
- eapply hoare_bind with (Q' := λ _, closed); [apply closure_emit|].
  intros ?. apply hoare_ret. intros st Hst. split; [done|].
  intros r [= <-] edge_type devices d.
  unfold summary_of, skipped_results. rewrite Htracks. simpl.
  intros Hkey Hd.
  destruct (decide (edge_type = "success")) as [->|Hsuccess].
  + rewrite lookup_insert_eq in Hkey. simplify_eq.
    apply elem_of_elements in Hd. by eapply Hwithin.
  + rewrite lookup_insert_ne in Hkey by done.
    apply lookup_singleton_Some in Hkey as [_ <-].
    by apply elem_of_nil in Hd.
- rewrite Htracks.
  eapply hoare_bind with
    (Q' := λ devices st,
       closed st
       ∧ devices = Some (elements (targets_get st0 (name service)))).
  { destruct (fetch_devices db
                (elements (targets_get st0 (name service))))
      as [e|ds] eqn:Hfetch.
    - eapply hoare_bind with (Q' := λ _ _, False);
        [by apply hoare_lift|by intros ? ? []].
    - apply fetch_devices_inr in Hfetch as ->.
      eapply hoare_bind with
        (Q' := λ ds st,
           ds = elements (targets_get st0 (name service)) ∧ closed st).
      + apply hoare_lift; [|done]. by intros a st [= <-] ?.
      + intros ds. apply hoare_assume. intros ->.
        apply hoare_ret. by intros st ?. }
  intros devices.
  eapply hoare_bind with
    (Q' := λ _ st,
       closed st
       ∧ devices = Some (elements (targets_get st0 (name service)))).
  { apply hoare_modify. by intros st [? ?]. }
  intros ?. apply hoare_ret. intros st [Hst ->]. split; [done|].
  intros r Hr edge_type devices d Hkey Hd.
  destruct (Hrunner _ _ _ _ _ _ Hr Hkey Hd) as (given & Hgiven & Hin).
  simpl in Hgiven. simplify_eq.
  apply elem_of_elements in Hin. by eapply Hwithin.
Qed.

Lemma closure_iteration i start end_ :
hoare closed (iteration w db self run device i start end_)
  (λ _, closed) any.
Proof using Htracks Hrunner.
unfold iteration.
eapply hoare_bind; [apply hoare_get_frame|]. intros st0.
destruct (services st0); [by apply hoare_ret|].
destruct (run_stop w i); [by apply hoare_ret|].
eapply hoare_bind with (Q' := λ _, closed).
{ unfold pop_service.
  eapply hoare_bind; [apply hoare_get_frame|]. intros st1.
  destruct (heappop entry_lt (services st1)) as [[[k s] heap']|];
    [|by apply hoare_raise].
  eapply hoare_bind with (Q' := λ _, closed); [by apply hoare_modify|].
  intros ?. by apply hoare_ret. }
intros service.
eapply hoare_bind; [apply hoare_get_frame|]. intros st1.
case_bool_decide; [by apply hoare_ret|].
eapply hoare_bind with (Q' := λ _, closed); [by apply hoare_modify|].
intros ?. eapply hoare_bind; [apply closure_dispatch|].
intros [results|]; [|apply hoare_ret; by intros st [? _]].
eapply hoare_bind with (Q' := λ _, closed).
- intros st [Hst Hresults].
  by apply closure_propagate; [apply Hresults|].
- intros ?. by apply hoare_ret.
Qed.

Lemma closure_job_loop fuel i start end_ st r st' :
closed st →
job_loop w db self run device fuel i start end_ st = (Returned r, st') →
closed st'.
Proof using Htracks Hrunner.
revert i st. induction fuel as [|fuel IH]; intros i st Hst; [done|].
simpl. pose proof (closure_iteration i start end_ st Hst) as Hit.
destruct (iteration w db self run device i start end_ st)
  as [[| |] st1|e st1]; intros Heq; simplify_eq; eauto.
Qed.
End closure.

(** X4.  Target closure.  In the modes that track targets, for a run
    seeded at [Start] (no [start_services]) over a database whose service
    ids are a key, and Runners that report in their summaries only devices
    they were given: when [job] returns after exhausting the heap,
    [targets[End.name]] is included in [targets[Start.name]], every target
    set holds start targets only, and [success] is true exactly when
    [targets[End.name]] equals [targets[Start.name]]. *)
Theorem target_closure w db self run device fuel r st :
  tracks_targets run device = true →
  start_services run = [] →
  NoDup (service_id <$> db_services db) →
  reports_own_targets w →
  job w db self run device fuel = (Returned r, st) →
  jr_result r = None →
  ∃ start end_,
    fetch_service_by_scoped_name db "Start" = inr start
    ∧ fetch_service_by_scoped_name db "End" = inr end_
    ∧ (∀ n, targets_get st n
            ⊆ list_to_set (start_targets run device))
    ∧ targets_get st (name start)
      = list_to_set (start_targets run device)
    ∧ targets_get st (name end_) ⊆ targets_get st (name start)
    ∧ (jr_success r = true
       ↔ targets_get st (name end_) = targets_get st (name start)).
Proof.
  intros Htracks Hids Hkey Hrunner Hjob Hresult.
  destruct (job_returned _ _ _ _ _ _ _ _ Hjob)
    as (start & end_ & Hstart & Hend & Hr).
  destruct Hr as [Hr|Hr]; [by rewrite Hr in Hresult|].
  exists start, end_. split; [done|]. split; [done|].
  set (D := list_to_set (start_targets run device) : gset string).
  assert (closure_inv D (name start) st) as [Hwithin Hcover].
  { revert Hjob. unfold job, prologue, mbind, M_bind, lift.
    rewrite Hstart, Hend. simpl.
    unfold seed, seed_ids. rewrite Hids. cbn [for_each].
    unfold mbind, M_bind, lift.
    rewrite (fetch_service_by_id_key db start Hkey
               (fetch_service_by_scoped_name_in _ _ _ Hstart)).
    simpl. unfold push_service, mbind, M_bind, lift.
    destruct (heap_key (priority start)) as [?|k]; [done|].
    simpl. apply (closure_job_loop w db self run device D (name start)
                    Htracks Hrunner).
    split.
    - intros n d. unfold targets_get. simpl.
      destruct (decide (n = name start)) as [->|Hne].
      + rewrite lookup_insert_eq. simpl. rewrite lookup_empty. simpl.
        by intros [?%elem_of_empty|?]%elem_of_union.
      + rewrite lookup_insert_ne, lookup_empty by done. simpl.
        by intros ?%elem_of_empty.
    - intros d Hd. unfold targets_get. simpl.
      rewrite lookup_insert_eq. simpl. apply elem_of_union. by right. }
  assert (targets_get st (name start) = D) as Hstart_targets.
  { apply set_eq. intros d. split; [apply Hwithin|apply Hcover]. }
  assert (targets_get st (name end_) ⊆ targets_get st (name start))
    as Hincl.
  { rewrite Hstart_targets. intros d. apply Hwithin. }
  split; [by intros n d; apply Hwithin|].
  split; [done|]. split; [done|].
  rewrite Hr. unfold final_results. rewrite Htracks. simpl.
  rewrite bool_decide_eq_true, elements_empty_iff. split.
  - intros Hempty. apply set_eq. intros d. split; [apply Hincl|].
    intros Hd.
    destruct (decide (d ∈ targets_get st (name end_))) as [|Hnot];
      [done|].
    destruct (proj1 (elem_of_equiv_empty _) Hempty d).
    by apply elem_of_difference.
  - intros Heq. apply elem_of_equiv_empty. intros d.
    rewrite elem_of_difference, Heq. tauto.
Qed.

Lemma target_closure_witness :
  ∃ start end_,
    fetch_service_by_scoped_name Scenario.db "Start" = inr start
    ∧ fetch_service_by_scoped_name Scenario.db "End" = inr end_
    ∧ (∀ n, targets_get
              (job Faithful.world Scenario.db Scenario.w Scenario.tracking
                 None 20).2 n
            ⊆ list_to_set (start_targets Scenario.tracking None))
    ∧ targets_get
        (job Faithful.world Scenario.db Scenario.w Scenario.tracking
           None 20).2 (name start)
      = list_to_set (start_targets Scenario.tracking None)
    ∧ targets_get
        (job Faithful.world Scenario.db Scenario.w Scenario.tracking
           None 20).2 (name end_)
      ⊆ targets_get
          (job Faithful.world Scenario.db Scenario.w Scenario.tracking
             None 20).2 (name start)
    ∧ (jr_success
         (final_results Scenario.tracking None Scenario.Start Scenario.End_
            (job Faithful.world Scenario.db Scenario.w Scenario.tracking
               None 20).2) = true
       ↔ targets_get
           (job Faithful.world Scenario.db Scenario.w Scenario.tracking
              None 20).2 (name end_)
         = targets_get
             (job Faithful.world Scenario.db Scenario.w Scenario.tracking
                None 20).2 (name start)).
Proof.
  apply (target_closure Faithful.world Scenario.db Scenario.w
           Scenario.tracking None 20
           (final_results Scenario.tracking None Scenario.Start
              Scenario.End_
              (job Faithful.world Scenario.db Scenario.w Scenario.tracking
                 None 20).2)
           (job Faithful.world Scenario.db Scenario.w Scenario.tracking
              None 20).2).
  - reflexivity.
  - reflexivity.
  - apply (bool_decide_unpack _). by vm_compute.
  - intros history kwargs results key devices d [= <-].
    unfold summary_of. simpl. intros Hkey Hd.
    destruct (decide (key = "success")) as [->|Hsuccess].
    + rewrite lookup_insert_eq in Hkey. simplify_eq.
      destruct (arg_target_devices kwargs) as [given|]; [by eauto|].
      by apply elem_of_nil in Hd.
    + rewrite lookup_insert_ne in Hkey by done.
      apply lookup_singleton_Some in Hkey as [_ <-].
      by apply elem_of_nil in Hd.
  - apply pair_eq. vm_compute. reflexivity.
  - vm_compute. reflexivity.
Defined.

(** ** Dispatches follow the edges *)

Section connected.
Context (w : World) (db : Database) (self : Workflow) (run : Run)
      (device : option Device) (start end_ : Service).

Local Notation "'conn'" := (connected_inv db self run start).

Lemma conn_targets_union key devices : inv conn (targets_union key devices).
Proof. by apply hoare_modify. Qed.

Lemma conn_write_state path value mode :
inv conn (write_state path value mode).
Proof.
apply hoare_modify. intros st [Hheap Htrace]. split; [done|].
intros ev s Hev Hs. simpl in Hev.
apply elem_of_app in Hev as [Hev|Hev]; [by eapply Htrace|].
by apply list_elem_of_singleton in Hev as ->.
Qed.

Lemma conn_push_service service :
connected db self run start service → inv conn (push_service service).
Proof.
intros Hservice. unfold push_service.
apply inv_bind; [apply inv_lift|]. intros key.
apply hoare_modify. intros st [Hheap Htrace]. split; [|done].
intros entry Hentry. simpl in Hentry.
rewrite (heappush_Permutation entry_lt) in Hentry.
apply elem_of_cons in Hentry as [->|?]; [done|by apply Hheap].
Qed.

Lemma conn_dispatch_event service ev :
connected db self run start service →
(∀ s, is_dispatch_of s ev = true → s = service) →
inv conn (emit ev).
Proof.
intros Hservice Hev.
apply hoare_modify. intros st [Hheap Htrace]. split; [done|].
intros ev' s Hin Hs. simpl in Hin.
apply elem_of_app in Hin as [Hin|Hin]; [by eapply Htrace|].
apply list_elem_of_singleton in Hin as ->.
by rewrite (Hev s Hs).
Qed.

Lemma conn_follow_edge service summary edge_type hop :
connected db self run start service →
hop ∈ neighbors db service self destination edge_type →
edge_type = "success" ∨ edge_type = "failure" →
inv conn (follow_edge run device summary edge_type hop).
Proof.
intros Hservice Hhop Htype. unfold follow_edge.
destruct hop as [successor edge].
destruct successor as [s|].
2:{ eapply hoare_bind with (Q' := λ _ _, False);
      [by apply hoare_raise|by intros ? ? []]. }
assert (connected db self run start s) as Hs.
{ unfold neighbors in Hhop.
  apply list_elem_of_fmap in Hhop as (edge' & [= Hpeer ->] & Hedge).
  apply list_elem_of_filter in Hedge as [[Hsub Hworkflow] Hedge].
  apply list_elem_of_filter in Hedge as [Hsource Hedge].
  destruct Hservice as (i & s0 & Hi & Hs0 & Hrtc).
  exists i, s0. split; [done|]. split; [done|].
  eapply rtc_r; [exact Hrtc|].
  exists edge'. rewrite Hsub. by repeat split. }
eapply hoare_bind with (Q' := λ s' st, s' = s ∧ conn st).
{ apply hoare_ret. auto. }
intros s'. apply hoare_assume. intros ->.
apply inv_bind.
{ case_match; [|apply inv_ret].
  apply inv_bind; [apply inv_lift|]. intros ?.
  apply conn_targets_union. }
intros _. apply inv_bind; [by apply conn_push_service|]. intros _.
case_match; [|apply conn_write_state].
apply inv_bind; [apply inv_lift|]. intros ?. apply conn_write_state.
Qed.

Lemma conn_follow_edges service status summary :
connected db self run start service →
inv conn (follow_edges db self run device service status summary).
Proof.
intros Hservice. unfold follow_edges.
apply inv_for_each. intros edge_type Htype.
assert (edge_type = "success" ∨ edge_type = "failure") as Hkey.
{ apply elem_of_cons in Htype as [?|Htype]; [by left|].
  apply list_elem_of_singleton in Htype. by right. }
case_match; [apply inv_ret|].
apply inv_bind.
{ case_match; [|apply inv_ret].
  apply inv_bind; [apply inv_lift|]. intros ?. apply inv_ret. }
intros [|]; [apply inv_ret|].
apply inv_for_each. intros hop Hhop. by eapply conn_follow_edge.
Qed.

Lemma conn_propagate service results :
connected db self run start service →
inv conn (propagate db self run device service results).
Proof.
intros Hservice. unfold propagate. apply inv_bind.
{ case_match; [apply conn_write_state|apply inv_ret]. }
intros _. by apply conn_follow_edges.
Qed.

Lemma conn_dispatch service :
connected db self run start service →
inv conn (dispatch w db self run device start end_ service).
Proof.
intros Hservice. unfold dispatch.
eapply hoare_bind; [apply hoare_get_frame|]. intros st0.
case_match.
- apply inv_bind; [|intros ?; apply inv_ret].
  apply (conn_dispatch_event service); [done|].
  intros s Hs. simpl in Hs. by apply bool_decide_eq_true in Hs.
- apply inv_bind.
  { case_match; [|apply inv_ret].
    apply inv_bind; [apply inv_lift|]. intros ?. apply inv_ret. }
  intros devices.
  apply inv_bind; [|intros ?; apply inv_ret].
  apply (conn_dispatch_event service); [done|].
  intros s Hs. simpl in Hs. by apply bool_decide_eq_true in Hs.
Qed.

Lemma conn_pop_service :
hoare conn pop_service
  (λ service st, connected db self run start service ∧ conn st)
  (λ _, conn).
Proof.
unfold pop_service.
eapply hoare_bind; [apply hoare_get|]. intros st0.
apply hoare_assume_state. intros [Hheap Htrace].
destruct (heappop entry_lt (services st0)) as [[[k s] heap']|] eqn:Hpop;
  [|by apply hoare_raise].
pose proof (heappop_Permutation _ _ _ _ Hpop) as Hperm.
eapply hoare_bind with
  (Q' := λ _ st, connected db self run start s ∧ conn st).
- apply hoare_modify. intros st [_ Htrace']. split.
  + apply (Hheap (k, s)). rewrite Hperm. left.
  + split; [|done]. intros entry Hentry. apply Hheap.
    rewrite Hperm. by right.
- intros ?. by apply hoare_ret.
Qed.

Lemma conn_iteration i :
inv conn (iteration w db self run device i start end_).
Proof.
unfold iteration.
eapply hoare_bind; [apply hoare_get_frame|]. intros st0.
destruct (services st0); [apply inv_ret|].
destruct (run_stop w i); [apply inv_ret|].
eapply hoare_bind; [apply conn_pop_service|].
intros service. apply hoare_assume. intros Hservice.
eapply hoare_bind; [apply hoare_get_frame|]. intros st1.
case_bool_decide; [apply inv_ret|].
apply inv_bind; [by apply hoare_modify|]. intros _.
apply inv_bind; [by apply conn_dispatch|].
intros [results|]; [|apply inv_ret].
apply inv_bind; [by apply conn_propagate|]. intros _. apply inv_ret.
Qed.

Lemma conn_job_loop fuel i st :
conn st → conn (job_loop w db self run device fuel i start end_ st).2.
Proof.
revert i st. induction fuel as [|fuel IH]; intros i st Hst; [done|].
simpl. pose proof (conn_iteration i st Hst) as Hit.
destruct (iteration w db self run device i start end_ st)
  as [[| |] st1|e st1]; simpl; eauto.
Qed.

Lemma conn_seed : inv conn (seed db run device start).
Proof.
unfold seed. apply inv_for_each. intros i Hi.
eapply hoare_bind with
  (Q' := λ s st, fetch_service_by_id db i = inr s ∧ conn st).
{ apply hoare_lift; [by intros s st -> ?|by intros]. }
intros service. apply hoare_assume. intros Hservice.
apply inv_bind; [apply conn_targets_union|]. intros _.
apply conn_push_service. by exists i, service.
Qed.
End connected.

(** X13.  Dispatches follow the edges.  Whatever the Runners answer and
    however the run ends (return, exception, or still running), a service
    that [job] has dispatched, to a Runner or as a skip, is one of the
    services the run starts from ([run.start_services], or [Start]) or is
    reached from one of them along edges of this workflow of subtype
    [success] or [failure], each leaving the service before it and ending
    at an existing service. *)
Theorem dispatched_connected w db self run device fuel ev s :
  ev ∈ trace (job w db self run device fuel).2 →
  is_dispatch_of s ev = true →
  ∃ start i s0,
    fetch_service_by_scoped_name db "Start" = inr start
    ∧ i ∈ seed_ids run start
    ∧ fetch_service_by_id db i = inr s0
    ∧ rtc (follows db self) s0 s.
Proof.
  unfold job, prologue, mbind, M_bind, lift.
  destruct (fetch_service_by_scoped_name db "Start") as [e|start];
    [by intros ?%elem_of_nil|].
  destruct (fetch_service_by_scoped_name db "End") as [e|end_];
    [by intros ?%elem_of_nil|].
  simpl.
  assert (connected_inv db self run start initial_state) as Hinit.
  { split; [by intros ? ?%elem_of_nil|by intros ? ? ?%elem_of_nil]. }
  pose proof (conn_seed db self run device start initial_state Hinit)
    as Hseed.
  destruct (seed db run device start initial_state) as [[] st0|e st0];
    simpl.
  - pose proof (conn_job_loop w db self run device start end_ fuel 0 st0
                  Hseed) as [_ Htrace].
    intros Hev Hs. destruct (Htrace ev s Hev Hs) as (i & s0 & ? & ? & ?).
    by exists start, i, s0.
  - destruct Hseed as [_ Htrace].
    intros Hev Hs. destruct (Htrace ev s Hev Hs) as (i & s0 & ? & ? & ?).
    by exists start, i, s0.
Qed.

Lemma dispatched_connected_witness :
  ∃ start i s0,
    fetch_service_by_scoped_name Scenario.db "Start" = inr start
    ∧ i ∈ seed_ids Scenario.tracking start
    ∧ fetch_service_by_id Scenario.db i = inr s0
    ∧ rtc (follows Scenario.db Scenario.w) s0 Scenario.End_.
Proof.
  apply (dispatched_connected Scenario.world Scenario.db Scenario.w
           Scenario.tracking None 20 (SkipSynthesized Scenario.End_)
           Scenario.End_).
  - apply list_elem_of_In. vm_compute.
    repeat (first [left; reflexivity | right]).
  - vm_compute. reflexivity.
Defined.

(** ** Walking edges in both directions *)

Lemma peer_key db direction edge s :
  NoDup (service_id <$> db_services db) →
  s ∈ db_services db →
  peer db direction edge = Some s ↔ edge_end direction edge = service_id s.
Proof.
  intros Hkey Hin. unfold peer. split.
  - intros Hfind. apply find_some in Hfind as [_ Hid].
    by apply bool_decide_eq_true_1 in Hid.
  - intros Hend. rewrite Hend.
    pose proof (fetch_service_by_id_key db s Hkey Hin) as Hfetch.
    unfold fetch_service_by_id in Hfetch.
    by destruct (List.find _ _); simplify_eq.
Qed.

(** X6.  The two directions of [neighbors] are converse.  Over a database
    whose service ids are a key, for services [a] and [b] of the database:
    [neighbors] of [a] towards its destinations yields [(b, edge)] exactly
    when [neighbors] of [b] towards its sources yields [(a, edge)], for the
    same workflow and subtype; and every pair [neighbors] yields carries an
    edge of that subtype and workflow that starts (or ends) at the
    service. *)
Theorem neighbors_converse db workflow subtype_ a b edge :
  NoDup (service_id <$> db_services db) →
  a ∈ db_services db → b ∈ db_services db →
  ((Some b, edge) ∈ neighbors db a workflow destination subtype_
   ↔ (Some a, edge) ∈ neighbors db b workflow source subtype_)
  ∧ ((Some b, edge) ∈ neighbors db a workflow destination subtype_ →
     edge ∈ db_edges db ∧ subtype edge = subtype_
     ∧ edge_workflow edge = workflow_name workflow
     ∧ source_id edge = service_id a
     ∧ destination_id edge = service_id b).
Proof.
  intros Hkey Ha Hb.
  assert (∀ direction (self other : Service),
    self ∈ db_services db → other ∈ db_services db →
    (Some other, edge) ∈ neighbors db self workflow direction subtype_
    ↔ edge ∈ db_edges db ∧ subtype edge = subtype_
      ∧ edge_workflow edge = workflow_name workflow
      ∧ edge_end direction edge = service_id other
      ∧ (match direction with
         | destination => source_id
         | source => destination_id
         end) edge = service_id self) as Hchar.
  { intros direction self other Hself Hother.
    unfold neighbors, service_edges.
    rewrite list_elem_of_fmap. split.
    - intros (e & [= Hpeer <-] & He).
      apply list_elem_of_filter in He as [[Hsub Hwf] He].
      apply list_elem_of_filter in He as [Hown He].
      symmetry in Hpeer. apply (peer_key _ _ _ _ Hkey Hother) in Hpeer.
      by destruct direction.
    - intros (He & Hsub & Hwf & Hend & Hown). exists edge. split.
      + f_equal. symmetry. by apply (peer_key _ _ _ _ Hkey Hother).
      + apply list_elem_of_filter. split; [done|].
        apply list_elem_of_filter. split; [|done]. by destruct direction. }
  split.
  - rewrite (Hchar destination a b Ha Hb), (Hchar source b a Hb Ha).
    simpl. tauto.
  - intros Hin. apply (Hchar destination a b Ha Hb) in Hin. simpl in Hin.
    tauto.
Qed.

Lemma neighbors_converse_witness :
  ((Some Scenario.B, Scenario.make_edge 11 "success" 3 4)
   ∈ neighbors Scenario.db Scenario.A Scenario.w destination "success"
   ↔ (Some Scenario.A, Scenario.make_edge 11 "success" 3 4)
     ∈ neighbors Scenario.db Scenario.B Scenario.w source "success")
  ∧ ((Some Scenario.B, Scenario.make_edge 11 "success" 3 4)
     ∈ neighbors Scenario.db Scenario.A Scenario.w destination "success" →
     Scenario.make_edge 11 "success" 3 4 ∈ db_edges Scenario.db
     ∧ subtype (Scenario.make_edge 11 "success" 3 4) = "success"
     ∧ edge_workflow (Scenario.make_edge 11 "success" 3 4)
       = workflow_name Scenario.w
     ∧ source_id (Scenario.make_edge 11 "success" 3 4)
       = service_id Scenario.A
     ∧ destination_id (Scenario.make_edge 11 "success" 3 4)
       = service_id Scenario.B).
Proof.
  apply (neighbors_converse Scenario.db Scenario.w "success"
           Scenario.A Scenario.B (Scenario.make_edge 11 "success" 3 4)).
  - apply (bool_decide_unpack _). by vm_compute.
  - apply (bool_decide_unpack _). by vm_compute.
  - apply (bool_decide_unpack _). by vm_compute.
Defined.

(** The forward walk from [A] and the backward walk from [B] both find
    edge 11. *)
Example neighbors_both_ways :
  neighbors Scenario.db Scenario.A Scenario.w destination "success"
  = [(Some Scenario.B, Scenario.make_edge 11 "success" 3 4);
     (Some Scenario.A, Scenario.make_edge 14 "success" 3 3)]
  ∧ neighbors Scenario.db Scenario.B Scenario.w source "success"
    = [(Some Scenario.A, Scenario.make_edge 11 "success" 3 4)].
Proof. by vm_compute. Qed.

(** ** Naming a copy *)

Lemma string_length_app (s t : string) :
  String.length (s +:+ t) = String.length s + String.length t.
Proof.
  induction s as [|a s IH]; [done|].
  change (S (String.length (s +:+ t))
          = S (String.length s) + String.length t).
  by rewrite IH.
Qed.

Lemma string_app_nil_r (s : string) : s +:+ "" = s.
Proof.
  induction s as [|a s IH]; [done|].
  change (String a (s +:+ "") = String a s). by rewrite IH.
Qed.

Lemma string_app_inj_r (s1 s2 t : string) : s1 +:+ t = s2 +:+ t → s1 = s2.
Proof.
  revert s2. induction s1 as [|a s1 IH]; intros [|b s2] Heq; simpl in *.
  - done.
  - apply (f_equal String.length) in Heq.
    rewrite ?string_length_app in Heq. simpl in Heq.
    rewrite ?string_length_app in Heq. lia.
  - apply (f_equal String.length) in Heq.
    rewrite ?string_length_app in Heq. simpl in Heq.
    rewrite ?string_length_app in Heq. lia.
  - injection Heq as -> Heq. f_equal. by apply IH.
Qed.

Lemma duplicate_number_inj i j :
  duplicate_number i = duplicate_number j → i = j.
Proof.
  destruct i as [|i], j as [|j]; simpl; try done.
  intros [= Heq]. change ("" +:+ ?s)%string with s in Heq.
  apply string_app_inj_r in Heq. by apply (inj pretty) in Heq.
Qed.

Lemma duplicate_name_inj self workflow i j :
  duplicate_name self workflow i = duplicate_name self workflow j → i = j.
Proof.
  unfold duplicate_name, duplicate_scoped_name.
  destruct workflow as [workflow|]; intros Heq.
  - repeat apply (inj (String.app _)) in Heq.
    by apply duplicate_number_inj.
  - apply (inj (String.app _)) in Heq. by apply duplicate_number_inj.
Qed.

(** Distinct names cannot all sit in a shorter list. *)
Lemma fresh_index (names : list string) (f : nat → string) :
  (∀ i j, f i = f j → i = j) →
  ∃ i, i ≤ length names ∧ f i ∉ names.
Proof.
  intros Hinj.
  destruct (decide (Forall (λ i, f i ∈ names) (seq 0 (S (length names)))))
    as [Hall|Hsome].
  - exfalso.
    assert (NoDup (f <$> seq 0 (S (length names)))) as Hnodup.
    { apply NoDup_fmap_2_strong; [|apply NoDup_seq]. auto. }
    assert (f <$> seq 0 (S (length names)) ⊆ names) as Hsub.
    { intros n (i & -> & Hi)%list_elem_of_fmap.
      rewrite list.Forall_forall in Hall. by apply Hall. }
    pose proof (submseteq_length _ _
                  (NoDup_submseteq _ _ Hnodup Hsub)) as Hlen.
    rewrite length_fmap, length_seq in Hlen. lia.
  - apply not_Forall_Exists in Hsome; [|apply _].
    apply list.Exists_exists in Hsome as (i & Hi & Hfresh).
    apply elem_of_seq in Hi. exists i. split; [lia|done].
Qed.

Lemma duplicate_search_spec db self workflow fuel index result :
  duplicate_search db self workflow fuel index = Some result →
  ∃ i, result = (i, duplicate_name self workflow i,
                 duplicate_scoped_name self i)
       ∧ index ≤ i
       ∧ name_taken db (duplicate_name self workflow i) = false
       ∧ ∀ j, index ≤ j < i →
              name_taken db (duplicate_name self workflow j) = true.
Proof.
  revert index. induction fuel as [|fuel IH]; intros index; [done|].
  simpl.
  destruct (name_taken db (duplicate_name self workflow index)) eqn:Htaken.
  - intros Hsearch. destruct (IH _ Hsearch) as (i & -> & Hle & Hfree & Hbelow).
    exists i. split; [done|]. split; [lia|]. split; [done|].
    intros j Hj. destruct (decide (j = index)) as [->|]; [done|].
    apply Hbelow. lia.
  - intros [= <-]. exists index. split; [done|]. split; [lia|].
    split; [done|]. intros j ?. lia.
Qed.

Lemma duplicate_search_enough db self workflow fuel index i :
  index ≤ i →
  name_taken db (duplicate_name self workflow i) = false →
  i - index < fuel →
  is_Some (duplicate_search db self workflow fuel index).
Proof.
  revert index. induction fuel as [|fuel IH]; intros index Hle Hfree Hfuel;
    [lia|].
  simpl.
  destruct (name_taken db (duplicate_name self workflow index)) eqn:Htaken;
    [|by eexists].
  assert (index ≠ i) by congruence.
  apply IH; [lia|done|lia].
Qed.

Lemma duplicate_search_fuel db self workflow fuel fuel' index result :
  duplicate_search db self workflow fuel index = Some result →
  fuel ≤ fuel' →
  duplicate_search db self workflow fuel' index = Some result.
Proof.
  revert fuel' index. induction fuel as [|fuel IH]; intros fuel' index;
    [done|].
  destruct fuel' as [|fuel']; [lia|]. simpl.
  destruct (name_taken db (duplicate_name self workflow index)); [|done].
  intros ? ?. apply IH; [done|lia].
Qed.

(** X7.  The name of a copy.  The [while True] loop of [Service.duplicate]
    ends: it finds the least index whose name is not the name of a service
    of the database, after at most as many rounds as there are services
    plus one.  The name it hands to the copy is free, the names of all
    smaller indices are taken, index 0 stands for the bare scoped name, and
    more fuel gives the same result. *)
Theorem duplicate_fresh_name db self workflow :
  ∃ index fuel,
    index ≤ length (db_services db)
    ∧ (∀ fuel', fuel ≤ fuel' →
         duplicate_search db self workflow fuel' 0
         = Some (index, duplicate_name self workflow index,
                 duplicate_scoped_name self index))
    ∧ (duplicate_name self workflow index ∉ (name <$> db_services db))
    ∧ (∀ j, j < index →
            duplicate_name self workflow j ∈ (name <$> db_services db))
    ∧ duplicate_scoped_name self 0 = scoped_name self.
Proof.
  destruct (fresh_index (name <$> db_services db)
              (duplicate_name self workflow)
              (duplicate_name_inj self workflow)) as (i & Hi & Hfree).
  rewrite length_fmap in Hi.
  assert (name_taken db (duplicate_name self workflow i) = false) as Hi'.
  { by apply bool_decide_eq_false_2. }
  destruct (duplicate_search_enough db self workflow (S i) 0 i)
    as [result Hresult]; [lia|done|lia|].
  destruct (duplicate_search_spec _ _ _ _ _ _ Hresult)
    as (index & -> & _ & Hindex & Hbelow).
  assert (index ≤ i) as Hle.
  { destruct (decide (index ≤ i)) as [|Hgt]; [done|].
    rewrite Hbelow in Hi' by lia. done. }
  exists index, (S i). split; [lia|]. split.
  { intros fuel' ?. by eapply duplicate_search_fuel. }
  split; [by apply bool_decide_eq_false_1 in Hindex|].
  split.
  - intros j Hj. specialize (Hbelow j ltac:(lia)).
    by apply bool_decide_eq_true_1 in Hbelow.
  - unfold duplicate_scoped_name. simpl. apply string_app_nil_r.
Qed.

(** A copy of [A] into the workflow, when "[w] A" and "[w] A (1)" exist. *)
Example duplicate_third_copy :
  duplicate_search
    {| db_services := [Scenario.make_service 5 "[w] A" 1 1;
                       Scenario.make_service 6 "[w] A (1)" 1 1;
                       Scenario.make_service 7 "[w] A (3)" 1 1];
       db_edges := []; db_devices := [] |}
    Scenario.A (Some Scenario.w) 10 0
  = Some (2, "[w] A (2)", "A (2)").
Proof. by vm_compute. Qed.

(** ** Pool membership *)

Lemma list_remove_once x l :
  x ∈ l → length (filter (λ y, y = x) l) ≤ 1 → x ∉ list_remove x l.
Proof.
  induction l as [|y l IH]; intros Hin Hcount; [by apply elem_of_nil in Hin|].
  simpl. case_decide as Hy.
  - subst y. rewrite filter_cons_True in Hcount by done. simpl in Hcount.
    intros Hx. assert (0 < length (filter (λ y, y = x) l)); [|lia].
    apply list_elem_of_lookup in Hx as [i Hi].
    destruct (filter (λ y, y = x) l) as [|z k] eqn:Hfilter; [|simpl; lia].
    assert (x ∈ filter (λ y, y = x) l) as Hin'.
    { apply list_elem_of_filter. split; [done|].
      by eapply list_elem_of_lookup_2. }
    rewrite Hfilter in Hin'. by apply elem_of_nil in Hin'.
  - rewrite filter_cons_False in Hcount by done.
    apply elem_of_cons in Hin as [->|Hin]; [done|].
    intros [?|Hx]%elem_of_cons; [done|]. by apply IH.
Qed.

Lemma list_remove_others x l :
  filter (λ y, y ≠ x) (list_remove x l) = filter (λ y, y ≠ x) l.
Proof.
  induction l as [|y l IH]; simpl; [done|]. case_decide as Hy.
  - subst y. by rewrite filter_cons_False by (by intros Hne).
  - by rewrite !filter_cons_True, IH by done.
Qed.

(** The list of one automatically defined pool after its round. *)
Lemma update_pool_members match_instance self pool :
  manually_defined pool = false →
  pool_members (update_pool match_instance self pool)
  = if match_instance pool then
      if decide (self ∈ pool_members pool) then pool_members pool
      else pool_members pool ++ [self]
    else
      if decide (self ∈ pool_members pool)
      then list_remove self (pool_members pool)
      else pool_members pool.
Proof.
  intros Hmanual. unfold update_pool. rewrite Hmanual. simpl.
  destruct (match_instance pool); simpl;
    destruct (decide (self ∈ pool_members pool)) as [Hin|Hin].
  - rewrite (bool_decide_eq_true_2 _ Hin). simpl.
    by rewrite andb_false_r.
  - rewrite (bool_decide_eq_false_2 _ Hin). simpl.
    by rewrite andb_false_r.
  - by rewrite (bool_decide_eq_true_2 _ Hin).
  - by rewrite (bool_decide_eq_false_2 _ Hin).
Qed.

Lemma filter_eq_nil_not_in (x : Z) l :
  x ∉ l → filter (λ y, y = x) l = [].
Proof.
  intros Hnot.
  destruct (filter (λ y, y = x) l) as [|z k] eqn:Hfilter; [done|].
  assert (z ∈ filter (λ y, y = x) l) as Hz by (rewrite Hfilter; left).
  apply list_elem_of_filter in Hz as [-> ?]. done.
Qed.

(** X8.  Pool membership is synchronised.  After the loop at the end of
    [AbstractBase.update], for every pool that is not manually defined and
    held the instance at most once, the instance is a member exactly when
    [match_instance] accepts it; the other members are as they were, in
    order; the instance is still held at most once.  Manually defined pools
    are left as they are, and so is every pool when [update_pools] is not
    asked for or the model has no pools. *)
Theorem pools_synchronised update_pools_ pool_model match_instance self
    pools :
  (update_pools_ && pool_model = false →
   update_pools update_pools_ pool_model match_instance self pools = pools)
  ∧ (update_pools_ && pool_model = true →
     length (update_pools update_pools_ pool_model match_instance self
               pools) = length pools
     ∧ ∀ i pool,
         pools !! i = Some pool →
         ∃ pool',
           update_pools update_pools_ pool_model match_instance self pools
             !! i = Some pool'
           ∧ pool_id pool' = pool_id pool
           ∧ manually_defined pool' = manually_defined pool
           ∧ (manually_defined pool = true → pool' = pool)
           ∧ (manually_defined pool = false →
              filter (λ y, y ≠ self) (pool_members pool')
              = filter (λ y, y ≠ self) (pool_members pool)
              ∧ (length (filter (λ y, y = self) (pool_members pool)) ≤ 1 →
                 (self ∈ pool_members pool' ↔ match_instance pool = true)
                 ∧ length (filter (λ y, y = self) (pool_members pool'))
                   ≤ 1))).
Proof.
  unfold update_pools. split.
  - intros Hoff. by destruct update_pools_, pool_model.
  - intros Hon. destruct update_pools_, pool_model; try done. simpl.
    split; [by rewrite length_fmap|].
    intros i pool Hpool. exists (update_pool match_instance self pool).
    split; [by rewrite list_lookup_fmap, Hpool|].
    split; [unfold update_pool; by destruct (manually_defined pool)|].
    split.
    { unfold update_pool.
      by destruct (manually_defined pool) eqn:Hmanual; simpl. }
    split.
    { intros Hmanual. unfold update_pool. by rewrite Hmanual. }
    intros Hmanual. rewrite (update_pool_members _ _ _ Hmanual).
    destruct (match_instance pool);
      destruct (decide (self ∈ pool_members pool)) as [Hin|Hin].
    + split; [done|]. intros Hcount. split; [by split|exact Hcount].
    + split.
      { rewrite list.filter_app.
        rewrite (filter_cons_False _ self []) by (by intros Hne).
        by rewrite filter_nil, app_nil_r. }
      intros _. split.
      { split; [done|]. intros _. apply elem_of_app. right. left. }
      rewrite list.filter_app, filter_cons_True, filter_nil by done.
      rewrite length_app, (filter_eq_nil_not_in _ _ Hin). simpl. lia.
    + split; [apply list_remove_others|]. intros Hcount.
      pose proof (list_remove_once self _ Hin Hcount) as Hgone. split.
      { split; [done|discriminate]. }
      rewrite (filter_eq_nil_not_in _ _ Hgone). simpl. lia.
    + split; [done|]. intros Hcount. split; [|exact Hcount].
      split; [done|discriminate].
Qed.

Lemma pools_synchronised_witness :
  length (update_pools true true Pools.match_instance 9%Z
            [Pools.routers; Pools.switches; Pools.favourites]) = 3
  ∧ ∀ i pool,
      [Pools.routers; Pools.switches; Pools.favourites] !! i = Some pool →
      ∃ pool',
        update_pools true true Pools.match_instance 9%Z
          [Pools.routers; Pools.switches; Pools.favourites] !! i
        = Some pool'
        ∧ pool_id pool' = pool_id pool
        ∧ manually_defined pool' = manually_defined pool
        ∧ (manually_defined pool = true → pool' = pool)
        ∧ (manually_defined pool = false →
           filter (λ y, y ≠ 9%Z) (pool_members pool')
           = filter (λ y, y ≠ 9%Z) (pool_members pool)
           ∧ (length (filter (λ y, y = 9%Z) (pool_members pool)) ≤ 1 →
              (9%Z ∈ pool_members pool' ↔ Pools.match_instance pool = true)
              ∧ length (filter (λ y, y = 9%Z) (pool_members pool')) ≤ 1)).
Proof.
  apply (proj2 (pools_synchronised true true Pools.match_instance 9%Z
                  [Pools.routers; Pools.switches; Pools.favourites])).
  reflexivity.
Defined.

(** The instance leaves the routers, joins the switches, and stays among
    the manually chosen favourites. *)
Example pools_after_update :
  update_pools true true Pools.match_instance 9%Z
    [Pools.routers; Pools.switches; Pools.favourites]
  = [{| pool_id := 1; manually_defined := false;
        pool_members := [4%Z] |};
     {| pool_id := 2; manually_defined := false;
        pool_members := [5; 9]%Z |};
     Pools.favourites].
Proof. by vm_compute. Qed.

(** ** Serialisation *)

(** The loop of [get_properties], property by property. *)
Lemma get_properties_lookup schema self opt p :
  get_properties schema self opt !! p
  = if decide (p ∈ schema_properties schema)
    then get_property schema self opt p
    else None.
Proof.
  unfold get_properties.
  assert (∀ l (acc : gmap string Attribute),
            foldl (λ result property,
                     match get_property schema self opt property with
                     | Some value => <[property := value]> result
                     | None => result
                     end) acc l !! p
            = match get_property schema self opt p with
              | Some value => if decide (p ∈ l) then Some value else acc !! p
              | None => acc !! p
              end) as Hfold.
  { induction l as [|q l IH]; intros acc; simpl.
    - by destruct (get_property schema self opt p).
    - rewrite IH. destruct (decide (q = p)) as [->|Hne].
      + destruct (get_property schema self opt p) as [value|]; [|done].
        rewrite lookup_insert_eq.
        destruct (decide (p ∈ p :: l)) as [_|Hout]; [|destruct Hout; left].
        by destruct (decide (p ∈ l)).
      + destruct (get_property schema self opt p) as [value|] eqn:Hp.
        * destruct (decide (p ∈ l)) as [Hin|Hnin];
            destruct (decide (p ∈ q :: l)) as [Hin'|Hnin']; try done.
          -- destruct Hnin'. by right.
          -- apply elem_of_cons in Hin' as [?|?]; [by subst|done].
          -- destruct (get_property schema self opt q); [|done].
             by rewrite lookup_insert_ne.
        * destruct (get_property schema self opt q); [|done].
          by rewrite lookup_insert_ne. }
  rewrite Hfold, lookup_empty.
  destruct (get_property schema self opt p); [done|].
  by destruct (decide _).
Qed.

Lemma export_value_plain a :
  export_value a
  = match a with
    | Plain v => Plain v
    | MutableList items => Plain (JList items)
    | MutableDict items => Plain (JDict items)
    end.
Proof. by destruct a. Qed.

Lemma truthy_Some l : truthy l = true ↔ ∃ i l', l = Some (i :: l').
Proof.
  destruct l as [[|i l']|]; simpl; split; try done; try by intros (? & ? & ?).
  eauto.
Qed.

Lemma include_test p inc :
  truthy inc && negb (bool_decide (p ∈ default [] inc)) = false
  ↔ ∀ i l, inc = Some (i :: l) → p ∈ i :: l.
Proof.
  destruct inc as [[|i l]|]; simpl; [by split|..|by split].
  rewrite negb_false_iff, bool_decide_eq_true. split.
  - by intros ? ? ? [= <- <-].
  - intros Hin. by apply Hin.
Qed.

Lemma exclude_test p exc :
  truthy exc && bool_decide (p ∈ default [] exc) = false
  ↔ ∀ l, exc = Some l → p ∉ l.
Proof.
  destruct exc as [[|e l]|]; simpl.
  - split; [|done]. intros _ ? [= <-]. apply not_elem_of_nil.
  - rewrite bool_decide_eq_false. split.
    + by intros ? ? [= <-].
    + intros Hout. by apply Hout.
  - by split.
Qed.

(** The body of the loop, as a condition on the property. *)
Lemma get_property_Some schema self opt p v :
  get_property schema self opt p = Some v ↔
    (p ∉ schema_dont_serialize schema)
    ∧ (private_properties opt = false → p ∉ schema_private schema)
    ∧ (∀ i l, include opt = Some (i :: l) → p ∈ i :: l)
    ∧ (∀ l, exclude opt = Some l → p ∉ l)
    ∧ ∃ a, self !! p = Some a
           ∧ if export opt
             then (p ∉ schema_class_properties schema)
                  ∧ (p ∉ schema_no_migrate schema)
                  ∧ v ≠ Plain JNull
                  ∧ match a with
                    | Plain j => v = Plain j
                    | MutableList items => v = Plain (JList items)
                    | MutableDict items => v = Plain (JDict items)
                    end
             else v = a.
Proof.
  unfold get_property.
  rewrite <- include_test, <- exclude_test.
  destruct (negb (private_properties opt)
            && bool_decide (p ∈ schema_private schema)) eqn:Hprivate.
  { split; [done|]. intros (_ & Hno & _).
    apply andb_true_iff in Hprivate as [Hopt Hin].
    apply negb_true_iff in Hopt. apply bool_decide_eq_true in Hin.
    by destruct (Hno Hopt). }
  assert (private_properties opt = false → p ∉ schema_private schema)
    as Hpriv.
  { intros Hopt. rewrite Hopt in Hprivate. simpl in Hprivate.
    by apply bool_decide_eq_false in Hprivate. }
  destruct (decide (p ∈ schema_dont_serialize schema)) as [Hs|Hs].
  { rewrite (bool_decide_eq_true_2 _ Hs).
    by split; [|intros (? & _)]. }
  rewrite (bool_decide_eq_false_2 _ Hs).
  destruct (export opt) eqn:Hexport; simpl.
  - destruct (decide (p ∈ schema_class_properties schema)) as [Hc|Hc].
    { rewrite (bool_decide_eq_true_2 _ Hc).
      split; [done|]. by intros (_ & _ & _ & _ & a & _ & ? & _). }
    rewrite (bool_decide_eq_false_2 _ Hc).
    destruct (truthy (include opt) && _) eqn:Hinclude; simpl.
    { split; [done|]. by intros (_ & _ & ? & _). }
    destruct (truthy (exclude opt) && _) eqn:Hexclude; simpl.
    { split; [done|]. by intros (_ & _ & _ & ? & _). }
    destruct (decide (p ∈ schema_no_migrate schema)) as [Hm|Hm].
    { rewrite (bool_decide_eq_true_2 _ Hm).
      split; [done|]. by intros (_ & _ & _ & _ & a & _ & _ & ? & _). }
    rewrite (bool_decide_eq_false_2 _ Hm).
    destruct (self !! p) as [a|];
      [|by split; [|intros (_ & _ & _ & _ & ? & ? & _)]].
    rewrite export_value_plain. split.
    + destruct a as [[]| |]; simpl; intros [= <-]; repeat split; try done;
        by eexists.
    + intros (_ & _ & _ & _ & a' & [= <-] & _ & _ & Hnone & Hv).
      destruct a as [[]| |]; by subst.
  - destruct (truthy (include opt) && _) eqn:Hinclude; simpl.
    { split; [done|]. by intros (_ & _ & ? & _). }
    destruct (truthy (exclude opt) && _) eqn:Hexclude; simpl.
    { split; [done|]. by intros (_ & _ & _ & ? & _). }
    destruct (self !! p) as [a|];
      [|by split; [|intros (_ & _ & _ & _ & ? & ? & _)]].
    split.
    + intros [= <-]. repeat split; try done. by eexists.
    + by intros (_ & _ & _ & _ & a' & [= <-] & ->).
Qed.

(** X9.  What [get_properties] returns.  The result holds [p] with value
    [v] exactly when [p] is a model property of the type that is not in
    [db.dont_serialize], is not a private property unless
    [private_properties] is set, is listed in [include] when [include] is a
    non-empty list, is not listed in [exclude], and the instance has the
    attribute; without [export], [v] is the attribute; with [export], [p]
    is moreover neither one of the class's [model_properties] nor in
    [db.dont_migrate], and [v] is the attribute with the tracked
    collections copied into plain ones, which is not [None]. *)
Theorem get_properties_spec schema self opt p v :
  get_properties schema self opt !! p = Some v ↔
    p ∈ schema_properties schema
    ∧ (p ∉ schema_dont_serialize schema)
    ∧ (private_properties opt = false → p ∉ schema_private schema)
    ∧ (∀ i l, include opt = Some (i :: l) → p ∈ i :: l)
    ∧ (∀ l, exclude opt = Some l → p ∉ l)
    ∧ ∃ a, self !! p = Some a
           ∧ if export opt
             then (p ∉ schema_class_properties schema)
                  ∧ (p ∉ schema_no_migrate schema)
                  ∧ v ≠ Plain JNull
                  ∧ match a with
                    | Plain j => v = Plain j
                    | MutableList items => v = Plain (JList items)
                    | MutableDict items => v = Plain (JDict items)
                    end
             else v = a.
Proof.
  rewrite get_properties_lookup.
  destruct (decide (p ∈ schema_properties schema)) as [Hp|Hp].
  - rewrite get_property_Some. split; [by intros ?|by intros [_ ?]].
  - split; [done|]. by intros (? & _).
Qed.

(** X10.  What a copy inherits.  [AbstractBase.duplicate] hands to
    [db.factory] the keyword arguments it was given and, for the names they
    do not bind, the attributes of the original that are model properties
    of the type, serialised, not private and neither [id] nor [name].  The
    copy therefore takes its [id] and [name], and every private property,
    from the keyword arguments only. *)
Theorem duplicate_kwargs_spec schema self kwargs p v :
  duplicate_kwargs schema self kwargs !! p = Some v ↔
    kwargs !! p = Some v
    ∨ (kwargs !! p = None ∧ p ≠ "id" ∧ p ≠ "name"
       ∧ p ∈ schema_properties schema
       ∧ (p ∉ schema_dont_serialize schema)
       ∧ (p ∉ schema_private schema)
       ∧ self !! p = Some v).
Proof.
  unfold duplicate_kwargs.
  rewrite lookup_union_Some_raw, map_lookup_filter_Some.
  rewrite get_properties_lookup. simpl.
  destruct (decide (p ∈ schema_properties schema)) as [Hp|Hp].
  - rewrite get_property_Some. simpl. split.
    + intros [?|(Hkw & (Hs & Hpriv & _ & _ & a & Ha & ->) & Hid)]; [by left|].
      right. repeat split; try done.
      * intros ->. apply Hid. left.
      * intros ->. apply Hid. right. left.
      * by apply Hpriv.
    + intros [?|(Hkw & Hid & Hname & _ & Hs & Hpriv & Hv)]; [by left|].
      right. repeat split; try done.
      * by eexists.
      * intros [->|Hin]%elem_of_cons; [done|].
        by apply list_elem_of_singleton in Hin.
  - split.
    + intros [?|(_ & ? & _)]; [by left|done].
    + intros [?|(_ & _ & _ & ? & _)]; [by left|done].
Qed.

(** A device row: the password is private, the serial number is not
    serialised. *)
Example serialised_device :
  let schema :=
    {| schema_properties := ["id"; "name"; "vendor"; "password"; "serial"];
       schema_private := {["password"]};
       schema_dont_serialize := ["serial"];
       schema_no_migrate := [];
       schema_class_properties := [] |} in
  let self : Object_ :=
    <["id" := Plain (JNum 7)]>
      (<["name" := Plain (JStr "r1")]>
         (<["vendor" := Plain (JStr "Cisco")]>
            (<["password" := Plain (JStr "gAAAA")]>
               (<["serial" := Plain (JStr "X1")]> ∅)))) in
  get_properties schema self default_options
  = <["id" := Plain (JNum 7)]>
      (<["name" := Plain (JStr "r1")]>
         (<["vendor" := Plain (JStr "Cisco")]> ∅))
  ∧ duplicate_kwargs schema self (<["name" := Plain (JStr "r2")]> ∅)
    = <["name" := Plain (JStr "r2")]>
        (<["vendor" := Plain (JStr "Cisco")]> ∅).
Proof. split; apply map_eq; intros k; by vm_compute. Qed.

(** ** Serialisation with relationships *)

Lemma serialize_related_is_Some names_only exclude_ obj :
  is_Some (instance_attributes obj !! "name") →
  is_Some (serialize_related names_only exclude_ obj).
Proof.
  intros [n Hn]. unfold serialize_related.
  destruct names_only; [|done]. rewrite Hn. by eexists.
Qed.

(** One relationship: it returns when the objects have names, leaves the
    other keys alone, and adds its own key only if [include] and
    [exclude] let it. *)
Lemma to_dict_relation_spec schema opt names_only properties property value :
  (∀ obj, obj ∈ related value →
          is_Some (instance_attributes obj !! "name")) →
  ∃ properties',
    to_dict_relation schema opt names_only properties property value
    = Some properties'
    ∧ (∀ p, p ≠ property → properties' !! p = properties !! p)
    ∧ (properties' !! property = properties !! property
       ∨ (∃ v, properties' !! property = Some v ∧ is_scalar v = false)
         ∧ (∀ i l, include opt = Some (i :: l) → property ∈ i :: l)
         ∧ (∀ l, exclude opt = Some l → property ∉ l)).
Proof.
  intros Hnames. unfold to_dict_relation.
  destruct (truthy (include opt) && _) eqn:Hinclude; simpl.
  { exists properties. split; [done|]. split; [done|]. by left. }
  pose proof (proj1 (include_test _ _) Hinclude) as Hinc.
  destruct (truthy (exclude opt) && _) eqn:Hexclude; simpl.
  { exists properties. split; [done|]. split; [done|]. by left. }
  pose proof (proj1 (exclude_test _ _) Hexclude) as Hexc.
  destruct (export opt && _).
  { exists properties. split; [done|]. split; [done|]. by left. }
  destruct value as [objs|[obj|]].
  - destruct (mapM _ objs) as [items|] eqn:Hitems.
    + eexists. split; [done|]. split.
      * intros p Hp. by rewrite lookup_insert_ne.
      * right. split; [|done]. eexists. by rewrite lookup_insert_eq.
    + match type of Hitems with
      | mapM ?f ?l = None =>
          assert (is_Some (mapM f l)) as [? Hsome];
            [|by rewrite Hitems in Hsome]
      end.
      apply mapM_is_Some, list.Forall_forall. intros obj Hobj.
      apply serialize_related_is_Some. by apply Hnames.
  - destruct (serialize_related_is_Some (export opt || names_only)
                (exclude opt) obj) as [item ->].
    { apply Hnames. simpl. left. }
    eexists. split; [done|]. split.
    + intros p Hp. by rewrite lookup_insert_ne.
    + right. split; [|done]. eexists. by rewrite lookup_insert_eq.
  - exists properties. split; [done|]. split; [done|]. by left.
Qed.

Lemma to_dict_fold schema opt names_only relations :
  (∀ relation obj, relation ∈ relations → obj ∈ related relation.2 →
                   is_Some (instance_attributes obj !! "name")) →
  ∀ properties,
    ∃ properties',
      foldl (λ acc relation,
               match acc with
               | Some properties =>
                   to_dict_relation schema opt names_only properties
                     relation.1 relation.2
               | None => None
               end) (Some properties) relations
      = Some properties'
      ∧ (∀ p, p ∉ relations.*1 → properties' !! p = properties !! p)
      ∧ (∀ p v, properties' !! p = Some v →
           properties !! p = Some v
           ∨ is_scalar v = false
             ∧ p ∈ relations.*1
             ∧ (∀ i l, include opt = Some (i :: l) → p ∈ i :: l)
             ∧ (∀ l, exclude opt = Some l → p ∉ l)).
Proof.
  induction relations as [|[property value] relations IH];
    intros Hnames properties; simpl.
  - exists properties. split; [done|]. split; [done|]. intros p v ?. by left.
  - destruct (to_dict_relation_spec schema opt names_only properties
                property value) as (properties1 & -> & Hother & Hown).
    { intros obj Hobj. apply (Hnames (property, value)); [left|done]. }
    destruct (IH (λ relation obj Hin, Hnames relation obj
                    (list_elem_of_further _ _ _ Hin)) properties1)
      as (properties' & -> & Hrest & Hadded).
    exists properties'. split; [done|]. split.
    + intros p Hp. apply not_elem_of_cons in Hp as [Hne Hp].
      by rewrite Hrest, Hother.
    + intros p v Hv.
      destruct (Hadded p v Hv) as [Hv1|(? & ? & ? & ?)].
      * destruct (decide (p = property)) as [->|Hne].
        -- destruct Hown as [Heq|((v' & Hv' & Hscalar) & Hi & He)].
           ++ left. by rewrite <- Heq.
           ++ right. rewrite Hv1 in Hv'. injection Hv' as <-.
              repeat split; [done|left|done|done].
        -- left. by rewrite <- Hother.
      * right. repeat split; [done|by right|done|done].
Qed.

(** X15.  [to_dict] does not apply [include] to the model properties.  When
    the related objects it has to name have a [name], [to_dict] returns a
    dictionary that, under every key that is not a relationship, holds what
    [get_properties] returns for the same [export], [exclude] and
    [private_properties] and no [include] at all; the relationships alone
    are filtered by [include]: a relationship is in the result only if it
    is not listed in [exclude] and, when [include] is a non-empty list, is
    listed there. *)
Theorem to_dict_include schema self relations opt relation_names_only :
  (∀ relation obj, relation ∈ relations → obj ∈ related relation.2 →
                   is_Some (instance_attributes obj !! "name")) →
  ∃ d,
    to_dict schema self relations opt relation_names_only = Some d
    ∧ (∀ p, p ∉ relations.*1 →
         d !! p
         = Scalar <$> get_properties schema self (to_dict_options opt) !! p)
    ∧ (∀ p v, d !! p = Some v → is_scalar v = false →
         p ∈ relations.*1
         ∧ (∀ i l, include opt = Some (i :: l) → p ∈ i :: l)
         ∧ (∀ l, exclude opt = Some l → p ∉ l)).
Proof.
  intros Hnames. unfold to_dict.
  destruct (to_dict_fold schema opt relation_names_only relations Hnames
              (Scalar <$> get_properties schema self (to_dict_options opt)))
    as (d & -> & Hrest & Hadded).
  exists d. split; [done|]. split.
  - intros p Hp. by rewrite Hrest, lookup_fmap.
  - intros p v Hv Hscalar.
    destruct (Hadded p v Hv) as [Hprop|(_ & ? & ? & ?)]; [|done].
    rewrite lookup_fmap in Hprop.
    destruct (get_properties _ _ _ !! p); simpl in Hprop; [|done].
    injection Hprop as <-. done.
Qed.

Lemma to_dict_include_witness :
  ∃ d,
    to_dict Inventory.schema Inventory.device Inventory.relations
      Inventory.only_pools true = Some d
    ∧ (∀ p, p ∉ Inventory.relations.*1 →
         d !! p
         = Scalar <$> get_properties Inventory.schema Inventory.device
                        (to_dict_options Inventory.only_pools) !! p)
    ∧ (∀ p v, d !! p = Some v → is_scalar v = false →
         p ∈ Inventory.relations.*1
         ∧ (∀ i l, include Inventory.only_pools = Some (i :: l) →
                   p ∈ i :: l)
         ∧ (∀ l, exclude Inventory.only_pools = Some l → p ∉ l)).
Proof.
  apply (to_dict_include Inventory.schema Inventory.device
           Inventory.relations Inventory.only_pools true).
  intros relation obj Hrelation Hobj. unfold Inventory.relations in Hrelation.
  repeat (apply elem_of_cons in Hrelation as [->|Hrelation];
          [simpl in Hobj;
           repeat (apply elem_of_cons in Hobj as [->|Hobj]; [by eexists|]);
           by apply elem_of_nil in Hobj|]).
  by apply elem_of_nil in Hrelation.
Defined.

(** Asked for the pools only, [to_dict] still returns the model
    properties. *)
Example device_with_pools :
  to_dict Inventory.schema Inventory.device Inventory.relations
    Inventory.only_pools true
  = Some (<["id" := Scalar (Plain (JNum 7))]>
            (<["name" := Scalar (Plain (JStr "r1"))]>
               (<["vendor" := Scalar (Plain (JStr "Cisco"))]>
                  (<["pools" := Many [ItemName (Plain (JStr "all"))]]> ∅)))).
Proof. by vm_compute. Qed.

(** ** The state of a run *)

Lemma item_get_cons kv d key :
  item_get (kv :: d) key
  = if decide (kv.1 = key) then Some kv.2 else item_get d key.
Proof.
  unfold item_get. simpl. destruct (decide (kv.1 = key)) as [Heq|Hne].
  - by rewrite bool_decide_eq_true_2.
  - by rewrite bool_decide_eq_false_2.
Qed.

Lemma item_get_set_eq d key value :
  item_get (item_set d key value) key = Some value.
Proof.
  induction d as [|kv d IH]; simpl.
  - rewrite item_get_cons. simpl. by rewrite decide_True.
  - destruct (decide (kv.1 = key)) as [Heq|Hne]; rewrite item_get_cons; simpl.
    + by rewrite decide_True.
    + by rewrite decide_False.
Qed.

Lemma item_get_set_ne d key key' value :
  key' ≠ key → item_get (item_set d key value) key' = item_get d key'.
Proof.
  intros Hkey. induction d as [|kv d IH]; simpl.
  - rewrite item_get_cons. simpl. by rewrite decide_False.
  - destruct (decide (kv.1 = key)) as [Heq|Hne];
      rewrite !item_get_cons; simpl.
    + rewrite !decide_False; [done|congruence|congruence].
    + by rewrite IH.
Qed.

Lemma get_path_leaf value path x :
  is_dict value = false → get_path value path = Some x →
  path = [] ∧ x = value.
Proof.
  intros Hleaf. destruct path as [|key path]; simpl.
  - by intros [= <-].
  - by destruct value.
Qed.

Lemma get_path_empty path x :
  get_path (JDict []) path = Some x → path = [] ∧ x = JDict [].
Proof.
  destruct path as [|key path]; simpl; [by intros [= <-]|done].
Qed.

Lemma prefix_cons_eq {A} (x y : A) (l k : list A) :
  x :: l `prefix_of` y :: k ↔ x = y ∧ l `prefix_of` k.
Proof.
  split.
  - intros [t Ht]. simplify_eq/=. split; [done|by exists t].
  - intros [-> [t ->]]. by exists t.
Qed.

(** One key of the flat store written into the tree: the value sits at the
    end of its path, the way there is made of dictionaries, and the rest of
    the tree is as before. *)
Lemma store_at_spec path last_key value store :
  (∀ q x, q `prefix_of` path ++ [last_key] → q ≠ path ++ [last_key] →
          get_path store q = Some x → is_dict x = true) →
  ∃ store',
    store_at path last_key value store = inr store'
    ∧ (∀ q, get_path store' (path ++ [last_key] ++ q) = get_path value q)
    ∧ (∀ q, q `prefix_of` path ++ [last_key] → q ≠ path ++ [last_key] →
            ∃ d, get_path store' q = Some (JDict d))
    ∧ (∀ q, ¬ q `prefix_of` path ++ [last_key] →
            ¬ path ++ [last_key] `prefix_of` q →
            get_path store' q = get_path store q).
Proof.
  revert store. induction path as [|key path IH]; intros store Hwalk.
  - assert (is_dict store = true) as Hdict.
    { apply (Hwalk [] store); [apply prefix_nil|done|done]. }
    destruct store as [| | | | |d]; try done. simpl.
    eexists. split; [done|]. split; [|split].
    + intros q. simpl. by rewrite item_get_set_eq.
    + intros q Hq Hne. destruct q as [|k q]; [by eexists|].
      apply prefix_cons_eq in Hq as [-> Hq].
      apply prefix_nil_inv in Hq as ->. done.
    + intros q Hq Hq'. destruct q as [|k q]; [by destruct Hq; apply prefix_nil|].
      simpl. rewrite item_get_set_ne; [done|].
      intros ->. apply Hq'. apply prefix_cons_eq. split; [done|].
      apply prefix_nil.
  - assert (is_dict store = true) as Hdict.
    { apply (Hwalk [] store); [apply prefix_nil|done|done]. }
    destruct store as [| | | | |d]; try done. simpl.
    destruct (IH (default (JDict []) (item_get d key)))
      as (inner' & -> & Hat & Hway & Hrest).
    { intros q x Hq Hne Hx.
      destruct (item_get d key) as [inner|] eqn:Hinner; simpl in Hx.
      - apply (Hwalk (key :: q) x).
        + by apply prefix_cons_eq.
        + by intros [= ->].
        + simpl. by rewrite Hinner.
      - by apply get_path_empty in Hx as [_ ->]. }
    eexists. split; [done|]. split; [|split].
    + intros q. simpl. rewrite item_get_set_eq. apply Hat.
    + intros q Hq Hne. destruct q as [|k q]; [by eexists|].
      apply prefix_cons_eq in Hq as [-> Hq]. simpl.
      rewrite item_get_set_eq. apply Hway; [done|]. by intros ->.
    + intros q Hq Hq'. destruct q as [|k q]; [by destruct Hq; apply prefix_nil|].
      simpl. destruct (decide (k = key)) as [->|Hk].
      * rewrite item_get_set_eq, Hrest.
        -- destruct (item_get d key) as [inner|]; simpl; [done|].
           destruct q as [|k' q]; [|done].
           destruct Hq. apply prefix_cons_eq. split; [done|apply prefix_nil].
        -- intros ?. apply Hq. by apply prefix_cons_eq.
        -- intros ?. apply Hq'. by apply prefix_cons_eq.
      * by rewrite item_get_set_ne.
Qed.

Lemma unpack_last_Some components :
  components ≠ [] →
  ∃ path last_key, unpack_last components = inr (path, last_key)
                   ∧ components = path ++ [last_key].
Proof.
  intros Hne. unfold unpack_last.
  destruct (list.last components) as [last_key|] eqn:Hlast.
  - exists (removelast components), last_key. split; [done|].
    apply last_Some in Hlast as [l' ->].
    by rewrite removelast_last.
  - by apply last_None in Hlast.
Qed.

Lemma state_value_leaf value : is_dict (state_value value) = false.
Proof.
  destruct value as [s|]; simpl; [|done]. by destruct (bool_decide _).
Qed.

(** The loop over the keys: the entries written so far are where their
    paths say, and every leaf of the tree is one of them. *)
Lemma assemble_spec data :
  ∀ (written : list (string * option string)) (state : Json),
    is_dict state = true →
    (∀ log value, (log, value) ∈ written →
       get_path state (state_path log) = Some (state_value value)) →
    (∀ q x, get_path state q = Some x → is_dict x = false →
       ∃ log value, (log, value) ∈ written
                    ∧ q = state_path log ∧ x = state_value value) →
    (∀ log value, (log, value) ∈ data → state_path log ≠ []) →
    (∀ i j a b, (written ++ data) !! i = Some a →
                (written ++ data) !! j = Some b → i ≠ j →
                ¬ state_path a.1 `prefix_of` state_path b.1) →
    ∃ state',
      assemble data state = inr state'
      ∧ is_dict state' = true
      ∧ (∀ log value, (log, value) ∈ written ++ data →
           get_path state' (state_path log) = Some (state_value value))
      ∧ (∀ q x, get_path state' q = Some x → is_dict x = false →
           ∃ log value, (log, value) ∈ written ++ data
                        ∧ q = state_path log ∧ x = state_value value).
Proof.
  induction data as [|[log value] data IH];
    intros written state Hdict Hwritten Hleaves Hpaths Hfree.
  - exists state. rewrite app_nil_r. by simpl.
  - simpl.
    destruct (unpack_last_Some (state_path log))
      as (path & last_key & -> & Hfull).
    { apply (Hpaths log value). left. }
    assert (∀ log' value', (log', value') ∈ written →
              ¬ state_path log' `prefix_of` state_path log
              ∧ ¬ state_path log `prefix_of` state_path log') as Hother.
    { intros log' value' Hin.
      apply list_elem_of_lookup in Hin as [i Hi].
      pose proof (lookup_lt_Some _ _ _ Hi) as Hlt.
      split.
      - apply (Hfree i (length written) (log', value') (log, value)).
        + by rewrite lookup_app_l.
        + by rewrite list_lookup_middle.
        + lia.
      - apply (Hfree (length written) i (log, value) (log', value')).
        + by rewrite list_lookup_middle.
        + by rewrite lookup_app_l.
        + lia. }
    destruct (store_at_spec path last_key (state_value value) state)
      as (state' & -> & Hat & Hway & Hrest).
    { intros q x Hq Hne Hx.
      destruct (is_dict x) eqn:Hx'; [done|].
      destruct (Hleaves q x Hx Hx') as (log' & value' & Hin & -> & _).
      destruct (Hother log' value' Hin) as [Hno _].
      destruct Hno. by rewrite Hfull. }
    destruct (IH (written ++ [(log, value)]) state')
      as (state'' & -> & Hdict'' & Hwritten'' & Hleaves'').
    + destruct (Hway []) as [d Hd]; [apply prefix_nil|by destruct path|].
      simpl in Hd. by injection Hd as ->.
    + intros log' value' [Hin|Hin]%elem_of_app.
      * destruct (Hother log' value' Hin) as [Hno Hno'].
        rewrite Hrest; [by apply Hwritten|by rewrite <- Hfull..].
      * apply list_elem_of_singleton in Hin as [= -> ->].
        rewrite Hfull.
        by rewrite <- (app_nil_r (path ++ [last_key])), <- app_assoc, Hat.
    + intros q x Hx Hleaf.
      destruct (decide (q `prefix_of` path ++ [last_key])) as [Hq|Hq].
      * destruct (decide (q = path ++ [last_key])) as [->|Hne].
        -- exists log, value. split; [apply elem_of_app; right; left|].
           split; [done|].
           rewrite <- (app_nil_r (path ++ [last_key])), <- app_assoc, Hat
             in Hx.
           by injection Hx as <-.
        -- destruct (Hway q Hq Hne) as [d Hd]. rewrite Hd in Hx.
           by injection Hx as <-.
      * destruct (decide (path ++ [last_key] `prefix_of` q)) as [[t ->]|Hq'].
        -- rewrite <- app_assoc, Hat in Hx.
           apply get_path_leaf in Hx as [-> ->];
             [|apply state_value_leaf].
           destruct Hq. rewrite app_nil_r. done.
        -- rewrite Hrest in Hx by done.
           destruct (Hleaves q x Hx Hleaf) as (log' & value' & Hin & ? & ?).
           exists log', value'. split; [|done]. apply elem_of_app. by left.
    + intros log' value' Hin. apply (Hpaths log' value'). by right.
    + intros i j a b. rewrite <- app_assoc. simpl. apply Hfree.
    + exists state''. split; [done|]. split; [done|].
      rewrite <- app_assoc in Hwritten'', Hleaves''. simpl in *.
      by split.
Qed.

(** X11.  The tree of a run's state is rebuilt from Redis.  When the run
    holds no state of its own and the queue answers, with keys whose paths
    (the components after [<runtime>/state/]) are not empty and of which
    none is the beginning of another, [get_state] returns a tree in which
    the value of every key is found by following the key's path, ["True"]
    and ["False"] read as booleans, and every value of the tree that is
    not a dictionary is the value of some key. *)
Theorem state_assembled self_state self_runtime redis run_states
    keys values :
  state_truthy self_state = false →
  redis_keys redis (self_runtime +:+ "/state/*") = Some keys →
  redis_mget redis keys = Some values →
  (∀ key, key ∈ keys → state_path key ≠ []) →
  (∀ i j a b, keys !! i = Some a → keys !! j = Some b → i ≠ j →
              ¬ state_path a `prefix_of` state_path b) →
  ∃ state,
    get_state self_state self_runtime (Some redis) run_states = inr state
    ∧ (∀ i key value, keys !! i = Some key → values !! i = Some value →
         get_path state (state_path key) = Some (state_value value))
    ∧ (∀ path leaf, get_path state path = Some leaf →
         is_dict leaf = false →
         ∃ i key value, keys !! i = Some key ∧ values !! i = Some value
                        ∧ path = state_path key
                        ∧ leaf = state_value value).
Proof.
  intros Hstate Hkeys Hvalues Hpaths Hfree.
  unfold get_state. rewrite Hstate, Hkeys.
  destruct (assemble_spec (zip keys values) [] (JDict []))
    as (state & Hassemble & _ & Hat & Hleaves); simpl.
  - done.
  - by intros ? ? ?%elem_of_nil.
  - by intros q x [-> ->]%get_path_empty.
  - intros log value Hin. apply Hpaths.
    apply list_elem_of_lookup in Hin as [i Hi].
    apply lookup_zip_with_Some in Hi as (key & ? & [= <- <-] & Hkey & _).
    by apply list_elem_of_lookup_2 in Hkey.
  - intros i j a b Hi Hj.
    apply lookup_zip_with_Some in Hi as (? & ? & -> & Hi & _).
    apply lookup_zip_with_Some in Hj as (? & ? & -> & Hj & _).
    simpl. by apply Hfree.
  - simpl in *. exists state. split; [|split].
    + destruct keys as [|key keys]; [|by rewrite Hvalues].
      destruct values; simpl in Hassemble; by injection Hassemble as <-.
    + intros i key value Hkey Hvalue. apply Hat.
      apply list_elem_of_lookup. exists i.
      apply lookup_zip_with_Some. by exists key, value.
    + intros path leaf Hleaf Hnot.
      destruct (Hleaves path leaf Hleaf Hnot) as (log & value & Hin & ? & ?).
      apply list_elem_of_lookup in Hin as [i Hi].
      apply lookup_zip_with_Some in Hi as (? & ? & [= <- <-] & ? & ?).
      by exists i, log, value.
Qed.

Lemma state_assembled_witness :
  ∃ state,
    get_state JNull "rt" (Some Cache.redis) (inr JNull) = inr state
    ∧ (∀ i key value, Cache.keys !! i = Some key →
         Cache.values !! i = Some value →
         get_path state (state_path key) = Some (state_value value))
    ∧ (∀ path leaf, get_path state path = Some leaf →
         is_dict leaf = false →
         ∃ i key value, Cache.keys !! i = Some key
                        ∧ Cache.values !! i = Some value
                        ∧ path = state_path key
                        ∧ leaf = state_value value).
Proof.
  apply (state_assembled JNull "rt" Cache.redis (inr JNull)
           Cache.keys Cache.values).
  - reflexivity.
  - reflexivity.
  - reflexivity.
  - apply list.Forall_forall. apply (bool_decide_unpack _). by vm_compute.
  - intros i j a b Hi Hj Hne.
    destruct i as [|[|[|i]]]; destruct j as [|[|[|j]]];
      simpl in Hi, Hj; try done; simplify_eq;
      apply (bool_decide_unpack _); by vm_compute.
Defined.

(** The tree of the example, and what a key that is the beginning of
    another does.  When it comes first, the assignment under its value, a
    string, raises; when it comes last, its value silently replaces the
    dictionary that the longer key had filled. *)
Example state_tree :
  get_state JNull "rt" (Some Cache.redis) (inr JNull)
  = inr (JDict [("1", JDict [("progress",
                              JDict [("device",
                                      JDict [("total", JStr "3")])]);
                             ("success", JBool true)]);
                ("2", JDict [("result", JNull)])])
  ∧ get_state JNull "rt" (Some Cache.clash) (inr JNull)
    = inl State_TypeError
  ∧ get_state JNull "rt" (Some Cache.shadowed) (inr JNull)
    = inr (JDict [("1", JStr "3")]).
Proof. repeat split; by vm_compute. Qed.

(** ** Workflows within workflows *)

Lemma workflows_of_spec c s w : w ∈ workflows_of c s ↔ belongs_to c s w.
Proof.
  unfold workflows_of, belongs_to. rewrite list_elem_of_fmap. split.
  - intros ([s' w'] & -> & [Heq Hin]%list_elem_of_filter).
    simpl in *. by subst.
  - intros Hin. exists (s, w). split; [done|].
    by apply list_elem_of_filter.
Qed.

Lemma services_of_spec c s w : s ∈ services_of c w ↔ belongs_to c s w.
Proof.
  unfold services_of, belongs_to. rewrite list_elem_of_fmap. split.
  - intros ([s' w'] & -> & [Heq Hin]%list_elem_of_filter).
    simpl in *. by subst.
  - intros Hin. exists (s, w). split; [done|].
    by apply list_elem_of_filter.
Qed.

(** [rec] collects what lies above. *)
Lemma rec_spec c depth s above :
  rec c depth s = Some above →
  ∀ x, x ∈ above ↔ rtc (belongs_to c) s x.
Proof.
  revert s above. induction depth as [|depth IH]; intros s above; [done|].
  simpl. destruct (mapM _ _) as [ups|] eqn:Hups; [|done].
  intros [= <-] x. apply mapM_Some in Hups.
  rewrite elem_of_union, elem_of_singleton, elem_of_union_list. split.
  - intros [->|(up & Hup & Hx)]; [done|].
    apply list_elem_of_lookup in Hup as [i Hi].
    destruct (Forall2_lookup_r _ _ _ _ _ Hups Hi) as (w & Hw & Hrec).
    apply rtc_l with w.
    + apply workflows_of_spec. by eapply list_elem_of_lookup_2.
    + by apply (IH w up).
  - intros Hrtc. apply rtc_inv in Hrtc as [->|(w & Hw & Hrtc)]; [by left|].
    right. apply workflows_of_spec, list_elem_of_lookup in Hw as [i Hi].
    destruct (Forall2_lookup_l _ _ _ _ _ Hups Hi) as (up & Hup & Hrec).
    exists up. split; [by eapply list_elem_of_lookup_2|].
    by apply (IH w up).
Qed.

(** [deep_services] collects what lies below, when only workflows have
    services. *)
Lemma deep_services_spec c depth w below :
  (∀ s w', belongs_to c s w' → type_of c w' = "workflow") →
  deep_services c depth w = Some below →
  ∀ x, x ∈ below ↔ rtc (belongs_to c) x w.
Proof.
  intros Htypes.
  revert w below. induction depth as [|depth IH]; intros w below; [done|].
  simpl. destruct (mapM _ _) as [downs|] eqn:Hdowns; [|done].
  intros [= <-] x. apply mapM_Some in Hdowns.
  rewrite elem_of_cons, list_elem_of_In, in_concat.
  assert (∀ s down, (if decide (type_of c s = "workflow")
                     then deep_services c depth s else Some [s]) = Some down →
                    ∀ y, y ∈ down ↔ rtc (belongs_to c) y s) as Hdown.
  { intros s down Hs y. destruct (decide _) as [_|Hplain].
    - by apply IH.
    - injection Hs as <-. rewrite list_elem_of_singleton. split.
      + by intros ->.
      + intros Hrtc. apply rtc_inv_r in Hrtc as [->|(s' & _ & Hs')]; [done|].
        destruct Hplain. by eapply Htypes. }
  split.
  - intros [->|(down & Hin & Hx)]; [done|].
    apply list_elem_of_In, list_elem_of_lookup in Hin as [i Hi].
    destruct (Forall2_lookup_r _ _ _ _ _ Hdowns Hi) as (s & Hs & Hdeep).
    apply rtc_r with s.
    + apply (Hdown s down Hdeep). by apply list_elem_of_In.
    + apply services_of_spec. by eapply list_elem_of_lookup_2.
  - intros Hrtc. apply rtc_inv_r in Hrtc as [->|(s & Hrtc & Hs)]; [by left|].
    right. apply services_of_spec, list_elem_of_lookup in Hs as [i Hi].
    destruct (Forall2_lookup_l _ _ _ _ _ Hdowns Hi) as (down & Hin & Hdeep).
    exists down. split.
    + apply list_elem_of_In. by eapply list_elem_of_lookup_2.
    + apply list_elem_of_In. by apply (Hdown s down Hdeep).
Qed.

(** Without a cycle the recursions end. *)
Lemma rec_returns c (rank : Z → nat) n depth s :
  (∀ s w, belongs_to c s w → rank s < rank w) →
  (∀ x, rank x ≤ n) →
  n - rank s < depth → is_Some (rec c depth s).
Proof.
  intros Hrank Hbound. revert s.
  induction depth as [|depth IH]; intros s Hdepth; [lia|].
  simpl.
  destruct (mapM (rec c depth) (workflows_of c s)) as [ups|] eqn:Hups;
    [done|].
  assert (is_Some (mapM (rec c depth) (workflows_of c s))) as [? Hsome];
    [|by rewrite Hups in Hsome].
  apply mapM_is_Some, list.Forall_forall. intros w Hw. simpl.
  apply workflows_of_spec, Hrank in Hw.
  apply IH. pose proof (Hbound w). lia.
Qed.

Lemma deep_services_returns c (rank : Z → nat) depth w :
  (∀ s w, belongs_to c s w → rank s < rank w) →
  rank w < depth → is_Some (deep_services c depth w).
Proof.
  intros Hrank. revert w.
  induction depth as [|depth IH]; intros w Hdepth; [lia|].
  simpl.
  destruct (mapM _ (services_of c w)) as [downs|] eqn:Hdowns; [done|].
  match type of Hdowns with
  | mapM ?f ?l = None =>
      assert (is_Some (mapM f l)) as [? Hsome];
        [|by rewrite Hdowns in Hsome]
  end.
  apply mapM_is_Some, list.Forall_forall. intros s Hs. simpl.
  apply services_of_spec, Hrank in Hs.
  destruct (decide _); [|done]. apply IH. lia.
Qed.

(** X12.  Originals and deep services are two views of one nesting.  When
    no workflow lies within itself (a rank that grows from a service to
    its workflows, bounded by [n]) and only rows of type [workflow] have
    services, then with a recursion depth above [n] both recursions
    return, [rec] of [update_originals] gives the service and everything
    above it, [deep_services] gives the workflow and everything below it,
    and so [s] is a deep service of [w] exactly when [w] is among the
    originals computed for [s]. *)
Theorem originals_deep_services c (rank : Z → nat) n depth s w :
  (∀ s w, belongs_to c s w → rank s < rank w) →
  (∀ x, rank x ≤ n) →
  (∀ s w, belongs_to c s w → type_of c w = "workflow") →
  n < depth →
  ∃ originals deep,
    rec c depth s = Some originals
    ∧ deep_services c depth w = Some deep
    ∧ (∀ x, x ∈ originals ↔ rtc (belongs_to c) s x)
    ∧ (∀ x, x ∈ deep ↔ rtc (belongs_to c) x w)
    ∧ (s ∈ deep ↔ w ∈ originals).
Proof.
  intros Hrank Hbound Htypes Hdepth.
  destruct (rec_returns c rank n depth s Hrank Hbound) as [originals Ho];
    [lia|].
  destruct (deep_services_returns c rank depth w Hrank) as [deep Hd].
  { pose proof (Hbound w). lia. }
  exists originals, deep.
  pose proof (rec_spec c depth s originals Ho) as Hup.
  pose proof (deep_services_spec c depth w deep Htypes Hd) as Hdown.
  repeat split; try done; try apply Hup; try apply Hdown.
  - intros ?. by apply Hup, Hdown.
  - intros ?. by apply Hdown, Hup.
Qed.

Lemma originals_deep_services_witness :
  ∃ originals deep,
    rec Nested.c 3 1 = Some originals
    ∧ deep_services Nested.c 3 20 = Some deep
    ∧ (∀ x, x ∈ originals ↔ rtc (belongs_to Nested.c) 1%Z x)
    ∧ (∀ x, x ∈ deep ↔ rtc (belongs_to Nested.c) x 20%Z)
    ∧ (1%Z ∈ deep ↔ 20%Z ∈ originals).
Proof.
  apply (originals_deep_services Nested.c Nested.rank 2 3 1 20).
  - intros s w Hin. unfold belongs_to in Hin. simpl in Hin.
    repeat (apply elem_of_cons in Hin as [[= -> ->]|Hin];
            [vm_compute; lia|]).
    by apply elem_of_nil in Hin.
  - intros x. unfold Nested.rank. repeat case_decide; lia.
  - intros s w Hin. unfold belongs_to in Hin. simpl in Hin.
    repeat (apply elem_of_cons in Hin as [[= -> ->]|Hin];
            [by vm_compute|]).
    by apply elem_of_nil in Hin.
  - lia.
Defined.

(** The nesting of the example, from above and from below. *)
Example nested_workflows :
  deep_services Nested.c 3 20 = Some [20; 10; 1; 2; 3]%Z
  ∧ rec Nested.c 3 1 = Some ({[1; 10; 20]}%Z : gset Z).
Proof. split; by vm_compute. Qed.

(** ** The log queue *)

Lemma slice_from_nil start_line : slice_from start_line [] = [].
Proof. unfold slice_from. case_match; by rewrite drop_nil. Qed.

(** What the queue of a service holds after some lines. *)
Lemma add_logs_holds (redis_queue : bool) runtime service logs :
  ∀ q old,
    (if redis_queue
     then default [] (redis_lists q !! logs_key runtime service)
          = reverse old
     else default (Some []) (run_logs q !! (runtime, service)) = Some old) →
    let q' := add_logs redis_queue q runtime service logs in
    if redis_queue
    then default [] (redis_lists q' !! logs_key runtime service)
         = reverse (old ++ logs)
    else default (Some []) (run_logs q' !! (runtime, service))
         = Some (old ++ logs).
Proof.
  induction logs as [|log logs IH]; intros q old Hq; simpl.
  - by rewrite app_nil_r.
  - replace (old ++ log :: logs) with ((old ++ [log]) ++ logs)
      by by rewrite <- app_assoc.
    apply IH. unfold log_queue. destruct redis_queue; simpl.
    + by rewrite lookup_insert_eq, reverse_snoc, Hq.
    + rewrite Hq. simpl. by rewrite lookup_insert_eq.
Qed.

(** X14.  Lines come back in the order they were added.  On either back
    end, Redis (answering) or [vs.run_logs], after the lines of [logs] were
    added to a queue that did not exist, in order, reading the queue
    returns them in that order from [start_line] on: the slice
    [logs[start_line:]]. *)
Theorem log_order redis_queue q runtime service logs start_line log :
  redis_lists q !! logs_key runtime service = None →
  run_logs q !! (runtime, service) = None →
  (log_queue redis_queue true
     (add_logs redis_queue q runtime service logs)
     runtime service log Get start_line).1
  = inr (LogLines (slice_from start_line logs)).
Proof.
  intros Hredis Hlocal.
  pose proof (add_logs_holds redis_queue runtime service logs q []) as Hq.
  simpl in Hq. unfold log_queue.
  destruct redis_queue; simpl.
  - rewrite Hq by by rewrite Hredis.
    destruct (reverse logs) as [|line lines] eqn:Hlogs.
    + apply (f_equal reverse) in Hlogs. rewrite reverse_involutive in Hlogs.
      subst logs. by rewrite slice_from_nil.
    + by rewrite <- Hlogs, reverse_involutive.
  - rewrite Hq by by rewrite Hlocal. done.
Qed.

Lemma log_order_witness :
  (log_queue true true
     (add_logs true {| redis_lists := ∅; run_logs := ∅ |} "rt" 7
        ["a"; "b"; "c"])
     "rt" 7 "" Get 1).1
  = inr (LogLines (slice_from 1 ["a"; "b"; "c"])).
Proof.
  apply (log_order true {| redis_lists := ∅; run_logs := ∅ |} "rt" 7
           ["a"; "b"; "c"] 1 "").
  - reflexivity.
  - reflexivity.
Defined.

(** Three lines read from the second one on, and the last two of them, on
    both back ends. *)
Example log_lines :
  ∀ redis_queue : bool,
    let q := add_logs redis_queue {| redis_lists := ∅; run_logs := ∅ |}
               "rt" 7 ["a"; "b"; "c"] in
    (log_queue redis_queue true q "rt" 7 "" Get 1).1
    = inr (LogLines ["b"; "c"])
    ∧ (log_queue redis_queue true q "rt" 7 "" Get (-2)).1
      = inr (LogLines ["b"; "c"]).
Proof. intros [|]; split; by vm_compute. Qed.

(** ** How the propagation ends *)

(** A loop one of whose rounds raises [E], the others raising nothing
    else, raises [E]. *)
Lemma for_each_raises {A} (E : Exn) (l : list A) (body : A → M unit) x :
  x ∈ l →
  (∀ y, y ∈ l →
        hoare (λ _, True) (body y) (λ _ _, True) (λ e _, e = E)) →
  hoare (λ _, True) (body x) (λ _ _, False) (λ e _, e = E) →
  hoare (λ _, True) (for_each l body) (λ _ _, False) (λ e _, e = E).
Proof.
  intros Hx Hall Hbad. induction l as [|y l IH]; [by apply elem_of_nil in Hx|].
  simpl. apply elem_of_cons in Hx as [->|Hx].
  - eapply hoare_bind with (Q' := λ _ _, False); [exact Hbad|].
    by intros ? ? [].
  - eapply hoare_bind with (Q' := λ _ _, True); [apply Hall; left|].
    intros _. apply IH; [done|]. intros z Hz. apply Hall. by right.
Qed.

(** One edge: the push of the successor raises exactly when its priority
    is 0. *)
Lemma follow_edge_outcome run device summary edge_type s e :
  (tracks_targets run device = true → is_Some (summary !! edge_type)) →
  hoare (λ _, True) (follow_edge run device summary edge_type (Some s, e))
    (λ _ _, priority s ≠ 0%Z)
    (λ exc _, exc = ZeroDivisionError ∧ priority s = 0%Z).
Proof.
  intros Hkey. unfold follow_edge.
  eapply hoare_bind with (Q' := λ s' _, s' = s ∧ True);
    [by apply hoare_ret|].
  intros s'. apply hoare_assume. intros ->.
  eapply hoare_bind with (Q' := λ _ _, True).
  { destruct (tracks_targets run device) eqn:Htracks; [|by apply hoare_ret].
    destruct (Hkey eq_refl) as [devices Hdevices].
    unfold summary_get. rewrite Hdevices.
    eapply hoare_bind with (Q' := λ _ _, True); [by apply hoare_ret|].
    intros ?. by apply hoare_modify. }
  intros _.
  eapply hoare_bind with (Q' := λ _ _, priority s ≠ 0%Z).
  { unfold push_service, heap_key.
    destruct (decide (priority s = 0%Z)) as [Hp|Hp].
    - eapply hoare_bind with (Q' := λ _ _, False);
        [by apply hoare_raise|by intros ? ? []].
    - eapply hoare_bind with (Q' := λ _ _, True); [by apply hoare_ret|].
      intros ?. by apply hoare_modify. }
  intros _.
  destruct (tracks_targets run device) eqn:Htracks;
    [|by apply hoare_modify].
  destruct (Hkey eq_refl) as [devices Hdevices].
  unfold summary_get. rewrite Hdevices.
  eapply hoare_bind with (Q' := λ _ _, priority s ≠ 0%Z);
    [by apply hoare_ret|].
  intros ?. by apply hoare_modify.
Qed.

(** ** Priorities that are 0 *)

(** The edges of a followed type, among which one leads to a service of
    priority 0. *)
Lemma follow_hops_zero db self run device service summary edge_type s0 e0 :
  (tracks_targets run device = true → is_Some (summary !! edge_type)) →
  (∀ hop, hop ∈ neighbors db service self destination edge_type →
          is_Some hop.1) →
  (Some s0, e0) ∈ neighbors db service self destination edge_type →
  priority s0 = 0%Z →
  hoare (λ _, True)
    (for_each (neighbors db service self destination edge_type)
       (follow_edge run device summary edge_type))
    (λ _ _, False) (λ e _, e = ZeroDivisionError).
Proof.
  intros Hkey Hpeers Hhop Hzero.
  apply (for_each_raises ZeroDivisionError _ _ _ Hhop).
  - intros [successor e] Hhop'.
    destruct (Hpeers _ Hhop') as [s Hs]. simpl in Hs. subst successor.
    eapply hoare_conseq; [by apply follow_edge_outcome|done|done|].
    by intros ? ? [-> _].
  - eapply hoare_conseq; [by apply follow_edge_outcome|done|..].
    + by intros ? ? ?.
    + by intros ? ? [-> _].
Qed.

(** The edges of any type: nothing but [ZeroDivisionError] is raised. *)
Lemma follow_hops_outcome db self run device service summary edge_type :
  (tracks_targets run device = true → is_Some (summary !! edge_type)) →
  (∀ hop, hop ∈ neighbors db service self destination edge_type →
          is_Some hop.1) →
  hoare (λ _, True)
    (for_each (neighbors db service self destination edge_type)
       (follow_edge run device summary edge_type))
    (λ _ _, True) (λ e _, e = ZeroDivisionError).
Proof.
  intros Hkey Hpeers.
  apply (hoare_for_each (λ _, True)). intros [successor e] Hhop'.
  destruct (Hpeers _ Hhop') as [s Hs]. simpl in Hs. subst successor.
  eapply hoare_conseq; [by apply follow_edge_outcome|done|done|].
  by intros ? ? [-> _].
Qed.

Lemma propagate_zero db self run device service results edge_type s0 e0 :
  (tracks_targets run device = true →
   is_Some (summary_of results !! "success")
   ∧ is_Some (summary_of results !! "failure")) →
  (∀ edge_type hop,
     hop ∈ neighbors db service self destination edge_type →
     is_Some hop.1) →
  followed run results edge_type →
  (Some s0, e0) ∈ neighbors db service self destination edge_type →
  priority s0 = 0%Z →
  hoare (λ _, True) (propagate db self run device service results)
    (λ _ _, False) (λ e _, e = ZeroDivisionError).
Proof.
  intros Hkeys Hpeers [Htype Hfollowed] Hhop Hzero.
  assert (∀ edge_type',
            edge_type' ∈ ["success"; "failure"] →
            tracks_targets run device = true →
            is_Some (summary_of results !! edge_type')) as Hkey.
  { intros ? Hin Htracks. destruct (Hkeys Htracks).
    apply elem_of_cons in Hin as [->|Hin]; [done|].
    by apply list_elem_of_singleton in Hin as ->. }
  assert (edge_type ∈ ["success"; "failure"]) as Hin.
  { destruct Htype as [-> | ->]; [left|right; left]. }
  unfold propagate. fold (summary_of results). fold (status_of results).
  eapply hoare_bind with (Q' := λ _ _, True).
  { destruct (negb (tracking_bfs run) && negb (bool_decide (is_Some device)));
      [by apply hoare_modify|by apply hoare_ret]. }
  intros _. unfold follow_edges.
  destruct (tracking_bfs run) eqn:Htracking; simpl negb; simpl andb.
  - apply (for_each_raises ZeroDivisionError _ _ edge_type Hin).
    + intros edge_type' Hin'.
      destruct (Hkey edge_type' Hin'
                  (tracking_bfs_tracks_targets _ _ Htracking))
        as [devices Hdevices].
      unfold summary_get. rewrite Hdevices.
      eapply hoare_bind with (Q' := λ _ _, True).
      { eapply hoare_bind with (Q' := λ _ _, True); [by apply hoare_ret|].
        intros ?. by apply hoare_ret. }
      intros [|]; [by apply hoare_ret|].
      apply follow_hops_outcome; [by rewrite Hdevices|by apply Hpeers].
    + destruct Hfollowed as (d & ds & Hdevices).
      unfold summary_get. rewrite Hdevices.
      eapply hoare_bind with (Q' := λ empty _, empty = false ∧ True).
      { eapply hoare_bind with (Q' := λ devices _, devices = d :: ds ∧ True);
          [by apply hoare_ret|].
        intros devices. apply hoare_assume. intros ->. by apply hoare_ret. }
      intros empty. apply hoare_assume. intros ->.
      by eapply follow_hops_zero; [rewrite Hdevices|apply Hpeers|..].
  - apply (for_each_raises ZeroDivisionError _ _ edge_type Hin).
    + intros edge_type' Hin'.
      case_bool_decide; simpl; [|by apply hoare_ret].
      eapply hoare_bind with (Q' := λ _ _, True); [by apply hoare_ret|].
      intros [|]; [by apply hoare_ret|].
      apply follow_hops_outcome; [by apply Hkey|by apply Hpeers].
    + rewrite bool_decide_eq_true_2 by done. simpl.
      eapply hoare_bind with (Q' := λ empty _, empty = false ∧ True);
        [by apply hoare_ret|].
      intros empty. apply hoare_assume. intros ->.
      by eapply follow_hops_zero; [apply Hkey|apply Hpeers|..].
Qed.

Lemma for_each_app {A} (l1 l2 : list A) (body : A → M unit) st :
  for_each (l1 ++ l2) body st
  = match for_each l1 body st with
    | Ok _ st' => for_each l2 body st'
    | Raise e st' => Raise e st'
    end.
Proof.
  revert st. induction l1 as [|x l1 IH]; intros st; [done|].
  simpl. unfold mbind, M_bind. destruct (body x st); [apply IH|done].
Qed.

Section nonzero.
Context (w : World) (db : Database) (self : Workflow) (run : Run)
      (device : option Device) (start end_ : Service).

Lemma nonzero_write_state path value mode :
inv nonzero_inv (write_state path value mode).
Proof.
apply hoare_modify. intros st [Hheap Htrace]. split; [done|].
intros ev s Hev Hs. simpl in Hev.
apply elem_of_app in Hev as [Hev|Hev]; [by eapply Htrace|].
by apply list_elem_of_singleton in Hev as ->.
Qed.

Lemma nonzero_push_service service : inv nonzero_inv (push_service service).
Proof.
unfold push_service, heap_key.
destruct (decide (priority service = 0%Z)) as [Hp|Hp].
{ eapply hoare_bind with (Q' := λ _ _, False);
    [by apply hoare_raise|by intros ? ? []]. }
apply inv_bind; [apply inv_ret|]. intros key.
apply hoare_modify. intros st [Hheap Htrace]. split; [|done].
intros entry Hentry. simpl in Hentry.
rewrite (heappush_Permutation entry_lt) in Hentry.
apply elem_of_cons in Hentry as [->|?]; [done|by apply Hheap].
Qed.

Lemma nonzero_follow_edge summary edge_type hop :
inv nonzero_inv (follow_edge run device summary edge_type hop).
Proof.
unfold follow_edge. destruct hop as [successor edge].
apply inv_bind; [destruct successor; [apply inv_ret|apply inv_raise]|].
intros s. apply inv_bind.
{ case_match; [|apply inv_ret].
  apply inv_bind; [apply inv_lift|]. intros ?. by apply hoare_modify. }
intros _. apply inv_bind; [apply nonzero_push_service|]. intros _.
case_match; [|apply nonzero_write_state].
apply inv_bind; [apply inv_lift|]. intros ?. apply nonzero_write_state.
Qed.

Lemma nonzero_follow_edges service status summary :
inv nonzero_inv (follow_edges db self run device service status summary).
Proof.
unfold follow_edges. apply inv_for_each. intros edge_type _.
case_match; [apply inv_ret|].
apply inv_bind.
{ case_match; [|apply inv_ret].
  apply inv_bind; [apply inv_lift|]. intros ?. apply inv_ret. }
intros [|]; [apply inv_ret|].
apply inv_for_each. intros hop _. apply nonzero_follow_edge.
Qed.

Lemma nonzero_propagate service results :
inv nonzero_inv (propagate db self run device service results).
Proof.
unfold propagate. apply inv_bind.
{ case_match; [apply nonzero_write_state|apply inv_ret]. }
intros _. apply nonzero_follow_edges.
Qed.

Lemma nonzero_dispatch service :
priority service ≠ 0%Z →
inv nonzero_inv (dispatch w db self run device start end_ service).
Proof.
intros Hservice.
assert (∀ ev, (∀ s, is_dispatch_of s ev = true → s = service) →
              inv nonzero_inv (emit ev)) as Hemit.
{ intros ev Hev. apply hoare_modify. intros st [Hheap Htrace].
  split; [done|]. intros ev' s Hin Hs. simpl in Hin.
  apply elem_of_app in Hin as [Hin|Hin]; [by eapply Htrace|].
  apply list_elem_of_singleton in Hin as ->. by rewrite (Hev s Hs). }
unfold dispatch.
eapply hoare_bind; [apply hoare_get_frame|]. intros st0.
case_match.
- apply inv_bind; [|intros ?; apply inv_ret].
  apply Hemit. intros s Hs. simpl in Hs.
  by apply bool_decide_eq_true in Hs.
- apply inv_bind.
  { case_match; [|apply inv_ret].
    apply inv_bind; [apply inv_lift|]. intros ?. apply inv_ret. }
  intros devices.
  apply inv_bind; [|intros ?; apply inv_ret].
  apply Hemit. intros s Hs. simpl in Hs.
  by apply bool_decide_eq_true in Hs.
Qed.

Lemma nonzero_iteration i :
inv nonzero_inv (iteration w db self run device i start end_).
Proof.
unfold iteration.
eapply hoare_bind; [apply hoare_get_frame|]. intros st0.
destruct (services st0); [apply inv_ret|].
destruct (run_stop w i); [apply inv_ret|].
eapply hoare_bind with
  (Q' := λ service st, priority service ≠ 0%Z ∧ nonzero_inv st).
{ unfold pop_service.
  eapply hoare_bind; [apply hoare_get|]. intros st1.
  apply hoare_assume_state. intros [Hheap Htrace].
  destruct (heappop entry_lt (services st1)) as [[[k s] heap']|] eqn:Hpop;
    [|by apply hoare_raise].
  pose proof (heappop_Permutation _ _ _ _ Hpop) as Hperm.
  eapply hoare_bind with
    (Q' := λ _ st, priority s ≠ 0%Z ∧ nonzero_inv st).
  - apply hoare_modify. intros st [_ Htrace']. split.
    + apply (Hheap (k, s)). rewrite Hperm. left.
    + split; [|done]. intros entry Hentry. apply Hheap.
      rewrite Hperm. by right.
  - intros ?. by apply hoare_ret. }
intros service. apply hoare_assume. intros Hservice.
eapply hoare_bind; [apply hoare_get_frame|]. intros st1.
case_bool_decide; [apply inv_ret|].
apply inv_bind; [by apply hoare_modify|]. intros _.
apply inv_bind; [by apply nonzero_dispatch|].
intros [results|]; [|apply inv_ret].
apply inv_bind; [apply nonzero_propagate|]. intros _. apply inv_ret.
Qed.

Lemma nonzero_job_loop fuel i st :
nonzero_inv st →
nonzero_inv (job_loop w db self run device fuel i start end_ st).2.
Proof.
revert i st. induction fuel as [|fuel IH]; intros i st Hst; [done|].
simpl. pose proof (nonzero_iteration i st Hst) as Hit.
destruct (iteration w db self run device i start end_ st)
  as [[| |] st1|e st1]; simpl; eauto.
Qed.

Lemma nonzero_seed : inv nonzero_inv (seed db run device start).
Proof.
unfold seed. apply inv_for_each. intros i Hi.
apply inv_bind; [apply inv_lift|]. intros service.
apply inv_bind; [by apply hoare_modify|]. intros _.
apply nonzero_push_service.
Qed.

(** Seeding services of non-zero priority dispatches nothing and does
  not raise. *)
Lemma seed_ok ids :
(∀ j, j ∈ ids → ∃ s, fetch_service_by_id db j = inr s
                     ∧ priority s ≠ 0%Z) →
hoare (λ st, trace st = [])
  (for_each ids
     (λ i, service ← lift (fetch_service_by_id db i);
           targets_union (name service)
             (list_to_set (start_targets run device));;
           push_service service))
  (λ _ st, trace st = []) (λ _ _, False).
Proof.
intros Hids. apply hoare_for_each. intros j Hj.
destruct (Hids j Hj) as (s & -> & Hp). simpl.
eapply hoare_bind with (Q' := λ s' st, s' = s ∧ trace st = []);
  [by apply hoare_ret|].
intros s'. apply hoare_assume. intros ->.
eapply hoare_bind with (Q' := λ _ st, trace st = []);
  [by apply hoare_modify|].
intros _. unfold push_service, heap_key. rewrite decide_False by done.
eapply hoare_bind with (Q' := λ _ st, trace st = []);
  [by apply hoare_ret|].
intros ?. by apply hoare_modify.
Qed.
End nonzero.

(** C6 (amended).  [job] does not coerce priorities: the key is the float
    [1 / priority] of the priority as stored, and a priority of 0 makes the
    division raise.  No run ever dispatches a service of priority 0.  When
    a service the run starts from has priority 0 (the ones before it
    existing, with other priorities), [job] ends with [ZeroDivisionError]
    at line 120 before anything is dispatched.  When an edge that the
    propagation follows from a dispatched service leads to a service of
    priority 0 (the summary holding both keys where targets are tracked,
    and no edge of the service dangling), [job] ends with
    [ZeroDivisionError] at line 173. *)
Theorem zero_priority_raises w db self run device :
  (∀ fuel ev s,
     ev ∈ trace (job w db self run device fuel).2 →
     is_dispatch_of s ev = true → priority s ≠ 0%Z)
  ∧ (∀ fuel start end_ before i after service,
       fetch_service_by_scoped_name db "Start" = inr start →
       fetch_service_by_scoped_name db "End" = inr end_ →
       seed_ids run start = before ++ i :: after →
       (∀ j, j ∈ before →
             ∃ s, fetch_service_by_id db j = inr s ∧ priority s ≠ 0%Z) →
       fetch_service_by_id db i = inr service →
       priority service = 0%Z →
       (job w db self run device fuel).1 = Raised ZeroDivisionError
       ∧ trace (job w db self run device fuel).2 = [])
  ∧ (∀ fuel i start end_ st k service heap' st1 results st2
       edge_type successor edge,
       run_stop w i = false →
       heappop entry_lt (services st) = Some ((k, service), heap') →
       (runs_get st (name service) < maximum_runs service)%Z →
       count_run service (with_services st heap') = Ok tt st1 →
       dispatch w db self run device start end_ service st1
       = Ok (Some results) st2 →
       (tracks_targets run device = true →
        is_Some (summary_of results !! "success")
        ∧ is_Some (summary_of results !! "failure")) →
       (∀ edge_type hop,
          hop ∈ neighbors db service self destination edge_type →
          is_Some hop.1) →
       followed run results edge_type →
       (Some successor, edge)
       ∈ neighbors db service self destination edge_type →
       priority successor = 0%Z →
       (job_loop w db self run device (S fuel) i start end_ st).1
       = Raised ZeroDivisionError).
Proof.
  split; [|split].
  - intros fuel ev s. unfold job, prologue, mbind, M_bind, lift.
    destruct (fetch_service_by_scoped_name db "Start") as [e|start];
      [by intros ?%elem_of_nil|].
    destruct (fetch_service_by_scoped_name db "End") as [e|end_];
      [by intros ?%elem_of_nil|].
    simpl.
    assert (nonzero_inv initial_state) as Hinit.
    { split; [by intros ? ?%elem_of_nil|by intros ? ? ?%elem_of_nil]. }
    pose proof (nonzero_seed db run device start initial_state Hinit)
      as Hseed.
    destruct (seed db run device start initial_state) as [[] st0|e st0];
      simpl.
    + pose proof (nonzero_job_loop w db self run device start end_ fuel 0
                    st0 Hseed) as [_ Htrace].
      apply Htrace.
    + destruct Hseed as [_ Htrace]. apply Htrace.
  - intros fuel start end_ before i after service
      Hstart Hend Hids Hbefore Hfetch Hzero.
    unfold job, prologue, mbind, M_bind, lift. rewrite Hstart, Hend. simpl.
    unfold seed. rewrite Hids, for_each_app.
    pose proof (seed_ok db run device before Hbefore initial_state eq_refl)
      as Hok.
    destruct (for_each before _ initial_state) as [[] st0|e st0]; [|done].
    simpl. unfold mbind, M_bind, lift. rewrite Hfetch. simpl.
    unfold push_service, heap_key, mbind, M_bind. rewrite Hzero. simpl.
    done.
  - intros fuel i start end_ st k service heap' st1 results st2
      edge_type successor edge Hstop Hpop Hcap Hcount Hdispatch
      Hkeys Hpeers Hfollowed Hhop Hzero.
    simpl. rewrite (iteration_pop _ _ _ _ _ _ _ _ _ _ _ _ Hstop Hpop).
    rewrite bool_decide_eq_false_2 by lia.
    unfold mbind at 1, M_bind at 1. rewrite Hcount.
    unfold mbind at 1, M_bind at 1. rewrite Hdispatch.
    unfold mbind at 1, M_bind at 1.
    pose proof (propagate_zero db self run device service results edge_type
                  successor edge Hkeys Hpeers Hfollowed Hhop Hzero st2 I)
      as Hraise.
    destruct (propagate db self run device service results st2)
      as [[] st'|e st']; [done|]. by rewrite Hraise.
Qed.

Lemma zero_priority_raises_witness :
  (job_loop Scenario.world ZeroSuccessor.db Scenario.w Scenario.tracking
     None 1 0 Scenario.Start Scenario.End_
     (Scenario.pending [Scenario.A])).1
  = Raised ZeroDivisionError.
Proof.
  eapply (proj2 (proj2 (zero_priority_raises Scenario.world ZeroSuccessor.db
                          Scenario.w Scenario.tracking None))
            0 0 Scenario.Start Scenario.End_
            (Scenario.pending [Scenario.A])
            (float_div 1) Scenario.A [] _ _ _
            "success" ZeroSuccessor.Z0
            (Scenario.make_edge 20 "success" 3 5)).
  - reflexivity.
  - reflexivity.
  - vm_compute. reflexivity.
  - reflexivity.
  - vm_compute. reflexivity.
  - intros _. vm_compute. split; by eexists.
  - intros edge_type hop Hhop. unfold neighbors in Hhop.
    apply list_elem_of_fmap in Hhop as (e & -> & Hin).
    apply list_elem_of_filter in Hin as [_ Hin].
    unfold service_edges in Hin. apply list_elem_of_filter in Hin as [_ Hin].
    simpl in Hin.
    repeat (apply elem_of_cons in Hin as [->|Hin]; [by eexists|]).
    by apply elem_of_nil in Hin.
  - split; [by left|]. vm_compute. by eexists _, _.
  - vm_compute. left.
  - reflexivity.
Defined.

(** C6 as stated fails.  With a [Start] service of priority 0, [job]
    raises instead of dispatching it; and when [A], of priority 1, leads
    to [Z] of priority 0, the run raises after [Start] and [A] and never
    dispatches [Z]. *)
Lemma zero_priority_counterexample :
  priority ZeroPriority.Start = 0%Z
  ∧ (∀ fuel,
       (job Scenario.world ZeroPriority.db Scenario.w Scenario.tracking None
          fuel).1 = Raised ZeroDivisionError
       ∧ dispatch_count ZeroPriority.Start
           (trace (job Scenario.world ZeroPriority.db Scenario.w
                     Scenario.tracking None fuel).2) = 0)
  ∧ priority ZeroSuccessor.Z0 = 0%Z
  ∧ (job Scenario.world ZeroSuccessor.db Scenario.w Scenario.tracking None
       20).1 = Raised ZeroDivisionError
  ∧ dispatch_order
      (trace (job Scenario.world ZeroSuccessor.db Scenario.w
                Scenario.tracking None 20).2) = ["Start"; "A"].
Proof.
  split; [done|]. split; [intros fuel; by vm_compute|]. by vm_compute.
Qed.

(** ** Summaries that lack a key *)

Lemma propagate_missing_success db self run device service results st :
  tracking_bfs run = true →
  summary_of results !! "success" = None →
  propagate db self run device service results st
  = Raise (KeyError "success") st.
Proof.
  intros Htrack Hnone. unfold propagate. fold (summary_of results).
  unfold mbind at 1, M_bind at 1. rewrite Htrack. simpl.
  by apply follow_edges_missing_success.
Qed.

Lemma propagate_missing_failure db self run device service results ls :
  tracking_bfs run = true →
  summary_of results !! "success" = Some ls →
  summary_of results !! "failure" = None →
  (ls ≠ [] →
   ∀ hop, hop ∈ neighbors db service self destination "success" →
          ∃ s, hop.1 = Some s ∧ priority s ≠ 0%Z) →
  hoare (λ _, True) (propagate db self run device service results)
    (λ _ _, False) (λ e _, e = KeyError "failure").
Proof.
  intros Htrack Hsuccess Hfailure Hhops.
  unfold propagate. fold (summary_of results). fold (status_of results).
  rewrite Htrack. simpl.
  eapply hoare_bind with (Q' := λ _ _, True); [by apply hoare_ret|].
  intros _. unfold follow_edges. rewrite Htrack. simpl negb. simpl andb.
  apply (for_each_raises (KeyError "failure") _ _ "failure");
    [right; left|..].
  - intros edge_type Hin.
    apply elem_of_cons in Hin as [->|Hin].
    + unfold summary_get. rewrite Hsuccess.
      eapply hoare_bind with (Q' := λ empty _, empty = bool_decide (ls = [])
                                               ∧ True).
      { eapply hoare_bind with (Q' := λ devices _, devices = ls ∧ True);
          [by apply hoare_ret|].
        intros devices. apply hoare_assume. intros ->. by apply hoare_ret. }
      intros empty. apply hoare_assume. intros ->.
      case_bool_decide as Hls; [by apply hoare_ret|].
      apply (hoare_for_each (λ _, True)). intros [successor e] Hhop.
      destruct (Hhops Hls _ Hhop) as (s & Hs & Hp). simpl in Hs.
      subst successor.
      eapply hoare_conseq;
        [apply follow_edge_outcome; by rewrite Hsuccess|done|done|].
      by intros ? ? [_ ?].
    + apply list_elem_of_singleton in Hin as ->.
      unfold summary_get. rewrite Hfailure.
      eapply hoare_bind with (Q' := λ _ _, False); [|by intros ? ? []].
      eapply hoare_bind with (Q' := λ _ _, False);
        [by apply hoare_raise|by intros ? ? []].
  - unfold summary_get. rewrite Hfailure.
    eapply hoare_bind with (Q' := λ _ _, False); [|by intros ? ? []].
    eapply hoare_bind with (Q' := λ _ _, False);
      [by apply hoare_raise|by intros ? ? []].
Qed.

(** C10.  In tracking mode ([run_method] is
    [per_service_with_workflow_targets]) the propagation needs both keys
    of the summary, which defaults to the empty dictionary.  Without
    ["success"] the guard [summary[edge_type]] raises
    [KeyError("success")] and the state is untouched.  With ["success"]
    but without ["failure"] it raises [KeyError("failure")], after the
    edges of type [success] were followed (their successors existing, with
    priorities other than 0).  [job] then ends with that exception when
    the popped service was dispatched with such results.  With both keys
    the propagation never raises [KeyError]. *)
Theorem missing_summary_key_error w db self run device :
  tracking_bfs run = true →
  (∀ service results st,
     summary_of results !! "success" = None →
     propagate db self run device service results st
     = Raise (KeyError "success") st)
  ∧ (∀ service results st ls,
       summary_of results !! "success" = Some ls →
       summary_of results !! "failure" = None →
       (ls ≠ [] →
        ∀ hop, hop ∈ neighbors db service self destination "success" →
               ∃ s, hop.1 = Some s ∧ priority s ≠ 0%Z) →
       ∃ st', propagate db self run device service results st
              = Raise (KeyError "failure") st')
  ∧ (∀ fuel i start end_ st k service heap' st1 results st2 key,
       run_stop w i = false →
       heappop entry_lt (services st) = Some ((k, service), heap') →
       (runs_get st (name service) < maximum_runs service)%Z →
       count_run service (with_services st heap') = Ok tt st1 →
       dispatch w db self run device start end_ service st1
       = Ok (Some results) st2 →
       summary_of results !! key = None →
       key = "success"
       ∨ key = "failure"
         ∧ (∃ ls, summary_of results !! "success" = Some ls
                  ∧ (ls ≠ [] →
                     ∀ hop,
                       hop ∈ neighbors db service self destination "success" →
                       ∃ s, hop.1 = Some s ∧ priority s ≠ 0%Z)) →
       (job_loop w db self run device (S fuel) i start end_ st).1
       = Raised (KeyError key))
  ∧ (∀ service results st k st',
       is_Some (summary_of results !! "success") →
       is_Some (summary_of results !! "failure") →
       propagate db self run device service results st
       ≠ Raise (KeyError k) st').
Proof.
  intros Htrack.
  assert (∀ service results st ls,
            summary_of results !! "success" = Some ls →
            summary_of results !! "failure" = None →
            (ls ≠ [] →
             ∀ hop, hop ∈ neighbors db service self destination "success" →
                    ∃ s, hop.1 = Some s ∧ priority s ≠ 0%Z) →
            ∃ st', propagate db self run device service results st
                   = Raise (KeyError "failure") st') as Hfailure.
  { intros service results st ls Hs Hf Hhops.
    pose proof (propagate_missing_failure db self run device service results
                  ls Htrack Hs Hf Hhops st I) as Hraise.
    destruct (propagate db self run device service results st)
      as [[] st'|e st']; [done|]. subst e. by exists st'. }
  split; [|split; [exact Hfailure|split]].
  - intros service results st. by apply propagate_missing_success.
  - intros fuel i start end_ st k service heap' st1 results st2 key
      Hstop Hpop Hcap Hcount Hdispatch Hnone Hkey.
    simpl. rewrite (iteration_pop _ _ _ _ _ _ _ _ _ _ _ _ Hstop Hpop).
    rewrite bool_decide_eq_false_2 by lia.
    unfold mbind at 1, M_bind at 1. rewrite Hcount.
    unfold mbind at 1, M_bind at 1. rewrite Hdispatch.
    unfold mbind at 1, M_bind at 1.
    destruct Hkey as [->|(-> & ls & Hs & Hhops)].
    + by rewrite propagate_missing_success.
    + destruct (Hfailure service results st2 ls Hs Hnone Hhops)
        as [st' ->]. done.
  - intros service results st k st' Hsuccess Hfailure' Heq.
    unfold summary_of in Hsuccess, Hfailure'.
    destruct (res_summary results) as [summary|] eqn:Hsum; simpl in *.
    2:{ destruct Hsuccess as [? Hx]. by rewrite lookup_empty in Hx. }
    pose proof (hoare_propagate_no_key_error db self run device service
                  results summary Hsum Hsuccess Hfailure' st I) as Hno.
    rewrite Heq in Hno. by eapply Hno.
Qed.

Lemma missing_summary_key_error_witness :
  (job_loop HalfSummary.world Scenario.db Scenario.w Scenario.tracking None 1 0
     Scenario.Start Scenario.End_ (Scenario.pending [Scenario.A])).1
  = Raised (KeyError "failure").
Proof.
  eapply (proj1 (proj2 (proj2 (missing_summary_key_error HalfSummary.world
                                 Scenario.db Scenario.w Scenario.tracking
                                 None eq_refl)))
            0 0 Scenario.Start Scenario.End_ (Scenario.pending [Scenario.A])
            (float_div 1) Scenario.A [] _ _ _ "failure").
  - reflexivity.
  - reflexivity.
  - vm_compute. reflexivity.
  - reflexivity.
  - vm_compute. reflexivity.
  - reflexivity.
  - right. split; [done|]. exists ["d1"]. split; [reflexivity|].
    intros _ hop Hhop. unfold neighbors in Hhop.
    apply list_elem_of_fmap in Hhop as (e & -> & Hin).
    apply list_elem_of_filter in Hin as [_ Hin].
    unfold service_edges in Hin. apply list_elem_of_filter in Hin as [_ Hin].
    simpl in Hin.
    repeat (apply elem_of_cons in Hin as [->|Hin]; [by eexists|]).
    by apply elem_of_nil in Hin.
Defined.

(** Runners whose results have no summary at all, and Runners whose
    summary lacks ["failure"]. *)
Example missing_summary_runs :
  (job Scenario.bare Scenario.db Scenario.w Scenario.tracking None 20).1
  = Raised (KeyError "success")
  ∧ (job HalfSummary.world Scenario.db Scenario.w Scenario.tracking None 20).1
    = Raised (KeyError "failure").
Proof. split; by vm_compute. Qed.

(** ** Propagation: the heap, and the modes without targets *)




Section untracked.
Context (db : Database) (self : Workflow) (run : Run)
      (device : option Device).
Hypothesis untracked : tracks_targets run device = false.




End untracked.



(** The scenario in both modes: three increments by one and two pushes of
    targets when targets are tracked; one progress write and two edges
    marked otherwise, the "failure" edge not being followed. *)
Example bfs_propagation_trace :
  match propagate Scenario.db Scenario.w Scenario.tracking None Scenario.A
          Scenario.split_results (Scenario.pending []) with
  | Ok _ st' =>
      trace st'
      = [StateWritten "edges/11" (VInt 1) (Some "increment");
         StateWritten "edges/14" (VInt 1) (Some "increment");
         StateWritten "edges/13" (VInt 1) (Some "increment")]
      ∧ elements (targets_get st' "B") = ["d1"]
      ∧ elements (targets_get st' "End") = ["d2"]
      ∧ services st' = [Scenario.entry Scenario.End_;
                        Scenario.entry Scenario.B;
                        Scenario.entry Scenario.A]
  | Raise _ _ => False
  end.
Proof. by vm_compute. Qed.


(** ** The order of dispatch *)

Section waiting.
Context (w : World) (db : Database) (self : Workflow) (run : Run)
      (device : option Device) (start end_ : Service).
Context (entry : Entry) (b : Service) (c : nat) (P : Prop).

Local Notation "'wait'" := (waiting entry b c P).







End waiting.


Section order.
Context (w : World) (db : Database) (self : Workflow) (run : Run)
      (device : option Device) (start end_ : Service).


End order.





(** [Low] is seeded before [High] and dispatched after it. *)
Example priority_order :
  dispatch_order
    (trace (job Scenario.world Priorities.db Scenario.w Priorities.run
              None 20).2)
  = ["High"; "Low"].
Proof. by vm_compute. Qed.


(** ** Bit arithmetic on bytes *)

Local Open Scope Z_scope.

(** A property of the integers below [n], checked on each of them. *)
Lemma forall_below (P : Z → Prop) `{!∀ x, Decision (P x)} (n : Z) :
  bool_decide (Forall P (seqZ 0 n)) = true → ∀ x, 0 ≤ x < n → P x.
Proof.
  intros Hall x Hx. apply bool_decide_eq_true_1 in Hall.
  rewrite list.Forall_forall in Hall. apply Hall, elem_of_seqZ. lia.
Qed.

Ltac check_below n :=
  let H := fresh in
  intros H;
  match goal with
  | |- ?G =>
      match type of H with
      | _ ≤ ?x < _ =>
          pattern x;
          match goal with
          | |- ?P x => apply (forall_below P n); [by vm_compute|exact H]
          end
      end
  end.

Lemma lor_disjoint k n x :
  0 ≤ n → 0 ≤ x < 2 ^ n → Z.lor (k * 2 ^ n) x = k * 2 ^ n + x.
Proof.
  intros Hn Hx.
  assert (Z.land (k * 2 ^ n) x = 0) as Hland.
  { apply Z.bits_inj'. intros i Hi. rewrite Z.land_spec, Z.bits_0.
    destruct (decide (i < n)).
    - rewrite Z.mul_pow2_bits_low by lia. done.
    - rewrite <-(Z.mod_small x (2 ^ n)) by lia.
      rewrite Z.mod_pow2_bits_high by lia. apply andb_false_r. }
  pose proof (Z.add_lor_land (k * 2 ^ n) x). lia.
Qed.

Lemma lor_shiftl x n y :
  0 ≤ n → 0 ≤ y < 2 ^ n → Z.lor (Z.shiftl x n) y = x * 2 ^ n + y.
Proof. intros. rewrite Z.shiftl_mul_pow2 by lia. by apply lor_disjoint. Qed.

Lemma lead2_bits x :
  0 ≤ x < 32 →
  Z.lor 0xC0 x = 0xC0 + x
  ∧ Z.land (0xC0 + x) 0x80 ≠ 0
  ∧ Z.land (0xC0 + x) 0xE0 = 0xC0
  ∧ Z.land (0xC0 + x) 0x1F = x.
Proof. check_below 32. Qed.

Lemma lead3_bits x :
  0 ≤ x < 16 →
  Z.lor 0xE0 x = 0xE0 + x
  ∧ Z.land (0xE0 + x) 0x80 ≠ 0
  ∧ Z.land (0xE0 + x) 0xE0 ≠ 0xC0
  ∧ Z.land (0xE0 + x) 0xF0 = 0xE0
  ∧ Z.land (0xE0 + x) 0x0F = x.
Proof. check_below 16. Qed.

Lemma lead4_bits x :
  0 ≤ x < 8 →
  Z.lor 0xF0 x = 0xF0 + x
  ∧ Z.land (0xF0 + x) 0x80 ≠ 0
  ∧ Z.land (0xF0 + x) 0xE0 ≠ 0xC0
  ∧ Z.land (0xF0 + x) 0xF0 ≠ 0xE0
  ∧ Z.land (0xF0 + x) 0xF8 = 0xF0
  ∧ Z.land (0xF0 + x) 0x07 = x.
Proof. check_below 8. Qed.

Lemma continuation_byte y :
  0 ≤ y < 64 →
  Z.lor 0x80 y = 0x80 + y
  ∧ is_continuation (0x80 + y) = true
  ∧ continuation_bits (0x80 + y) = y.
Proof. check_below 64. Qed.

Lemma ascii_bits c : 0 ≤ c < 0x80 → Z.land c 0x80 = 0.
Proof. check_below 128. Qed.

Lemma low6 c : Z.land c 0x3F = c mod 64.
Proof. change 0x3F with (Z.ones 6). by rewrite Z.land_ones. Qed.

Lemma shiftr_6 c : Z.shiftr c 6 = c / 64.
Proof. by rewrite Z.shiftr_div_pow2. Qed.

Lemma shiftr_12 c : Z.shiftr c 12 = c / 4096.
Proof. by rewrite Z.shiftr_div_pow2. Qed.

Lemma shiftr_18 c : Z.shiftr c 18 = c / 262144.
Proof. by rewrite Z.shiftr_div_pow2. Qed.

(** Linear arithmetic with division and remainder by constants. *)
Ltac dlia := Z.div_mod_to_equations; lia.

Ltac zcases :=
  repeat match goal with
         | |- context [Z.ltb ?a ?b] => destruct (Z.ltb_spec a b)
         | |- context [Z.leb ?a ?b] => destruct (Z.leb_spec a b)
         | |- context [Z.eqb ?a ?b] => destruct (Z.eqb_spec a b)
         end; simpl.

(** ** UTF-8 round trip *)

Lemma utf8_encode_char_scalar c :
  is_scalar_value c → ∃ bs, utf8_encode_char c = inr bs.
Proof.
  intros [Hc Hs]. unfold utf8_encode_char.
  zcases; eauto; exfalso; lia.
Qed.

Lemma utf8_encode_char_bytes c bs :
  utf8_encode_char c = inr bs → Forall is_byte bs.
Proof.
  unfold utf8_encode_char, is_byte.
  zcases; intros ?; simplify_eq;
    rewrite ?shiftr_6, ?shiftr_12, ?shiftr_18, ?low6;
    repeat apply Forall_cons_2; try apply Forall_nil_2; try lia;
    match goal with
    | |- _ ≤ Z.lor 0xC0 ?x < _ => destruct (lead2_bits x) as [-> _]
    | |- _ ≤ Z.lor 0xE0 ?x < _ => destruct (lead3_bits x) as [-> _]
    | |- _ ≤ Z.lor 0xF0 ?x < _ => destruct (lead4_bits x) as [-> _]
    | |- _ ≤ Z.lor 0x80 ?x < _ => destruct (continuation_byte x) as [-> _]
    end; dlia.
Qed.

Lemma eqb_false_of_ne a b : a ≠ b → (a =? b) = false.
Proof. apply Z.eqb_neq. Qed.

Ltac lead_bytes :=
  rewrite ?shiftr_6, ?shiftr_12, ?shiftr_18, ?low6;
  repeat match goal with
         | |- context [Z.lor 0xC0 ?x] =>
             let H := fresh in
             destruct (lead2_bits x) as (-> & H); [dlia|];
             destruct H as (?%eqb_false_of_ne & ? & ?)
         | |- context [Z.lor 0xE0 ?x] =>
             let H := fresh in
             destruct (lead3_bits x) as (-> & H); [dlia|];
             destruct H as (?%eqb_false_of_ne & ?%eqb_false_of_ne & ? & ?)
         | |- context [Z.lor 0xF0 ?x] =>
             let H := fresh in
             destruct (lead4_bits x) as (-> & H); [dlia|];
             destruct H as (?%eqb_false_of_ne & ?%eqb_false_of_ne
                            & ?%eqb_false_of_ne & ? & ?)
         | |- context [Z.lor 0x80 ?x] =>
             let H := fresh in
             destruct (continuation_byte x) as (-> & H); [dlia|];
             destruct H as (? & ?)
         end.

Lemma lor_shiftl_6 x y : 0 ≤ y < 64 → Z.lor (x ≪ 6) y = x * 64 + y.
Proof. intros. by rewrite lor_shiftl. Qed.

Lemma lor_shiftl_12 x y : 0 ≤ y < 4096 → Z.lor (x ≪ 12) y = x * 4096 + y.
Proof. intros. by rewrite lor_shiftl. Qed.

Lemma lor_shiftl_18 x y :
  0 ≤ y < 262144 → Z.lor (x ≪ 18) y = x * 262144 + y.
Proof. intros. by rewrite lor_shiftl. Qed.

Lemma leb_true a b : a ≤ b → (a <=? b) = true.
Proof. apply Z.leb_le. Qed.

Lemma leb_false a b : b < a → (a <=? b) = false.
Proof. apply Z.leb_gt. Qed.

Lemma bytes_decode_char c bs rest :
  utf8_encode_char c = inr bs →
  bytes_decode (bs ++ rest)
  = match bytes_decode rest with
    | inr s => inr (c :: s)
    | inl e => inl e
    end.
Proof.
  unfold utf8_encode_char. zcases; intros ?; simplify_eq;
    try (exfalso; lia).
  { cbn [bytes_decode app]. by rewrite ascii_bits, Z.eqb_refl by lia. }
  all: lead_bytes; cbn [bytes_decode app];
    repeat match goal with H : _ = _ |- _ => rewrite H end;
    rewrite Z.eqb_refl, ?lor_shiftl_6, ?lor_shiftl_12, ?lor_shiftl_18
      by dlia;
    match goal with
    | |- context [inr (?e :: _)] => replace e with c by dlia
    end;
    repeat first [rewrite leb_true by lia | rewrite leb_false by lia];
    reflexivity.
Qed.

Lemma str_encode_bytes s b : str_encode s = inr b → Forall is_byte b.
Proof.
  revert b. induction s as [|c s IH]; intros b; simpl.
  - intros [= <-]. constructor.
  - destruct (utf8_encode_char c) as [e|bs] eqn:Hc; [done|].
    destruct (str_encode s) as [e|rest]; [done|].
    intros [= <-]. apply Forall_app. eauto using utf8_encode_char_bytes.
Qed.

Lemma str_encode_scalar s :
  Forall is_scalar_value s → ∃ b, str_encode s = inr b.
Proof.
  induction 1 as [|c s Hc _ [rest IH]]; simpl; [eauto|].
  destruct (utf8_encode_char_scalar c Hc) as [bs ->]. rewrite IH. eauto.
Qed.

(** [str.encode] raises nothing but [UnicodeEncodeError], and raises it on
    a surrogate code point. *)
Lemma utf8_encode_char_error c e :
  utf8_encode_char c = inl e → e = UnicodeEncodeError.
Proof. unfold utf8_encode_char. zcases; congruence. Qed.

Lemma str_encode_error s e : str_encode s = inl e → e = UnicodeEncodeError.
Proof.
  induction s as [|c s IH]; simpl; [done|].
  destruct (utf8_encode_char c) as [e'|bs] eqn:Hc.
  - intros [= <-]. by eapply utf8_encode_char_error.
  - destruct (str_encode s) as [e'|rest]; [|done].
    intros [= <-]. by apply IH.
Qed.

Lemma str_encode_surrogate s c :
  c ∈ s → 0xD800 ≤ c ≤ 0xDFFF → str_encode s = inl UnicodeEncodeError.
Proof.
  intros Hin Hc.
  destruct (str_encode s) as [e|b] eqn:Hs.
  { by rewrite (str_encode_error _ _ Hs). }
  exfalso. revert b Hs. induction s as [|a s IH]; intros b.
  { by apply elem_of_nil in Hin. }
  simpl. destruct (utf8_encode_char a) as [e|bs] eqn:Ha; [done|].
  destruct (str_encode s) as [e|rest]; [done|]. intros _.
  apply elem_of_cons in Hin as [->|Hin]; [|by eapply IH].
  revert Ha. unfold utf8_encode_char. zcases; intros ?; simplify_eq; lia.
Qed.

Lemma str_encode_nonempty s b : str_encode s = inr b → s ≠ [] → b ≠ [].
Proof.
  destruct s as [|c s]; [done|]. simpl.
  destruct (utf8_encode_char c) as [e|bs] eqn:Hc; [done|].
  destruct (str_encode s) as [e|rest]; [done|].
  intros [= <-] _. revert Hc. unfold utf8_encode_char.
  zcases; intros ?; by simplify_eq.
Qed.

(** Decoding undoes encoding. *)
Lemma bytes_decode_str_encode s b :
  str_encode s = inr b → bytes_decode b = inr s.
Proof.
  revert b. induction s as [|c s IH]; intros b; simpl.
  - by intros [= <-].
  - destruct (utf8_encode_char c) as [e|bs] eqn:Hc; [done|].
    destruct (str_encode s) as [e|rest]; [done|].
    intros [= <-]. by rewrite (bytes_decode_char _ _ _ Hc), (IH rest).
Qed.

(** ** Base64 round trip *)

Lemma table_inverse i :
  0 ≤ i < 64 →
  table_a2b (table_b2a i) = Some i ∧ table_b2a i ≠ BASE64_PAD.
Proof. check_below 64. Qed.

Lemma a2b_loop_quad i1 i2 i3 i4 rest out :
  0 ≤ i1 < 64 → 0 ≤ i2 < 64 → 0 ≤ i3 < 64 → 0 ≤ i4 < 64 →
  a2b_loop (table_b2a i1 :: table_b2a i2 :: table_b2a i3 :: table_b2a i4
            :: rest) (fresh out)
  = a2b_loop rest
      (fresh (out ++ [Z.lor (i1 ≪ 2) (i2 ≫ 4);
                      Z.lor (Z.land i2 0x0F ≪ 4) (i3 ≫ 2);
                      Z.lor (Z.land i3 0x03 ≪ 6) i4])).
Proof.
  intros H1 H2 H3 H4.
  destruct (table_inverse i1 H1) as [Ha1 Hp1].
  destruct (table_inverse i2 H2) as [Ha2 Hp2].
  destruct (table_inverse i3 H3) as [Ha3 Hp3].
  destruct (table_inverse i4 H4) as [Ha4 Hp4].
  cbn [a2b_loop fresh quad_pos leftchar pads bin_data].
  rewrite !decide_False by done. rewrite Ha1.
  cbn [a2b_loop fresh quad_pos leftchar pads bin_data].
  rewrite !decide_False by done. rewrite Ha2.
  cbn [a2b_loop fresh quad_pos leftchar pads bin_data].
  rewrite !decide_False by done. rewrite Ha3.
  cbn [a2b_loop fresh quad_pos leftchar pads bin_data].
  rewrite !decide_False by done. rewrite Ha4.
  cbn [a2b_loop fresh quad_pos leftchar pads bin_data].
  by rewrite <-!app_assoc.
Qed.

Lemma shiftr_2 c : c ≫ 2 = c / 4.
Proof. by rewrite Z.shiftr_div_pow2. Qed.

Lemma shiftr_4 c : c ≫ 4 = c / 16.
Proof. by rewrite Z.shiftr_div_pow2. Qed.

Lemma shiftl_2 c : c ≪ 2 = c * 4.
Proof. by rewrite Z.shiftl_mul_pow2. Qed.

Lemma shiftl_4 c : c ≪ 4 = c * 16.
Proof. by rewrite Z.shiftl_mul_pow2. Qed.

Lemma low2 c : Z.land c 0x03 = c mod 4.
Proof. change 0x03 with (Z.ones 2). by rewrite Z.land_ones. Qed.

Lemma low4 c : Z.land c 0x0F = c mod 16.
Proof. change 0x0F with (Z.ones 4). by rewrite Z.land_ones. Qed.

Lemma lor_shiftl_2 x y : 0 ≤ y < 4 → Z.lor (x ≪ 2) y = x * 4 + y.
Proof. intros. by rewrite lor_shiftl. Qed.

Lemma lor_shiftl_4 x y : 0 ≤ y < 16 → Z.lor (x ≪ 4) y = x * 16 + y.
Proof. intros. by rewrite lor_shiftl. Qed.

(** The indices of a group of bytes, and the bytes they decode to. *)
Lemma b64_index2 a b :
  is_byte a → is_byte b →
  Z.lor (Z.land a 3 ≪ 4) (b ≫ 4) = a mod 4 * 16 + b / 16.
Proof.
  unfold is_byte. intros. by rewrite low2, shiftr_4, lor_shiftl_4 by dlia.
Qed.

Lemma b64_index3 b c :
  is_byte b → is_byte c →
  Z.lor (Z.land b 15 ≪ 2) (c ≫ 6) = b mod 16 * 4 + c / 64.
Proof.
  unfold is_byte. intros. by rewrite low4, shiftr_6, lor_shiftl_2 by dlia.
Qed.

Lemma b64_byte1 a i2 : is_byte a → 0 ≤ i2 < 64 → i2 / 16 = a mod 4 →
  Z.lor ((a ≫ 2) ≪ 2) (i2 ≫ 4) = a.
Proof.
  unfold is_byte. intros. rewrite !shiftr_2, shiftr_4, lor_shiftl_2; dlia.
Qed.

Lemma b64_byte2 b i2 i3 :
  is_byte b → 0 ≤ i2 < 64 → 0 ≤ i3 < 64 →
  i2 mod 16 = b / 16 → i3 / 4 = b mod 16 →
  Z.lor (Z.land i2 15 ≪ 4) (i3 ≫ 2) = b.
Proof.
  unfold is_byte. intros. rewrite low4, shiftr_2, lor_shiftl_4; dlia.
Qed.

Lemma b64_byte3 c i3 :
  is_byte c → 0 ≤ i3 < 64 → i3 mod 4 = c / 64 →
  Z.lor (Z.land i3 3 ≪ 6) (Z.land c 63) = c.
Proof.
  unfold is_byte. intros. rewrite low2, low6, lor_shiftl_6; dlia.
Qed.

Lemma list_ind3 {A} (P : list A → Prop) :
  P [] → (∀ a, P [a]) → (∀ a b, P [a; b]) →
  (∀ a b c l, P l → P (a :: b :: c :: l)) →
  ∀ l, P l.
Proof.
  intros H0 H1 H2 H3 l.
  assert (∀ n l, (length l ≤ n)%nat → P l) as Hn; [|by eapply Hn].
  clear l. intros n. induction n as [|n IH]; intros l Hl.
  - destruct l; [done|simpl in Hl; lia].
  - destruct l as [|a [|b [|c l]]]; auto.
    apply H3, IH. simpl in Hl. lia.
Qed.

Lemma a2b_loop_b64encode bs out :
  Forall is_byte bs →
  a2b_loop (b64encode bs) (fresh out) = inr (out ++ bs).
Proof.
  revert out. induction bs as [|a|a b|a b c bs IH] using list_ind3;
    intros out Hbytes.
  - simpl. by rewrite app_nil_r.
  - apply Forall_cons_1 in Hbytes as [Ha _]. unfold is_byte in Ha.
    cbn [b64encode].
    destruct (table_inverse (a ≫ 2)) as [Ha1 Hp1]; [rewrite shiftr_2; dlia|].
    destruct (table_inverse (Z.land a 3 ≪ 4)) as [Ha2 Hp2];
      [rewrite low2, shiftl_4; dlia|].
    cbn [a2b_loop fresh quad_pos leftchar pads bin_data].
    rewrite !decide_False by done. rewrite Ha1.
    cbn [a2b_loop fresh quad_pos leftchar pads bin_data].
    rewrite !decide_False by done. rewrite Ha2.
    cbn [a2b_loop fresh quad_pos leftchar pads bin_data].
    rewrite (decide_True (P := BASE64_PAD = BASE64_PAD)) by done.
    rewrite (decide_True (P := (2 ≤ 2)%nat)) by lia.
    rewrite (decide_False (P := (4 ≤ 2 + 1)%nat)) by lia.
    cbn [a2b_loop fresh quad_pos leftchar pads bin_data].
    rewrite (decide_True (P := BASE64_PAD = BASE64_PAD)) by done.
    rewrite (decide_True (P := (2 ≤ 2)%nat)) by lia.
    rewrite (decide_True (P := (4 ≤ 2 + 2)%nat)) by lia.
    do 3 f_equal.
    rewrite (b64_byte1 a (Z.land a 3 ≪ 4)); unfold is_byte;
      rewrite ?low2, ?shiftl_4; try dlia; done.
  - apply Forall_cons_1 in Hbytes as [Ha Hbytes].
    apply Forall_cons_1 in Hbytes as [Hb _].
    cbn [b64encode]. rewrite (b64_index2 a b) by done.
    unfold is_byte in *.
    destruct (table_inverse (a ≫ 2)) as [Ha1 Hp1]; [rewrite shiftr_2; dlia|].
    destruct (table_inverse (a mod 4 * 16 + b / 16)) as [Ha2 Hp2]; [dlia|].
    destruct (table_inverse (Z.land b 15 ≪ 2)) as [Ha3 Hp3];
      [rewrite low4, shiftl_2; dlia|].
    cbn [a2b_loop fresh quad_pos leftchar pads bin_data].
    rewrite !decide_False by done. rewrite Ha1.
    cbn [a2b_loop fresh quad_pos leftchar pads bin_data].
    rewrite !decide_False by done. rewrite Ha2.
    cbn [a2b_loop fresh quad_pos leftchar pads bin_data].
    rewrite !decide_False by done. rewrite Ha3.
    cbn [a2b_loop fresh quad_pos leftchar pads bin_data].
    rewrite (decide_True (P := BASE64_PAD = BASE64_PAD)) by done.
    rewrite (decide_True (P := (2 ≤ 3)%nat)) by lia.
    rewrite (decide_True (P := (4 ≤ 3 + 1)%nat)) by lia.
    rewrite <-app_assoc. do 2 f_equal. simpl.
    rewrite (b64_byte1 a (a mod 4 * 16 + b / 16)),
      (b64_byte2 b (a mod 4 * 16 + b / 16) (Z.land b 15 ≪ 2));
      unfold is_byte; rewrite ?low4, ?shiftl_2; try dlia; done.
  - apply Forall_cons_1 in Hbytes as [Ha Hbytes].
    apply Forall_cons_1 in Hbytes as [Hb Hbytes].
    apply Forall_cons_1 in Hbytes as [Hc Hbytes].
    cbn [b64encode app].
    rewrite (b64_index2 a b), (b64_index3 b c) by done.
    unfold is_byte in *.
    rewrite a2b_loop_quad by (rewrite ?shiftr_2, ?low6; dlia).
    rewrite IH by done. rewrite <-app_assoc.
    rewrite (b64_byte1 a (a mod 4 * 16 + b / 16)),
      (b64_byte2 b (a mod 4 * 16 + b / 16) (b mod 16 * 4 + c / 64)),
      (b64_byte3 c (b mod 16 * 4 + c / 64));
      unfold is_byte; try dlia.
    done.
Qed.

Lemma a2b_base64_b64encode bs :
  Forall is_byte bs → a2b_base64 (b64encode bs) = inr bs.
Proof. intros. by apply (a2b_loop_b64encode bs []). Qed.

Lemma b64encode_nonempty bs : bs ≠ [] → b64encode bs ≠ [].
Proof. by destruct bs as [|a [|b [|c bs]]]. Qed.

(** ** Stored secrets *)

Section round_trip.
Context (Fernet : string → option FernetObj).

(** What [cryptography.fernet] promises: a token decrypts to the data it
    was made from, and is never empty. *)
Hypothesis Fernet_decrypt_encrypt :
  ∀ key fernet entropy data,
    Fernet key = Some fernet →
    fernet_decrypt fernet (fernet_encrypt fernet entropy data) = Some data.
Hypothesis Fernet_token_nonempty :
  ∀ key fernet entropy data,
    Fernet key = Some fernet → fernet_encrypt fernet entropy data ≠ [].

(** C9 (amended).  Whether [FERNET_KEY] is set (Fernet) or absent or
    empty (base64), for every non-empty password that [str.encode]
    accepts (a string of Unicode scalar values), [encrypt_password]
    returns a token and [get_password] applied to it returns the
    password.  A password that holds a surrogate code point has no round
    trip: [encrypt_password] raises [UnicodeEncodeError]. *)
Theorem password_round_trip FERNET_KEY self entropy password :
  init_encryption Fernet FERNET_KEY = inr self →
  password ≠ [] →
  (Forall is_scalar_value password →
   ∃ token,
     encrypt_password self entropy (PyStr password) = inr token
     ∧ get_password self (PyBytes token) = inr (PyStr password))
  ∧ (∀ c, c ∈ password → 0xD800 ≤ c ≤ 0xDFFF →
          encrypt_password self entropy (PyStr password)
          = inl UnicodeEncodeError).
Proof using Fernet_decrypt_encrypt Fernet_token_nonempty.
  intros Hinit Hne. split.
  2:{ intros c Hin Hc. unfold encrypt_password.
      by rewrite (str_encode_surrogate _ _ Hin Hc). }
  intros Hscalar.
  destruct (str_encode_scalar password Hscalar) as [b Hb].
  pose proof (bytes_decode_str_encode _ _ Hb) as Hdecode.
  pose proof (str_encode_bytes _ _ Hb) as Hbytes.
  pose proof (str_encode_nonempty _ _ Hb Hne) as Hbne.
  unfold init_encryption in Hinit.
  assert (∀ token : list Z,
    token ≠ [] → falsy (PyBytes token) = false) as Hfalsy.
  { by intros [|??]. }
  destruct FERNET_KEY as [[|a key]|].
  - simplify_eq. exists (b64encode b).
    split; [unfold encrypt_password; by rewrite Hb|].
    unfold get_password.
    rewrite Hfalsy by by apply b64encode_nonempty.
    cbn [decrypt base64_b64decode].
    by rewrite a2b_base64_b64encode, Hdecode.
  - destruct (Fernet (String a key)) as [fernet|] eqn:Hkey; [|done].
    simplify_eq. exists (fernet_encrypt fernet entropy b).
    split; [unfold encrypt_password; by rewrite Hb|].
    unfold get_password.
    rewrite Hfalsy by by eapply Fernet_token_nonempty.
    cbn [decrypt].
    by rewrite (Fernet_decrypt_encrypt _ _ _ _ Hkey), Hdecode.
  - simplify_eq. exists (b64encode b).
    split; [unfold encrypt_password; by rewrite Hb|].
    unfold get_password.
    rewrite Hfalsy by by apply b64encode_nonempty.
    cbn [decrypt base64_b64decode].
    by rewrite a2b_base64_b64encode, Hdecode.
Qed.
End round_trip.

Lemma toy_decrypt_encrypt key fernet entropy data :
Secrets.Fernet key = Some fernet →
  fernet_decrypt fernet (fernet_encrypt fernet entropy data) = Some data.
Proof.
  unfold Secrets.Fernet. case_decide; [|done]. intros [= <-]. simpl.
  by rewrite Nat2Z.id, drop_app_length.
Qed.

Lemma toy_token_nonempty key fernet entropy data :
Secrets.Fernet key = Some fernet → fernet_encrypt fernet entropy data ≠ [].
Proof. unfold Secrets.Fernet. case_decide; [|done]. by intros [= <-]. Qed.

Lemma password_round_trip_witness :
  ∃ token,
    encrypt_password Secrets.with_key [7; 7] (PyStr Secrets.password)
    = inr token
    ∧ get_password Secrets.with_key (PyBytes token)
      = inr (PyStr Secrets.password).
Proof.
  refine (proj1 (password_round_trip Secrets.Fernet toy_decrypt_encrypt
                   toy_token_nonempty (Some Secrets.key) Secrets.with_key
                   [7; 7] Secrets.password _ _) _).
  - reflexivity.
  - discriminate.
  - unfold is_scalar_value, Secrets.password.
    repeat apply Forall_cons_2; try apply Forall_nil_2; lia.
Defined.

(** C9 as stated fails for the non-empty password made of the lone
    surrogate U+D800: with a key and without one, [encrypt_password]
    raises and there is no token to read back. *)
Lemma surrogate_password_counterexample :
  Secrets.surrogate ≠ []
  ∧ (∀ entropy,
       encrypt_password Secrets.with_key entropy (PyStr Secrets.surrogate)
       = inl UnicodeEncodeError)
  ∧ (∀ self entropy,
       init_encryption Secrets.Fernet None = inr self →
       encrypt_password self entropy (PyStr Secrets.surrogate)
       = inl UnicodeEncodeError).
Proof.
  split; [done|]. split; [done|]. by intros self entropy [= <-].
Qed.

(** The same round trip without a key, evaluated: the token is the base64
    text of the UTF-8 bytes. *)
Example base64_round_trip :
  ∃ self,
    init_encryption Secrets.Fernet None = inr self
    ∧ encrypt_password self [] (PyStr [112; 228])
      = inr [99; 77; 79; 107]
    ∧ get_password self (PyBytes [99; 77; 79; 107]) = inr (PyStr [112; 228]).
Proof. eexists. split; [reflexivity|]. by vm_compute. Qed.

(** ** The scheduler client *)

(** C8 (amended).  The decorated scheduler calls [next_run_time],
    [time_before_next_run] and [schedule] return a value for every
    exception of the request.  When the request raises a
    [ConnectionError] (connect timeouts included), [MissingSchema] or
    [ReadTimeout], the two reads return "Scheduler Unreachable".
    [schedule] returns [{"alert": "Scheduler Unreachable: the task cannot be
    scheduled."}] when its request raises a [ConnectionError]; for
    [MissingSchema] and [ReadTimeout] it returns the string
    "Scheduler Unreachable", and for any other exception, a malformed
    response among them, the string "Error (<exception>)".  The task is
    left unchanged in each of these cases. *)
Theorem scheduler_errors env self exc :
  (caught_by exc [ConnectionError; MissingSchema; ReadTimeout] = true →
   (http_get (http env)
      (address_str env +:+ "/next_runtime/" +:+ pretty (task_id self))
    = inl exc →
    next_run_time env self = (JStr "Scheduler Unreachable", self))
   ∧ (http_get (http env)
        (address_str env +:+ "/time_left/" +:+ pretty (task_id self))
      = inl exc →
      time_before_next_run env self = (JStr "Scheduler Unreachable", self)))
  ∧ (∀ mode props,
       task_properties self = inr props →
       http_post (http env) (address_str env +:+ "/schedule")
         (Some (JDict [("mode", JStr mode); ("task", props)]))
       = inl exc →
       schedule env mode self
       = (if caught_by exc [ConnectionError] then unreachable_alert
          else if caught_by exc [MissingSchema; ReadTimeout]
               then JStr "Scheduler Unreachable"
               else JStr ("Error (" +:+ exn_str exc +:+ ")"),
          self)).
Proof.
  split.
  - intros Hcaught.
    split; intros Hget;
      unfold next_run_time, time_before_next_run, catch_request_exceptions;
      by rewrite Hget, Hcaught.
  - intros mode props Hprops Hpost.
    unfold schedule, catch_request_exceptions, schedule_body.
    rewrite Hprops, Hpost.
    destruct (caught_by exc [ConnectionError]) eqn:Hconn; [done|].
    unfold caught_by in *. simpl in *.
    rewrite orb_false_r in Hconn. rewrite Hconn. simpl.
    by destruct (subclass_of (exn_class exc) MissingSchema
                 || (subclass_of (exn_class exc) ReadTimeout || false)).
Qed.

Lemma scheduler_errors_witness :
  next_run_time (Outage.failing Outage.timeout) Outage.task
  = (JStr "Scheduler Unreachable", Outage.task).
Proof.
  apply (proj1 (proj1 (scheduler_errors (Outage.failing Outage.timeout)
                         Outage.task Outage.timeout) eq_refl)).
  reflexivity.
Defined.

(** C8 as stated fails: on a malformed response [schedule] returns the
    string "Error (...)" and not the alert dictionary; and [Task.delete],
    which is not decorated, lets the exception of its request through. *)
Lemma scheduler_errors_counterexample :
  schedule (Outage.failing Outage.malformed) "schedule" Outage.task
  = (JStr "Error (Expecting value: line 1 column 1 (char 0))", Outage.task)
  ∧ delete (Outage.failing Outage.timeout) Outage.task = inl Outage.timeout.
Proof. split; reflexivity. Qed.

(** ** Private properties *)

Lemma table_b2a_ascii i : is_ascii (table_b2a i).
Proof.
  unfold table_b2a, is_ascii.
  assert (Forall (λ c, 0 ≤ c < 0x80) b64_alphabet) as Hall.
  { apply (bool_decide_unpack _). by vm_compute. }
  destruct (nth_in_or_default (Z.to_nat i) b64_alphabet 0) as [Hin| ->];
    [|lia].
  rewrite list.Forall_forall in Hall. apply Hall. by apply list_elem_of_In.
Qed.

Lemma b64encode_ascii bs : Forall is_ascii (b64encode bs).
Proof.
  assert (is_ascii BASE64_PAD) as Hpad by (unfold is_ascii, BASE64_PAD; lia).
  induction bs as [|a|a b|a b c bs IH] using list_ind3; simpl;
    repeat apply Forall_cons_2; try apply Forall_nil_2;
    auto using table_b2a_ascii.
Qed.

Lemma bytes_decode_ascii b : Forall is_ascii b → bytes_decode b = inr b.
Proof.
  induction 1 as [|c b Hc _ IH]; simpl; [done|].
  rewrite (ascii_bits c Hc). simpl. by rewrite IH.
Qed.

Lemma str_encode_ascii s : Forall is_ascii s → str_encode s = inr s.
Proof.
  induction 1 as [|c s Hc _ IH]; simpl; [done|].
  unfold utf8_encode_char, is_ascii in *.
  rewrite (proj2 (Z.ltb_ge c 0)), (proj2 (Z.ltb_lt c 0x80)) by lia.
  by rewrite IH.
Qed.

(** Assigning a password to a private property stores the token as a
    [str]. *)
Lemma setattr_store private_properties_set env entropy self property
    password b token :
  property ∈ private_properties_set →
  password ≠ [] →
  str_encode password = inr b →
  encrypt env entropy (PyBytes b) = inr token →
  Forall is_ascii token →
  AbstractBase_setattr private_properties_set env entropy self property
    (PyStr password) = inr (<[property := PyStr token]> self).
Proof.
  intros Hprivate Hne Hb Htoken Hascii.
  unfold AbstractBase_setattr. rewrite decide_True by done.
  destruct password as [|c password]; [done|].
  cbn [falsy]. unfold encrypt_password. rewrite Hb, Htoken.
  unfold to_str. by rewrite (bytes_decode_ascii _ Hascii).
Qed.

Lemma b64decode_str_b64encode b :
  Forall is_byte b → base64_b64decode (PyStr (b64encode b)) = inr b.
Proof.
  intros Hb. unfold base64_b64decode.
  assert (forallb (λ c, c <? 128) (b64encode b) = true) as ->.
  { apply forallb_forall. intros c Hc%list_elem_of_In.
    pose proof (b64encode_ascii b) as Hall.
    rewrite list.Forall_forall in Hall. specialize (Hall c Hc).
    unfold is_ascii in Hall. apply Z.ltb_lt. lia. }
  by apply a2b_base64_b64encode.
Qed.

Section private_properties.
Context (Fernet : string → option FernetObj).
Context (private_properties_set : gset string).

(** What [cryptography.fernet] promises for byte strings: a token
  decrypts to the data it was made from, is never empty, and is URL-safe
  base64 text. *)
Hypothesis Fernet_decrypt_encrypt :
∀ key fernet entropy data,
  Fernet key = Some fernet → Forall is_byte data →
  fernet_decrypt fernet (fernet_encrypt fernet entropy data) = Some data.
Hypothesis Fernet_token_nonempty :
∀ key fernet entropy data,
  Fernet key = Some fernet → Forall is_byte data →
  fernet_encrypt fernet entropy data ≠ [].
Hypothesis Fernet_token_ascii :
∀ key fernet entropy data,
  Fernet key = Some fernet → Forall is_byte data →
  Forall is_ascii (fernet_encrypt fernet entropy data).

(** X5.  A private property round-trips through the attribute store.
  Assigning a non-empty password (a string of Unicode scalar values) to
  a private property stores, as a [str], the token that
  [encrypt_password] returns for it, and leaves the other attributes as
  they were.  The token is the Fernet encryption of the UTF-8 bytes of
  the password when [FERNET_KEY] is set, and their base64 text
  otherwise; it is ASCII, so that the [str] stored has its characters.
  [get_password] of the stored attribute returns the password. *)
Theorem private_property_round_trip FERNET_KEY env entropy self property
  password :
init_encryption Fernet FERNET_KEY = inr env →
property ∈ private_properties_set →
password ≠ [] →
Forall is_scalar_value password →
∃ b token,
  str_encode password = inr b
  ∧ encrypt_password env entropy (PyStr password) = inr token
  ∧ (if fernet_enabled env
     then ∃ key fernet,
            FERNET_KEY = Some key ∧ Fernet key = Some fernet
            ∧ token = fernet_encrypt fernet entropy b
     else token = b64encode b)
  ∧ to_str token = inr (PyStr token)
  ∧ AbstractBase_setattr private_properties_set env entropy self property
      (PyStr password) = inr (<[property := PyStr token]> self)
  ∧ get_password env (PyStr token) = inr (PyStr password).
Proof using Fernet_decrypt_encrypt Fernet_token_nonempty Fernet_token_ascii.
intros Hinit Hprivate Hne Hscalar.
destruct (str_encode_scalar password Hscalar) as [b Hb].
pose proof (bytes_decode_str_encode _ _ Hb) as Hdecode.
pose proof (str_encode_bytes _ _ Hb) as Hbytes.
pose proof (str_encode_nonempty _ _ Hb Hne) as Hbne.
assert (∀ token : list Z, token ≠ [] → falsy (PyStr token) = false)
  as Hfalsy by by intros [|??].
exists b.
assert (∀ env',
  fernet_enabled env' = false →
  encrypt env' = (λ _ data, base64_b64encode data) →
  decrypt env' = base64_b64decode →
  ∃ token,
    str_encode password = inr b
    ∧ encrypt_password env' entropy (PyStr password) = inr token
    ∧ (if fernet_enabled env'
       then ∃ key fernet,
              FERNET_KEY = Some key ∧ Fernet key = Some fernet
              ∧ token = fernet_encrypt fernet entropy b
       else token = b64encode b)
    ∧ to_str token = inr (PyStr token)
    ∧ AbstractBase_setattr private_properties_set env' entropy self
        property (PyStr password) = inr (<[property := PyStr token]> self)
    ∧ get_password env' (PyStr token) = inr (PyStr password)) as Hbase64.
{ intros env' Hplain Hencrypt Hdecrypt. exists (b64encode b).
  split; [done|]. split.
  { unfold encrypt_password. by rewrite Hb, Hencrypt. }
  split; [by rewrite Hplain|]. split.
  { unfold to_str. by rewrite (bytes_decode_ascii _ (b64encode_ascii b)). }
  split.
  - apply (setattr_store _ _ _ _ _ _ b); try done.
    + by rewrite Hencrypt.
    + apply b64encode_ascii.
  - unfold get_password. rewrite Hfalsy by by apply b64encode_nonempty.
    rewrite Hplain, Hdecrypt, b64decode_str_b64encode by done.
    by rewrite Hdecode. }
unfold init_encryption in Hinit.
destruct FERNET_KEY as [[|a key]|].
- simplify_eq. by apply Hbase64.
- destruct (Fernet (String a key)) as [fernet|] eqn:Hkey; [|done].
  simplify_eq. exists (fernet_encrypt fernet entropy b).
  pose proof (Fernet_token_ascii _ _ entropy b Hkey Hbytes) as Hascii.
  split; [done|]. split.
  { unfold encrypt_password. by rewrite Hb. }
  split; [by exists (String a key), fernet|]. split.
  { unfold to_str. by rewrite (bytes_decode_ascii _ Hascii). }
  split.
  + by apply (setattr_store _ _ _ _ _ _ b).
  + unfold get_password.
    rewrite Hfalsy by by eapply Fernet_token_nonempty.
    cbn [fernet_enabled fernet_encryption decrypt].
    rewrite (str_encode_ascii _ Hascii).
    by rewrite (Fernet_decrypt_encrypt _ _ _ _ Hkey Hbytes), Hdecode.
- simplify_eq. by apply Hbase64.
Qed.
End private_properties.

Lemma plain_decrypt_encrypt key fernet entropy data :
  Vault.Plain key = Some fernet → Forall is_byte data →
  fernet_decrypt fernet (fernet_encrypt fernet entropy data) = Some data.
Proof.
  unfold Vault.Plain. case_decide; [|done]. intros [= <-] Hdata.
  unfold Vault.plain. cbn [fernet_encrypt fernet_decrypt].
  rewrite a2b_base64_b64encode; [done|].
  apply Forall_cons_2; [unfold is_byte; lia|done].
Qed.

Lemma plain_token_nonempty key fernet entropy data :
  Vault.Plain key = Some fernet → Forall is_byte data →
  fernet_encrypt fernet entropy data ≠ [].
Proof.
  unfold Vault.Plain. case_decide; [|done]. intros [= <-] _.
  unfold Vault.plain. cbn [fernet_encrypt]. by apply b64encode_nonempty.
Qed.

Lemma plain_token_ascii key fernet entropy data :
  Vault.Plain key = Some fernet → Forall is_byte data →
  Forall is_ascii (fernet_encrypt fernet entropy data).
Proof.
  unfold Vault.Plain. case_decide; [|done]. intros [= <-] _.
  unfold Vault.plain. cbn [fernet_encrypt]. apply b64encode_ascii.
Qed.

Lemma private_property_round_trip_witness :
  ∃ b token,
    str_encode Secrets.password = inr b
    ∧ encrypt_password Vault.with_key [7; 7] (PyStr Secrets.password)
      = inr token
    ∧ (if fernet_enabled Vault.with_key
       then ∃ key fernet,
              Some Secrets.key = Some key ∧ Vault.Plain key = Some fernet
              ∧ token = fernet_encrypt fernet [7; 7] b
       else token = b64encode b)
    ∧ to_str token = inr (PyStr token)
    ∧ AbstractBase_setattr {[ "password" ]} Vault.with_key [7; 7]
        {[ "name" := PyStr [114] ]} "password" (PyStr Secrets.password)
      = inr (<["password" := PyStr token]> {[ "name" := PyStr [114] ]})
    ∧ get_password Vault.with_key (PyStr token)
      = inr (PyStr Secrets.password).
Proof.
  apply (private_property_round_trip Vault.Plain {[ "password" ]}
           plain_decrypt_encrypt plain_token_nonempty plain_token_ascii
           (Some Secrets.key)).
  - reflexivity.
  - by apply elem_of_singleton.
  - discriminate.
  - unfold is_scalar_value, Secrets.password.
    repeat apply Forall_cons_2; try apply Forall_nil_2; lia.
Defined.

(** What is stored is not the password: without a key the attribute holds
    the base64 text of its UTF-8 bytes, and an empty value is not stored
    at all. *)
Example private_property_stored :
  ∃ env,
    init_encryption Vault.Plain None = inr env
    ∧ AbstractBase_setattr {[ "password" ]} env [] ∅ "password"
        (PyStr [112; 228])
      = inr {[ "password" := PyStr [99; 77; 79; 107] ]}
    ∧ AbstractBase_setattr {[ "password" ]} env [] ∅ "password" (PyStr [])
      = inr ∅.
Proof. eexists. split; [reflexivity|]. split; by vm_compute. Qed.
